(** * PineScript-Architect: the generation pipeline of [services/geminiService.ts]

    A shallow embedding of the response extractor, the code normalizer
    ([postProcessCode]), the prompt assembly and the four service entry
    points, with the properties the specification states about them.

    Strings are JavaScript strings: sequences of UTF-16 code units.  A code
    unit is a natural number ([N]); nothing below depends on the bound
    [< 65536]. *)

From Stdlib Require Import String Ascii QArith.
From Stdlib Require Import List NArith Bool Arith Lia.
Import ListNotations.

Local Open Scope N_scope.
Local Open Scope list_scope.

(* ================================================================== *)
(** ** JavaScript strings *)

Definition char := N.
Definition str := list char.

(** An ASCII literal as a JavaScript string. *)
Definition u (s : string) : str := map N_of_ascii (list_ascii_of_string s).

Definition nl : char := 10.
Definition dq : str := [34].           (* the double quote character *)
Definition backtick : char := 96.

(** [\d] *)
Definition is_digit (c : char) : bool := (48 <=? c) && (c <=? 57).

(** [\s], which is also the set [String.prototype.trim] removes:
    WhiteSpace and LineTerminator of ECMAScript. *)
Definition is_space (c : char) : bool :=
  (c =? 9) || (c =? 10) || (c =? 11) || (c =? 12) || (c =? 13) || (c =? 32)
  || (c =? 160) || (c =? 5760) || ((8192 <=? c) && (c <=? 8202))
  || (c =? 8232) || (c =? 8233) || (c =? 8239) || (c =? 8287)
  || (c =? 12288) || (c =? 65279).

Definition is_nl (c : char) : bool := c =? nl.

(** Canonicalisation of the [/i] flag (no [/u]): a code unit is compared by
    its upper case, and a non-ASCII unit never folds onto an ASCII one, so
    against the ASCII letters of the patterns below only the ASCII fold
    matters. *)
Definition canon (c : char) : char :=
  if (97 <=? c) && (c <=? 122) then c - 32 else c.

Definition char_eq (c d : char) : bool := c =? d.
Definition char_eq_ci (c d : char) : bool := canon c =? canon d.

(** [strip_prefix eq p s]: the rest of [s] after the prefix [p], when [s]
    starts with [p]. *)
Fixpoint strip_prefix (eq : char -> char -> bool) (p s : str) : option str :=
  match p with
  | [] => Some s
  | a :: p' =>
      match s with
      | [] => None
      | c :: s' => if eq a c then strip_prefix eq p' s' else None
      end
  end.

Definition starts_with (p s : str) : bool :=
  match strip_prefix char_eq p s with Some _ => true | None => false end.

(** [s.indexOf(pat)]; [None] stands for -1. *)
Fixpoint indexOf (pat s : str) : option nat :=
  match strip_prefix char_eq pat s with
  | Some _ => Some 0%nat
  | None =>
      match s with
      | [] => None
      | _ :: t => option_map S (indexOf pat t)
      end
  end.

(** [s.substring(k)] and [s.substring(0, k)]. *)
Definition substring_from (k : nat) (s : str) : str := skipn k s.
Definition substring_to (k : nat) (s : str) : str := firstn k s.

(** [s.replace(pat, rep)] with a string pattern: the first occurrence only. *)
Fixpoint replace_first (pat rep s : str) : str :=
  match strip_prefix char_eq pat s with
  | Some rest => rep ++ rest
  | None =>
      match s with
      | [] => []
      | c :: t => c :: replace_first pat rep t
      end
  end.

Fixpoint trimStart (s : str) : str :=
  match s with
  | c :: t => if is_space c then trimStart t else s
  | [] => []
  end.

Definition trimEnd (s : str) : str := rev (trimStart (rev s)).
Definition trim (s : str) : str := trimEnd (trimStart s).

(** [s.includes(pat)] *)
Definition includes (pat s : str) : bool :=
  match indexOf pat s with Some _ => true | None => false end.

(* ================================================================== *)
(** ** Regular expressions

    A pattern is a backtracking matcher in continuation-passing style: it
    is given the input at the current position and the continuation that
    matches the rest of the pattern, and tries its alternatives in the
    order the ECMAScript semantics prescribes. *)

Section Regex.
Variable R : Type.

Definition cont := str -> option R.
Definition re := str -> cont -> option R.

Definition seq (r1 r2 : re) : re := fun s k => r1 s (fun s' => r2 s' k).

Definition eps : re := fun s k => k s.

Definition lit (p : str) : re := fun s k =>
  match strip_prefix char_eq p s with Some r => k r | None => None end.

Definition lit_ci (p : str) : re := fun s k =>
  match strip_prefix char_eq_ci p s with Some r => k r | None => None end.

(** [r1|r2]: the left alternative first, the right one when the left one
    or the rest of the pattern after it fails. *)
Definition alt (r1 r2 : re) : re := fun s k =>
  match r1 s k with Some x => Some x | None => r2 s k end.

(** [c*] for a character class, greedy. *)
Fixpoint star (p : char -> bool) (s : str) (k : cont) : option R :=
  match s with
  | c :: t =>
      if p c then
        match star p t k with Some x => Some x | None => k s end
      else k s
  | [] => k s
  end.

(** [c{n,}] for a character class, greedy. *)
Fixpoint at_least (n : nat) (p : char -> bool) (s : str) (k : cont)
  : option R :=
  match n with
  | O => star p s k
  | S n' =>
      match s with
      | c :: t => if p c then at_least n' p t k else None
      | [] => None
      end
  end.

(** [[\s\S]*?]: any characters, as few as possible. *)
Fixpoint any_lazy (s : str) (k : cont) : option R :=
  match k s with
  | Some x => Some x
  | None =>
      match s with
      | _ :: t => any_lazy t k
      | [] => None
      end
  end.
End Regex.

Arguments seq {R}.
Arguments eps {R}.
Arguments lit {R}.
Arguments lit_ci {R}.
Arguments alt {R}.
Arguments star {R}.
Arguments at_least {R}.
Arguments any_lazy {R}.

(** The length of the match of a pattern at the start of [s]. *)
Definition match_len (r : re nat) (s : str) : option nat :=
  r s (fun rest => Some (length s - length rest)%nat).

(** [s.replace(/r/g, rep)] for a replacement without [$] patterns.  The
    scan goes left to right; [skip] counts the characters still covered by
    the match in progress.  After an empty match the scan copies one
    character and goes on. *)
Fixpoint replace_scan (m : str -> option nat) (rep : str) (skip : nat)
  (s : str) : str :=
  match s with
  | [] =>
      match skip with
      | O => match m [] with Some _ => rep | None => [] end
      | S _ => []
      end
  | c :: t =>
      match skip with
      | S k => replace_scan m rep k t
      | O =>
          match m s with
          | Some O => rep ++ c :: replace_scan m rep 0 t
          | Some (S n) => rep ++ replace_scan m rep n t
          | None => c :: replace_scan m rep 0 t
          end
      end
  end.

Definition replace_all (r : re nat) (rep s : str) : str :=
  replace_scan (match_len r) rep 0 s.

(* ================================================================== *)
(** ** The patterns of the service *)

Definition fence : str := [backtick; backtick; backtick].

(** The result of [text.match(codeBlockRegex)]: [m_whole] is [match[0]],
    [m_group1] is [match[1]]. *)
Record rmatch := { m_index : nat; m_whole : str; m_group1 : str }.

(** [/```(?:pinescript|pine|)\s*([\s\S]*?)\s*```/i] at the current
    position: the capture and the input after the match. *)
Definition codeBlock_here (s : str) : option (str * str) :=
  lit fence s (fun s1 =>
  alt (lit_ci (u "pinescript")) (alt (lit_ci (u "pine")) eps) s1 (fun s2 =>
  star is_space s2 (fun s3 =>
  any_lazy s3 (fun s4 =>
  star is_space s4 (fun s5 =>
  lit fence s5 (fun s6 =>
  Some (firstn (length s3 - length s4) s3, s6))))))).

(** The leftmost match. *)
Fixpoint codeBlock_from (i : nat) (s : str) : option rmatch :=
  match codeBlock_here s with
  | Some (g, rest) =>
      Some {| m_index := i;
              m_whole := firstn (length s - length rest) s;
              m_group1 := g |}
  | None =>
      match s with
      | [] => None
      | _ :: t => codeBlock_from (S i) t
      end
  end.

Definition match_codeBlock (text : str) : option rmatch :=
  codeBlock_from 0 text.

(** [/[^0-9]/] *)
Definition re_nondigit : re nat := fun s k =>
  match s with
  | c :: t => if is_digit c then None else k t
  | [] => None
  end.

(** [/\/\/@version=\d+\s*/] *)
Definition version_marker : str := u "//@version=".

Definition re_versionTag : re nat :=
  seq (lit version_marker) (seq (at_least 1 is_digit) (star is_space)).

(** [/\n{3,}/] *)
Definition re_blankRun : re nat := at_least 3 is_nl.

(** [/\[ANALYSIS\]|\[CODE\]/] *)
Definition re_sectionMarker : re nat :=
  alt (lit (u "[ANALYSIS]")) (lit (u "[CODE]")).

(* ================================================================== *)
(** ** postProcessCode *)

Definition digits_of (version : str) : str := replace_all re_nondigit [] version.

Definition extract_block (rawText : str) : str :=
  match match_codeBlock rawText with
  | Some m => trim (m_group1 m)
  | None => rawText
  end.

Definition strip_versionTags (s : str) : str := replace_all re_versionTag [] s.

Definition collapse_blankRuns (s : str) : str :=
  replace_all re_blankRun [nl; nl] s.

Definition postProcessCode (rawText version : str) : str :=
  (* 1. Extract from Markdown blocks if present *)
  let cleanCode := extract_block rawText in
  (* 2. Ensure Version Tag matches *)
  let versionNum := digits_of version in
  let versionTag := version_marker ++ versionNum in
  let cleanCode := strip_versionTags cleanCode in
  let cleanCode := versionTag ++ [nl] ++ cleanCode in
  (* 3. Trim extra newlines *)
  collapse_blankRuns cleanCode.

(* ================================================================== *)
(** ** Data model ([types.ts]) *)

Inductive ScriptType := indicator | strategy.

Definition scriptType_text (t : ScriptType) : str :=
  match t with
  | indicator => u "indicator"
  | strategy => u "strategy"
  end.

Record PineScriptParams := {
  prompt : str;
  scriptType : ScriptType;
  overlay : bool;
  version : str;
  model : str;
  customContext : option str
}.

Record GeneratedResult := { code : str; explanation : str }.

(** A boolean inside a template literal. *)
Definition bool_text (b : bool) : str := if b then u "true" else u "false".

(** [toUpperCase], used on the script type keyword only (ASCII letters). *)
Definition toUpperCase (s : str) : str := map canon s.

(** A string in a condition: the empty string is falsy. *)
Definition truthy (s : str) : bool :=
  match s with [] => false | _ :: _ => true end.

(** [a || b] on strings. *)
Definition or_else (a b : str) : str := if truthy a then a else b.

(* ================================================================== *)
(** ** Policy fragments and prompt templates

    Each template literal is the concatenation of its text and its
    interpolations, in the order of the source. *)

Definition INSTITUTIONAL_GUIDELINES : str :=
  concat
    [ u "
ROLE: You are an Elite Quantitative Developer & Institutional Trader (CTA).
YOUR GOAL: Create "; dq; u "Hedge Fund Grade"; dq; u " scripts. Never create "; dq; u "Retail"; dq; u " grade basic scripts unless explicitly asked to keep it simple.

### EXPERT TRADING PHILOSOPHY (AUTO-APPLY THESE):
1.  **Confluence is King**: Never trade on a single signal.
    -   *Implicit Requirement*: If the user asks for "; dq; u "RSI Strategy"; dq; u ", AUTOMATICALLY add a Trend Filter (e.g., EMA 200) and a Volatility Filter (e.g., ADX > 20 or ATR check) to filter out noise.
2.  **Risk Management**:
    -   Strategies MUST calculate position size dynamically or use ATR-based Stop Loss / Take Profit (Chandelier Exit logic) rather than fixed percentages.
3.  **Visual Intelligence**:
    -   Always draw a "; dq; u "Status Dashboard"; dq; u " (table) on the chart showing current trend, volatility state, and signal status.
    -   Use professional, soft color palettes (e.g., teal/red with transparency), avoid neon defaults.
4.  **Repainting Protection**:
    -   Strictly forbid 'request.security' lookahead unless using 'barmerge.lookahead_off'.
5.  **User Flexibility**:
    -   Every parameter (Lengths, Sources, Multipliers, Colors, Dashboard location) MUST be an 'input()'.
" ].

Definition QUALITY_CHECKS : str :=
  concat
    [ u "
QUALITY CONTROL PIPELINE (Must pass all):
1. [Syntax Check] Ensure all parentheses and brackets are balanced.
2. [Version Check] Ensure the correct //@version tag (e.g., //@version=6) is the very first line.
3. [Declaration Check] CRITICAL: Scripts must contain EXACTLY ONE declaration statement: "; dq; u "indicator()"; dq; u " OR "; dq; u "strategy()"; dq; u ". NEVER use both.
4. [Short Title Check] CRITICAL: The 'shorttitle' argument in the declaration MUST be 10 characters or less (e.g., shorttitle="; dq; u "Pro_RSI"; dq; u ").
5. [Repainting Check] If using request.security, ensure lookahead=barmerge.lookahead_on (or handle correctly) to avoid repainting.
6. [Input Check] All adjustable parameters must use input().
7. [Visualization Check] Strategy must have visual debug plots (plotshape for entries/exits).
" ].

Definition SYNTAX_SAFETY_GUARD : str :=
  concat
    [ u "
### SYNTAX SAFETY GUARD (CRITICAL PREVENTIONS):
1. **The '=>' Operator**:
   - **CORRECT USE**: ONLY in function definitions (e.g., `f() =>`) and `switch` structures.
   - **INCORRECT USE**: NEVER use `=>` for variable assignment. Use `=` instead.
   - **INCORRECT USE**: Do not use `=>` in 'if' statements or loops.
2. **Function Definitions**:
   - Ensure functions defined with `=>` have an indented body (4 spaces).
   - Do NOT use the word `return`. The last expression in the block is the return value.
3. **Indentation**: Pine Script is strictly whitespace-sensitive. Use 4 spaces for indentation.
4. **Compatibility**: If generating for v6 and you are unsure of a new feature, use standard v5 syntax as it is forward-compatible.
" ].

Definition gen_contextBlock (customContext : str) : str :=
  concat
    [ u "
    ### USER KNOWLEDGE BASE (PDF/CUSTOM CONTEXT)
    The user has provided specific rules, logic, or text from a PDF. YOU MUST PRIORITIZE THIS INFORMATION.
    If the PDF context conflicts with "; dq; u "Expert Trading Philosophy"; dq; u ", follow the PDF context.
    
    [START OF PDF CONTEXT]
    "; customContext; u "
    [END OF PDF CONTEXT]
    " ].

Definition gen_architectureRules (p : PineScriptParams) : str :=
  concat
    [ u "### ARCHITECTURE RULES
    1. **Metadata**: Start with a detailed comment block (Strategy Name, Author, Logic).
    2. **Inputs**: Use grouped inputs (group="; dq; u "Strategy Settings"; dq; u ", group="; dq; u "Risk Management"; dq; u ", group="; dq; u "UI Settings"; dq; u ").
    3. **Date Filter**: For strategies, ALWAYS add a "; dq; u "Backtest Time Period"; dq; u " input group to filter by date.
    4. **Risk Management**:
       - If Strategy: Implement 'strategy.exit' with ATR-based SL/TP inputs.
       - If Indicator: Plot SL/TP levels based on the signal.
    5. **Alerts**: Implement 'alertcondition' for every signal type.
    6. **Style**: Use 'color.new()' for transparency. Use distinct colors for Buy (Green) and Sell (Red).
    7. **Declaration**: Use ONLY '"; scriptType_text (scriptType p); u "' declaration. Ensure 'shorttitle' is <= 10 chars." ].

Definition gen_systemPrompt (p : PineScriptParams) (isExpertMode : bool) (versionNum customContextPrompt : str) : str :=
  concat
    [ u "
    You are "; dq; u "PineArchitect-v5"; dq; u ", an Elite Quantitative Developer for TradingView.
    
    Current Task: Generate Production-Ready Pine Script "; version p; u ".

    "; (if isExpertMode then INSTITUTIONAL_GUIDELINES else []); u "

    "; QUALITY_CHECKS; u "
    
    "; SYNTAX_SAFETY_GUARD; u "

    "; gen_architectureRules p; u "

    "; customContextPrompt; u "

    ### OUTPUT FORMAT
    Return a structured response:
    [ANALYSIS]
    Technical summary of the strategy logic. If Knowledge Base was provided, explicitly state how it was used (e.g., "; dq; u "Implemented custom MACD formula from user PDF"; dq; u ").
    
    [CODE]
    ```pinescript
    //@version="; versionNum; u "
    "; scriptType_text (scriptType p); u "("; dq; u "Title"; dq; u ", shorttitle="; dq; u "Title<10"; dq; u ", overlay="; bool_text (overlay p); u ")
    ...
    ```
  " ].

Definition gen_step2_expert : str :=
  concat
    [ u "2. "; dq; u "Pro-Upgrade"; dq; u ": Even if the user asked for something simple, wrap it in a professional framework (Dashboard, Trend Filter, ATR Stops) unless they explicitly said "; dq; u "simple"; dq; u " OR unless the PDF Context forbids it." ].

Definition gen_step2_standard : str :=
  concat
    [ u "2. Implement the logic as requested." ].

Definition gen_userPrompt (p : PineScriptParams) (isExpertMode : bool) : str :=
  concat
    [ u "
    SCRIPT CONFIGURATION:
    - Type: "; toUpperCase (scriptType_text (scriptType p)); u "
    - Overlay: "; bool_text (overlay p); u "
    - Mode: "; (if isExpertMode then u "INSTITUTIONAL / EXPERT" else u "STANDARD"); u "

    USER REQUEST:
    "; dq; prompt p; dq; u "

    EXECUTION INSTRUCTIONS:
    1. Analyze the user request.
    "; (if isExpertMode then gen_step2_expert else gen_step2_standard); u "
    3. Generate the code following Strict Coding Rules.
    4. Validate against Quality Control Pipeline (Check ShortTitle length & Single Declaration).
  " ].

Definition refine_contextBlock (customContext : str) : str :=
  concat
    [ u "
  ### ORIGINAL KNOWLEDGE BASE (CONTEXT)
  The original script was built using these rules. MAINTAIN COMPLIANCE with them unless instructed otherwise:
  "; customContext; u "
  " ].

Definition refine_rules : str :=
  concat
    [ u "### RULES FOR REFINEMENT (CRITICAL):
    1. **FULL CODE REQUIRED**: You MUST output the ENTIRE script code, from '//@version=' to the last line. 
       - DO NOT output "; dq; u "snippets"; dq; u " or "; dq; u "changed parts only"; dq; u ".
       - DO NOT use placeholders like "; dq; u "// ... rest of code ..."; dq; u ".
       - The user needs to copy-paste the WHOLE file.
    2. **Maintain Logic**: Keep existing logic unless explicitly asked to change it.
    3. **Compilability**: Ensure the resulting code is valid and compilable.
    4. **Short Titles**: Ensure 'shorttitle' remains <= 10 characters.
    5. **Dashboard**: If the script has a Dashboard/Table, ensure it remains in the code." ].

Definition refine_systemPrompt (isExpertMode : bool) (versionNum customContextPrompt : str) : str :=
  concat
    [ u "
    You are a Pine Script Refinement Specialist (Expert Level).
    Your task is to EDIT the provided Pine Script based on the user's instruction.

    "; QUALITY_CHECKS; u "
    "; (if isExpertMode then INSTITUTIONAL_GUIDELINES else []); u "
    "; SYNTAX_SAFETY_GUARD; u "
    "; customContextPrompt; u "

    "; refine_rules; u "

    ### OUTPUT FORMAT
    [ANALYSIS]
    Brief summary of changes.
    
    [CODE]
    ```pinescript
    //@version="; versionNum; u "
    ... (FULL UPDATED CODE HERE) ...
    ```
  " ].

Definition refine_userPrompt (currentCode instruction : str) : str :=
  concat
    [ u "
    CURRENT CODE:
    ```pinescript
    "; currentCode; u "
    ```

    USER INSTRUCTION:
    "; dq; instruction; dq; u "

    Output the [ANALYSIS] and the [CODE] blocks.
  " ].

Definition enhance_systemPrompt : str :=
  concat
    [ u "
      You are a Senior Pine Script Architect assisting a trader.
      Your goal is to refine the user's raw input into a **Structured Requirement Specification** for coding.
      
      CRITICAL RULES:
      1. **Preserve Intent**: Do not change the user's core strategy idea. Only clarify it.
      2. **Structure**: Format the output clearly with headers like "; dq; u "LOGIC:"; dq; u ", "; dq; u "CONDITIONS:"; dq; u ", "; dq; u "FILTERS:"; dq; u ", "; dq; u "VISUALS:"; dq; u ".
      3. **Technical Precision**: Replace vague terms with technical Pine Script concepts (e.g., "; dq; u "stop loss"; dq; u " -> "; dq; u "ATR-based Stop Loss or % Trailing Stop"; dq; u ").
      4. **Language**: STRICTLY output in the SAME LANGUAGE as the input (Turkish -> Turkish, English -> English).
      5. **No Filler**: Return ONLY the new prompt text. No "; dq; u "Here is the improved version"; dq; u " prefix.
      6. **Don't Over-Engineer**: If the user asks for a simple RSI, keep it simple but precise. Don't add unrelated indicators randomly.
    " ].

Definition enhance_userPrompt (inputText : str) : str :=
  concat
    [ u "
      RAW INPUT: "; dq; inputText; dq; u "
      
      REFINED SPECIFICATION:
    " ].

Definition pdf_systemPrompt : str :=
  concat
    [ u "
    You are a Financial Document Analyst and Pine Script Architect.
    Your task is to READ the attached PDF document, UNDERSTAND the trading logic, and PREPARE a detailed prompt for a coder.

    TASKS:
    1. **Classify**: Is this described system a 'strategy' (has clear buy/sell execution rules with backtesting intent) or an 'indicator' (visualization only)?
    2. **Overlay**: Should this script be overlaid on the price chart (true) or appear in a separate pane (false)? 
       - Strategies are usually overlay=true.
       - Oscillators (RSI, MACD) are overlay=false.
       - Moving Averages/Bollinger Bands are overlay=true.
    3. **Draft Prompt**: Write a highly detailed, professional prompt that describes exactly how to code this script. 
       - Include all formulas, conditions, inputs, and colors mentioned in the PDF.
       - Do NOT use markdown in the prompt text itself (it will be placed in a text box).

    OUTPUT FORMAT (JSON ONLY):
    {
      "; dq; u "scriptType"; dq; u ": "; dq; u "strategy"; dq; u " OR "; dq; u "indicator"; dq; u ",
      "; dq; u "overlay"; dq; u ": true OR false,
      "; dq; u "generatedPrompt"; dq; u ": "; dq; u "Full detailed instruction text here..."; dq; u "
    }
  " ].

(* ================================================================== *)
(** ** The completion service and the effects of a run

    A run can notify the progress callback, call the completion service,
    throw and catch.  It is a value of [M]: the trace of what the run did to
    its collaborators, and either the value it returns or what it throws. *)

Inductive exn := Thrown (message : str).

Inductive part :=
| text_part (t : str)
| inlineData (mimeType data : str).

Record content := { role : str; parts : list part }.

Record config := {
  temperature : Q;
  maxOutputTokens : N;
  thinkingBudget : option N;        (* [thinkingConfig], when defined *)
  responseMimeType : option str
}.

Record request := {
  req_model : str;
  req_contents : list content;
  req_config : config
}.

(** [response.text] can be undefined. *)
Record response := { text : option str }.

Inductive event :=
| StatusUpdate (status : str)
| GenerateContent (req : request).

Definition M (A : Type) : Type := list event * (exn + A).

Definition ret {A} (a : A) : M A := ([], inr a).
Definition throw {A} (e : exn) : M A := ([], inl e).

Definition bind {A B} (m : M A) (f : A -> M B) : M B :=
  match m with
  | (l, inl e) => (l, inl e)
  | (l, inr a) => let (l', r) := f a in (l ++ l', r)
  end.

Definition try_catch {A} (m : M A) (handler : exn -> M A) : M A :=
  match m with
  | (l, inl e) => let (l', r) := handler e in (l ++ l', r)
  | (l, inr a) => (l, inr a)
  end.

Notation "x <- m ;; k" := (bind m (fun x => k))
  (at level 61, m at next level, right associativity).
Notation "m ;; k" := (bind m (fun _ => k))
  (at level 61, right associativity).

(** The injected collaborators: what a call returns or throws. *)
Definition callback := str -> exn + unit.
Definition service := request -> exn + response.

(** [if (onStatusUpdate) onStatusUpdate(status)] *)
Definition notify (onStatusUpdate : option callback) (status : str) : M unit :=
  match onStatusUpdate with
  | Some f => ([StatusUpdate status], f status)
  | None => ret tt
  end.

(** [await ai.models.generateContent(req)] *)
Definition generateContent (ai : service) (req : request) : M response :=
  ([GenerateContent req], ai req).

Definition user_message (t : str) : list content :=
  [ {| role := u "user"; parts := [text_part t] |} ].

(** [response.text || EMPTY] *)
Definition text_or (r : response) (dflt : str) : str :=
  match text r with
  | Some t => or_else t dflt
  | None => dflt
  end.

(** [params.customContext ? block : EMPTY] *)
Definition context_or_empty (block : str -> str) (c : option str) : str :=
  match c with
  | Some t => if truthy t then block t else []
  | None => []
  end.

Definition default_model : str := u "gemini-3-pro-preview".

(* ================================================================== *)
(** ** generatePineScript *)

Definition parse_failure_sentinel : str :=
  u "// Error: Could not parse code block.".

Definition strip_sectionMarkers (s : str) : str :=
  replace_all re_sectionMarker [] s.

(** The fenced branch of the parse step, the same in both entry points. *)
Definition fenced_result (t : str) (m : rmatch) : str * str :=
  let code := m_group1 m in
  let explanation := trim (replace_first (m_whole m) [] t) in
  let explanation := trim (strip_sectionMarkers explanation) in
  (code, explanation).

(** The parse step of [generatePineScript]: the pair [(code, explanation)]
    handed to the post-processing. *)
Definition extract_generated (t : str) : str * str :=
  match match_codeBlock t with
  | Some m => fenced_result t m
  | None =>
      (* Fallback: Try to find the version tag start *)
      match indexOf version_marker t with
      | Some versionIdx => (substring_from versionIdx t, substring_to versionIdx t)
      | None => (parse_failure_sentinel, t)
      end
  end.

Definition pipeline_error : exn :=
  Thrown (u "Pipeline Error: Failed to generate valid script.").

(** [isExpertMode]: the model selector, or the default one when it is
    empty, contains [pro]. *)
Definition expert_mode (p : PineScriptParams) : bool :=
  let model := or_else (model p) default_model in
  includes (u "pro") model.

(** [systemPrompt] of [generatePineScript]. *)
Definition generate_systemPrompt (p : PineScriptParams) : str :=
  let versionNum := digits_of (version p) in
  let isExpertMode := expert_mode p in
  let customContextPrompt := context_or_empty gen_contextBlock (customContext p) in
  gen_systemPrompt p isExpertMode versionNum customContextPrompt.

Definition generate_request (p : PineScriptParams) : request :=
  let model := or_else (model p) default_model in
  let isExpertMode := expert_mode p in
  let systemPrompt := generate_systemPrompt p in
  let userPrompt := gen_userPrompt p isExpertMode in
  {| req_model := model;
     req_contents := user_message (systemPrompt ++ [nl; nl] ++ userPrompt);
     req_config := {| temperature := 1 # 10;
                      maxOutputTokens := 65536;
                      thinkingBudget := if isExpertMode then Some 2048 else None;
                      responseMimeType := None |} |}.

Definition generatePineScript (p : PineScriptParams)
  (onStatusUpdate : option callback) (ai : service) : M GeneratedResult :=
  notify onStatusUpdate (u "NORMALIZING_REQUEST") ;;
  try_catch
    (notify onStatusUpdate (u "OPTIMIZING_LOGIC") ;;
     notify onStatusUpdate (u "GENERATING_CODE") ;;
     resp <- generateContent ai (generate_request p) ;;
     notify onStatusUpdate (u "VALIDATING_OUTPUT") ;;
     let t := text_or resp [] in
     let (code, explanation) := extract_generated t in
     let processedCode := postProcessCode code (version p) in
     ret {| code := processedCode; explanation := explanation |})
    (fun _ => throw pipeline_error).

(* ================================================================== *)
(** ** refinePineScript *)

(** The marker appended to the prior code: two newlines and a comment. *)
Definition refine_failure_comment : str :=
  u "// ERROR: AI failed to generate the updated code block. Please try refining again.".

Definition refine_failure_marker : str := [nl; nl] ++ refine_failure_comment.

Definition refine_failure_explanation : str :=
  u "I understood your request but failed to generate the full code structure. Please try again.".

(** The parse step of [refinePineScript]. *)
Definition extract_refined (currentCode t : str) : str * str :=
  match match_codeBlock t with
  | Some m => fenced_result t m
  | None =>
      match indexOf version_marker t with
      | Some versionIdx => (substring_from versionIdx t, substring_to versionIdx t)
      | None => (currentCode ++ refine_failure_marker, refine_failure_explanation)
      end
  end.

(** [systemPrompt] of [refinePineScript]. *)
Definition refine_systemPrompt_for (p : PineScriptParams) : str :=
  let versionNum := digits_of (version p) in
  let isExpertMode := expert_mode p in
  let customContextPrompt := context_or_empty refine_contextBlock (customContext p) in
  refine_systemPrompt isExpertMode versionNum customContextPrompt.

Definition refine_request (currentCode instruction : str)
  (p : PineScriptParams) : request :=
  let model := or_else (model p) default_model in
  let isExpertMode := expert_mode p in
  let systemPrompt := refine_systemPrompt_for p in
  let userPrompt := refine_userPrompt currentCode instruction in
  {| req_model := model;
     req_contents := user_message (systemPrompt ++ [nl; nl] ++ userPrompt);
     req_config := {| temperature := 1 # 10;
                      maxOutputTokens := 65536;
                      thinkingBudget := if isExpertMode then Some 1024 else None;
                      responseMimeType := None |} |}.

Definition refinePineScript (currentCode instruction : str)
  (p : PineScriptParams) (ai : service) : M GeneratedResult :=
  try_catch
    (resp <- generateContent ai (refine_request currentCode instruction p) ;;
     let t := text_or resp [] in
     let (code, explanation) := extract_refined currentCode t in
     let processedCode := postProcessCode code (version p) in
     ret {| code := processedCode; explanation := explanation |})
    (fun _ => throw (Thrown (u "Failed to refine script."))).

(* ================================================================== *)
(** ** enhancePrompt *)

Definition enhance_request (inputText : str) : request :=
  let effectiveModel := u "gemini-3-pro-preview" in
  {| req_model := effectiveModel;
     req_contents :=
       user_message (enhance_systemPrompt ++ [nl; nl] ++ enhance_userPrompt inputText);
     req_config := {| temperature := 3 # 10;
                      maxOutputTokens := 2048;
                      thinkingBudget := None;
                      responseMimeType := None |} |}.

(** [_model] is a parameter of the source function; its body never reads it. *)
Definition enhancePrompt (inputText _model : str) (ai : service) : M str :=
  try_catch
    (resp <- generateContent ai (enhance_request inputText) ;;
     (* [response.text?.trim() || inputText] *)
     ret (match text resp with
          | Some t => or_else (trim t) inputText
          | None => inputText
          end))
    (fun _ => ret inputText).

(* ================================================================== *)
(** ** extractStrategyFromPdf

    [JSON.parse] yields a JavaScript value.  A number is given by its exact
    value; the code below only asks whether it is zero.  An array carries
    the named properties assigned to it next to its elements.  The keys the
    code reads and writes are never array indices or built-in properties. *)

Local Set Warnings "-register-all".

Inductive value :=
| VUndefined
| VNull
| VBool (b : bool)
| VNumber (q : Q)
| VString (s : str)
| VArray (elems : list value) (named : list (str * value))
| VObject (props : list (str * value)).

Fixpoint str_eqb (a b : str) : bool :=
  match a, b with
  | [], [] => true
  | c :: a', d :: b' => (c =? d) && str_eqb a' b'
  | _, _ => false
  end.

Fixpoint lookup (k : str) (ps : list (str * value)) : value :=
  match ps with
  | [] => VUndefined
  | (k', v) :: r => if str_eqb k k' then v else lookup k r
  end.

(** Assignment keeps the position of an existing key and appends a new one. *)
Fixpoint update (k : str) (v : value) (ps : list (str * value))
  : list (str * value) :=
  match ps with
  | [] => [(k, v)]
  | (k', v') :: r =>
      if str_eqb k k' then (k, v) :: r else (k', v') :: update k v r
  end.

Definition TypeError : exn := Thrown (u "TypeError").
Definition SyntaxError : exn := Thrown (u "SyntaxError").

(** [o.k] *)
Definition get_prop (o : value) (k : str) : exn + value :=
  match o with
  | VUndefined | VNull => inl TypeError
  | VBool _ | VNumber _ | VString _ => inr VUndefined
  | VArray _ named => inr (lookup k named)
  | VObject props => inr (lookup k props)
  end.

(** [o.k = v] in strict mode (the file is an ES module): assigning to a
    property of a primitive throws. *)
Definition set_prop (o : value) (k : str) (v : value) : exn + value :=
  match o with
  | VUndefined | VNull | VBool _ | VNumber _ | VString _ => inl TypeError
  | VArray elems named => inr (VArray elems (update k v named))
  | VObject props => inr (VObject (update k v props))
  end.

(** [!v] *)
Definition falsy (v : value) : bool :=
  match v with
  | VUndefined | VNull => true
  | VBool b => negb b
  | VNumber q => Qeq_bool q 0
  | VString s => negb (truthy s)
  | VArray _ _ | VObject _ => false
  end.

(** [typeof v !== 'boolean'] *)
Definition not_boolean (v : value) : bool :=
  match v with VBool _ => false | _ => true end.

Definition lift {A} (r : exn + A) : M A := ([], r).

Definition k_scriptType : str := u "scriptType".
Definition k_overlay : str := u "overlay".
Definition k_generatedPrompt : str := u "generatedPrompt".

Definition missing_prompt_notice : str :=
  u "Failed to extract prompt from PDF.".

Definition invalid_json_notice : str :=
  u "Error parsing PDF analysis. The AI processed the file but returned invalid JSON.".

Definition invalid_json_result : value :=
  VObject [ (k_scriptType, VString (u "indicator"));
            (k_overlay, VBool true);
            (k_generatedPrompt, VString invalid_json_notice) ].

Definition pdf_request (pdfBase64 : str) : request :=
  {| req_model := u "gemini-3-flash-preview";
     req_contents :=
       [ {| role := u "user";
            parts := [ text_part pdf_systemPrompt;
                       inlineData (u "application/pdf") pdfBase64 ] |} ];
     req_config := {| temperature := 1 # 10;
                      maxOutputTokens := 8192;
                      thinkingBudget := None;
                      responseMimeType := Some (u "application/json") |} |}.

(** The fallback validation after [JSON.parse]. *)
Definition validate_analysis (result : value) : M value :=
  st <- lift (get_prop result k_scriptType) ;;
  result <- (if falsy st
             then lift (set_prop result k_scriptType (VString (u "indicator")))
             else ret result) ;;
  ov <- lift (get_prop result k_overlay) ;;
  result <- (if not_boolean ov
             then lift (set_prop result k_overlay (VBool true))
             else ret result) ;;
  gp <- lift (get_prop result k_generatedPrompt) ;;
  result <- (if falsy gp
             then lift (set_prop result k_generatedPrompt (VString missing_prompt_notice))
             else ret result) ;;
  ret result.

Section Pdf.
(** [JSON.parse] of the host; [None] when it throws a [SyntaxError]. *)
Variable JSON_parse : str -> option value.

Definition parse_json (t : str) : M value :=
  match JSON_parse t with
  | Some v => ret v
  | None => throw SyntaxError
  end.

Definition extractStrategyFromPdf (pdfBase64 fileName : str) (ai : service)
  : M value :=
  try_catch
    (resp <- generateContent ai (pdf_request pdfBase64) ;;
     let t := text_or resp (u "{}") in
     try_catch
       (result <- parse_json t ;;
        validate_analysis result)
       (fun _ => ret invalid_json_result))
    (fun _ =>
       throw (Thrown (u "Failed to analyze PDF. Please ensure the file is valid."))).
End Pdf.

(* ================================================================== *)
(** ** The application ([App.tsx])

    The state of the component is the record of its [useState] cells (the
    clipboard flag and the knowledge-base toggle, which no handler below
    reads or writes, are left out).  A handler is run to its end, with no
    other handler in between; it yields the state after its last setter and
    the values it gave to [setLoadingState], in order. *)

Inductive LoadingState :=
| IDLE | NORMALIZING | OPTIMIZING | GENERATING | VALIDATING | REFINING
| SUCCESS | ERROR.

Inductive Role := role_user | role_model.

Record ChatMessage := { msg_role : Role; msg_content : str }.

Record File := { file_name : str; file_type : str }.

Record AppState := {
  params : PineScriptParams;
  loadingState : LoadingState;
  result : option GeneratedResult;
  errorMsg : option str;
  isEnhancing : bool;
  selectedFile : option File;
  isAnalyzingPdf : bool;
  chatMessages : list ChatMessage;
  chatInput : str
}.

(** The state of the first render. *)
Definition initialState : AppState :=
  {| params := {| prompt := [];
                  scriptType := indicator;
                  overlay := true;
                  version := u "v6";
                  model := u "gemini-3-pro-preview";
                  customContext := Some [] |};
     loadingState := IDLE;
     result := None;
     errorMsg := None;
     isEnhancing := false;
     selectedFile := None;
     isAnalyzingPdf := false;
     chatMessages := [];
     chatInput := [] |}.

Definition setParams (f : PineScriptParams -> PineScriptParams) (st : AppState)
  : AppState :=
  {| params := f (params st); loadingState := loadingState st;
     result := result st; errorMsg := errorMsg st;
     isEnhancing := isEnhancing st; selectedFile := selectedFile st;
     isAnalyzingPdf := isAnalyzingPdf st; chatMessages := chatMessages st;
     chatInput := chatInput st |}.

Definition setLoadingState (l : LoadingState) (st : AppState) : AppState :=
  {| params := params st; loadingState := l;
     result := result st; errorMsg := errorMsg st;
     isEnhancing := isEnhancing st; selectedFile := selectedFile st;
     isAnalyzingPdf := isAnalyzingPdf st; chatMessages := chatMessages st;
     chatInput := chatInput st |}.

Definition setResult (r : option GeneratedResult) (st : AppState) : AppState :=
  {| params := params st; loadingState := loadingState st;
     result := r; errorMsg := errorMsg st;
     isEnhancing := isEnhancing st; selectedFile := selectedFile st;
     isAnalyzingPdf := isAnalyzingPdf st; chatMessages := chatMessages st;
     chatInput := chatInput st |}.

Definition setErrorMsg (e : option str) (st : AppState) : AppState :=
  {| params := params st; loadingState := loadingState st;
     result := result st; errorMsg := e;
     isEnhancing := isEnhancing st; selectedFile := selectedFile st;
     isAnalyzingPdf := isAnalyzingPdf st; chatMessages := chatMessages st;
     chatInput := chatInput st |}.

Definition setIsEnhancing (b : bool) (st : AppState) : AppState :=
  {| params := params st; loadingState := loadingState st;
     result := result st; errorMsg := errorMsg st;
     isEnhancing := b; selectedFile := selectedFile st;
     isAnalyzingPdf := isAnalyzingPdf st; chatMessages := chatMessages st;
     chatInput := chatInput st |}.

Definition setSelectedFile (f : option File) (st : AppState) : AppState :=
  {| params := params st; loadingState := loadingState st;
     result := result st; errorMsg := errorMsg st;
     isEnhancing := isEnhancing st; selectedFile := f;
     isAnalyzingPdf := isAnalyzingPdf st; chatMessages := chatMessages st;
     chatInput := chatInput st |}.

Definition setChatMessages (f : list ChatMessage -> list ChatMessage)
  (st : AppState) : AppState :=
  {| params := params st; loadingState := loadingState st;
     result := result st; errorMsg := errorMsg st;
     isEnhancing := isEnhancing st; selectedFile := selectedFile st;
     isAnalyzingPdf := isAnalyzingPdf st; chatMessages := f (chatMessages st);
     chatInput := chatInput st |}.

Definition setChatInput (t : str) (st : AppState) : AppState :=
  {| params := params st; loadingState := loadingState st;
     result := result st; errorMsg := errorMsg st;
     isEnhancing := isEnhancing st; selectedFile := selectedFile st;
     isAnalyzingPdf := isAnalyzingPdf st; chatMessages := chatMessages st;
     chatInput := t |}.

(** [{ ...prev, prompt: t }] *)
Definition with_prompt (t : str) (p : PineScriptParams) : PineScriptParams :=
  {| prompt := t; scriptType := scriptType p; overlay := overlay p;
     version := version p; model := model p; customContext := customContext p |}.

(** [{ ...prev, prompt: EMPTY, customContext: EMPTY }] *)
Definition with_cleared_texts (p : PineScriptParams) : PineScriptParams :=
  {| prompt := []; scriptType := scriptType p; overlay := overlay p;
     version := version p; model := model p; customContext := Some [] |}.

Definition message (e : exn) : str := match e with Thrown m => m end.

(** What a handler leaves behind. *)
Record outcome := {
  final : AppState;
  loading_trace : list LoadingState;
  service_log : list event
}.

Definition unchanged (st : AppState) : outcome :=
  {| final := st; loading_trace := []; service_log := [] |}.

(** The [switch] of [updateStatus]: the loading state a status string sets,
    if any. *)
Definition status_loading (status : str) : option LoadingState :=
  if str_eqb status (u "NORMALIZING_REQUEST") then Some NORMALIZING
  else if str_eqb status (u "OPTIMIZING_LOGIC") then Some OPTIMIZING
  else if str_eqb status (u "GENERATING_CODE") then Some GENERATING
  else if str_eqb status (u "VALIDATING_OUTPUT") then Some VALIDATING
  else None.

(** [updateStatus] only calls a setter: it returns normally. *)
Definition updateStatus : callback := fun _ => inr tt.

(** The loading states [updateStatus] sets during a run, read off the
    notifications of the run. *)
Fixpoint loading_updates (log : list event) : list LoadingState :=
  match log with
  | [] => []
  | StatusUpdate s :: rest =>
      match status_loading s with
      | Some l => l :: loading_updates rest
      | None => loading_updates rest
      end
  | GenerateContent _ :: rest => loading_updates rest
  end.

Definition model_message (t : str) : ChatMessage :=
  {| msg_role := role_model; msg_content := t |}.

Definition user_message_of (t : str) : ChatMessage :=
  {| msg_role := role_user; msg_content := t |}.

Definition handleGenerate (ai : service) (st : AppState) : outcome :=
  if negb (truthy (trim (prompt (params st)))) then unchanged st
  else
    let st1 :=
      setChatMessages (fun _ => [])
        (setResult None (setErrorMsg None (setLoadingState NORMALIZING st))) in
    match generatePineScript (params st) (Some updateStatus) ai with
    | (log, inr data) =>
        {| final :=
             setLoadingState SUCCESS
               (setChatMessages (fun _ => [model_message (explanation data)])
                  (setResult (Some data) st1));
           loading_trace := NORMALIZING :: loading_updates log ++ [SUCCESS];
           service_log := log |}
    | (log, inl err) =>
        {| final :=
             setLoadingState ERROR
               (setErrorMsg
                  (Some (or_else (message err)
                           (u "An error occurred during generation.")))
                  st1);
           loading_trace := NORMALIZING :: loading_updates log ++ [ERROR];
           service_log := log |}
    end.

Definition refine_error_message : str :=
  u "Error: Failed to refine code. Please try again.".

Definition handleRefine (ai : service) (st : AppState) : outcome :=
  match result st with
  | None => unchanged st
  | Some res =>
      if negb (truthy (trim (chatInput st))) then unchanged st
      else
        let userMsg := chatInput st in
        let st1 :=
          setLoadingState REFINING
            (setChatMessages (fun prev => prev ++ [user_message_of userMsg])
               (setChatInput [] st)) in
        match refinePineScript (code res) userMsg (params st) ai with
        | (log, inr data) =>
            {| final :=
                 setLoadingState SUCCESS
                   (setChatMessages
                      (fun prev => prev ++ [model_message (explanation data)])
                      (setResult (Some data) st1));
               loading_trace := [REFINING; SUCCESS];
               service_log := log |}
        | (log, inl _) =>
            {| final :=
                 setLoadingState SUCCESS
                   (setChatMessages
                      (fun prev => prev ++ [model_message refine_error_message])
                      st1);
               loading_trace := [REFINING; SUCCESS];
               service_log := log |}
        end
  end.

Definition handleEnhanceMain (ai : service) (st : AppState) : outcome :=
  if negb (truthy (trim (prompt (params st)))) || isEnhancing st
  then unchanged st
  else
    let st1 := setErrorMsg None (setIsEnhancing true st) in
    match enhancePrompt (prompt (params st)) (model (params st)) ai with
    | (log, inr enhanced) =>
        {| final := setIsEnhancing false (setParams (with_prompt enhanced) st1);
           loading_trace := [];
           service_log := log |}
    | (log, inl _) =>
        {| final :=
             setIsEnhancing false
               (setErrorMsg (Some (u "Enhancement failed. Please try again.")) st1);
           loading_trace := [];
           service_log := log |}
    end.

Definition handleEnhanceChat (ai : service) (st : AppState) : outcome :=
  if negb (truthy (trim (chatInput st))) || isEnhancing st
  then unchanged st
  else
    let st1 := setIsEnhancing true st in
    match enhancePrompt (chatInput st) (model (params st)) ai with
    | (log, inr enhanced) =>
        {| final := setIsEnhancing false (setChatInput enhanced st1);
           loading_trace := [];
           service_log := log |}
    | (log, inl _) =>
        {| final := setIsEnhancing false st1;
           loading_trace := [];
           service_log := log |}
    end.

Definition handleFileSelect (files : list File) (st : AppState) : AppState :=
  match files with
  | file :: _ =>
      if negb (str_eqb (file_type file) (u "application/pdf"))
      then setErrorMsg (Some (u "Please select a valid PDF file.")) st
      else setErrorMsg None (setSelectedFile (Some file) st)
  | [] => st
  end.

Definition handleClearFile (st : AppState) : AppState :=
  setSelectedFile None st.

Definition handleClear (st : AppState) : AppState :=
  handleClearFile
    (setLoadingState IDLE
       (setChatMessages (fun _ => [])
          (setResult None (setParams with_cleared_texts st)))).

(** An entry of [EXAMPLE_PROMPTS], with the fields the handler reads. *)
Record Template := { tpl_type : ScriptType; tpl_text : str }.

Definition handleLoadTemplate (template : Template) (st : AppState) : AppState :=
  setParams
    (fun prev =>
       {| prompt := tpl_text template;
          scriptType := tpl_type template;
          overlay := includes (u "Overlay") (tpl_text template)
                     || (match tpl_type template with
                         | strategy => true
                         | indicator => false
                         end);
          version := version prev; model := model prev;
          customContext := customContext prev |})
    st.

(** [isGenerating]: the condition that disables the Generate button. *)
Definition isGenerating (st : AppState) : bool :=
  match loadingState st with
  | IDLE | SUCCESS | ERROR | REFINING => false
  | _ => true
  end.

(** What the user can do between two renders at rest: run a handler to its
    end, or edit a field.  The analysis of a selected document, which reads
    the file through the browser, is not among the actions. *)
Inductive action :=
| Generate (ai : service)
| Refine (ai : service)
| EnhanceMain (ai : service)
| EnhanceChat (ai : service)
| Clear
| SelectFile (files : list File)
| ClearFile
| LoadTemplate (template : Template)
| EditParams (p : PineScriptParams)
| EditChatInput (t : str).

Definition step (a : action) (st : AppState) : AppState :=
  match a with
  | Generate ai => final (handleGenerate ai st)
  | Refine ai => final (handleRefine ai st)
  | EnhanceMain ai => final (handleEnhanceMain ai st)
  | EnhanceChat ai => final (handleEnhanceChat ai st)
  | Clear => handleClear st
  | SelectFile files => handleFileSelect files st
  | ClearFile => handleClearFile st
  | LoadTemplate template => handleLoadTemplate template st
  | EditParams p => setParams (fun _ => p) st
  | EditChatInput t => setChatInput t st
  end.

Definition run (actions : list action) (st : AppState) : AppState :=
  fold_left (fun s a => step a s) actions st.

(* ================================================================== *)
(** ** Vocabulary of the properties

    Closed forms of the scans, predicates on texts, and the inputs of the
    examples. *)

(** The status strings of the four notifications, in the order of the
    source. *)
Definition stages : list str :=
  [ u "NORMALIZING_REQUEST"; u "OPTIMIZING_LOGIC";
    u "GENERATING_CODE"; u "VALIDATING_OUTPUT" ].

(** The parameters the application starts with, with a prompt. *)
Definition example_params : PineScriptParams :=
  {| prompt := u "Plot the close";
     scriptType := indicator;
     overlay := true;
     version := u "v6";
     model := u "gemini-3-pro-preview";
     customContext := None |}.

(** A service that answers every request with a fenced script. *)
Definition ai_fenced : service := fun _ =>
  inr {| text := Some (u "[CODE]
```pinescript
plot(close)
```") |}.

(** A session with a result, one message of the model and a chat input. *)
Definition refining_state : AppState :=
  setChatInput (u "make it red")
    (setChatMessages (fun _ => [ {| msg_role := role_model;
                                    msg_content := u "Plots the close." |} ])
       (setResult (Some {| code := u "//@version=6
plot(close)"; explanation := u "Plots the close." |}) initialState)).

(** A callback that always returns. *)
Definition quiet_callback : callback := fun _ => inr tt.

(** A callback that throws when told of the validation stage. *)
Definition late_throw : callback := fun s =>
  if str_eqb s (u "VALIDATING_OUTPUT")
  then inl (Thrown (u "callback failed"))
  else inr tt.

(** A callback that throws at once. *)
Definition early_throw : callback := fun _ => inl (Thrown (u "callback failed")).

(** A well-formed JSON response whose [scriptType] is a number. *)
Definition mistyped_response : str :=
  concat [ u "{"; dq; u "scriptType"; dq; u ": 42, ";
           dq; u "overlay"; dq; u ": true, ";
           dq; u "generatedPrompt"; dq; u ": "; dq; u "Plot RSI"; dq; u "}" ].

(** The object it denotes. *)
Definition mistyped_object : value :=
  VObject [ (k_scriptType, VNumber (42 # 1));
            (k_overlay, VBool true);
            (k_generatedPrompt, VString (u "Plot RSI")) ].

(** What [JSON.parse] returns on the text above; any other text is taken
    as malformed here. *)
Definition parse_mistyped : str -> option value := fun t =>
  if str_eqb t mistyped_response then Some mistyped_object else None.

(** The longest prefix of characters in a class, and the rest. *)
Fixpoint drop_while (p : char -> bool) (s : str) : str :=
  match s with
  | c :: t => if p c then drop_while p t else s
  | [] => []
  end.

Fixpoint take_while (p : char -> bool) (s : str) : str :=
  match s with
  | c :: t => if p c then c :: take_while p t else []
  | [] => []
  end.

(** What is left after [drop_while p] does not start with a [p]. *)
Definition not_headed (p : char -> bool) (s : str) : Prop :=
  match s with
  | c :: _ => p c = false
  | [] => True
  end.

(** A version declaration starts here: the marker and a digit. *)
Definition starts_tag (s : str) : bool :=
  match strip_prefix char_eq version_marker s with
  | Some (c :: _) => is_digit c
  | _ => false
  end.

(** [re.test(s)]: the pattern matches somewhere. *)
Fixpoint matches_somewhere (m : str -> option nat) (s : str) : bool :=
  match m s with
  | Some _ => true
  | None =>
      match s with
      | [] => false
      | _ :: t => matches_somewhere m t
      end
  end.

Definition test (r : re nat) (s : str) : bool :=
  matches_somewhere (match_len r) s.

(** Copy [s], letting through at most two newlines in a row; [n] counts
    the newlines that end the output so far. *)
Fixpoint collapse_run (n : nat) (s : str) : str :=
  match s with
  | [] => []
  | c :: t =>
      if is_nl c then
        if (n <? 2)%nat then c :: collapse_run (S n) t else collapse_run n t
      else c :: collapse_run 0 t
  end.

(** A text without newlines. *)
Definition no_nl (s : str) : Prop := Forall (fun c => is_nl c = false) s.

(** The state of the scan after a text. *)
Fixpoint nl_state (n : nat) (s : str) : nat :=
  match s with
  | [] => n
  | c :: t =>
      nl_state (if is_nl c then if (n <? 2)%nat then S n else n else 0%nat) t
  end.

(** [p] is a substring of [s]. *)
Definition occurs (p s : str) : Prop := exists a b, s = a ++ p ++ b.

(** A text that holds a fenced block: two triple backticks that do not
    overlap. *)
Definition fenced (s : str) : Prop :=
  exists a b c, s = a ++ fence ++ b ++ fence ++ c.

(** The version line built by [postProcessCode]. *)
Definition versionTag (v : str) : str := version_marker ++ digits_of v.

(** The number of matches of a global pattern: the scan of
    [replace_scan], counting. *)
Fixpoint count_scan (m : str -> option nat) (skip : nat) (s : str) : nat :=
  match s with
  | [] =>
      match skip with
      | O => match m [] with Some _ => 1 | None => 0 end
      | S _ => 0
      end
  | _ :: t =>
      match skip with
      | S k => count_scan m k t
      | O =>
          match m s with
          | Some O => S (count_scan m 0 t)
          | Some (S n) => S (count_scan m n t)
          | None => count_scan m 0 t
          end
      end
  end%nat.

Definition count_matches (r : re nat) (s : str) : nat :=
  count_scan (match_len r) 0 s.

(** A service that answers with prose only. *)
Definition ai_apology : service := fun _ =>
  inr {| text := Some (u "Sorry, I could not produce the script.") |}.

(** The language hint of a fenced block, as the pattern reads it: the
    longest of [pinescript], [pine] and nothing, in any case of letters,
    which the interior [C] does not go on to extend. *)
Inductive language_hint (C : str) : str -> Prop :=
| hint_pinescript (h : str) :
    strip_prefix char_eq_ci (u "pinescript") h = Some [] ->
    language_hint C h
| hint_pine (h : str) :
    strip_prefix char_eq_ci (u "pine") h = Some [] ->
    strip_prefix char_eq_ci (u "script") C = None ->
    language_hint C h
| hint_none :
    strip_prefix char_eq_ci (u "pine") C = None ->
    language_hint C [].

(** The section-marker pattern at a position. *)
Definition sm := match_len re_sectionMarker.

(** The fragments occur in the text one after the other, without overlap. *)
Fixpoint in_order (frags : list str) (s : str) : Prop :=
  match frags with
  | [] => True
  | f :: fs => exists a b, s = a ++ f ++ b /\ in_order fs b
  end.

(** The text after the first occurrence of [pat]. *)
Fixpoint after_first (pat s : str) : option str :=
  match strip_prefix char_eq pat s with
  | Some r => Some r
  | None =>
      match s with
      | [] => None
      | _ :: t => after_first pat t
      end
  end.

(** The decision procedure: take each fragment at its first occurrence. *)
Fixpoint in_orderb (frags : list str) (s : str) : bool :=
  match frags with
  | [] => true
  | f :: fs =>
      match after_first f s with
      | Some r => in_orderb fs r
      | None => false
      end
  end.

(** The supplemental-context block, present when a non-empty context was
    given. *)
Definition supplemental (block : str -> str) (p : PineScriptParams) : list str :=
  match customContext p with
  | Some c => if truthy c then [block c] else []
  | None => []
  end.

(** The fragments of the generation prompt, in the order of the claim. *)
Definition generate_fragments (p : PineScriptParams) : list str :=
  (if expert_mode p then [INSTITUTIONAL_GUIDELINES] else [])
  ++ [QUALITY_CHECKS; SYNTAX_SAFETY_GUARD; gen_architectureRules p]
  ++ supplemental gen_contextBlock p.

(** The fragments of the refinement prompt, in the order of its template:
    the quality checklist comes first, and the rules of refinement stand
    where the generation prompt has its architecture rules. *)
Definition refine_fragments (p : PineScriptParams) : list str :=
  [QUALITY_CHECKS]
  ++ (if expert_mode p then [INSTITUTIONAL_GUIDELINES] else [])
  ++ [SYNTAX_SAFETY_GUARD]
  ++ supplemental refine_contextBlock p
  ++ [refine_rules].

(** [k] cannot start [t], whatever follows [t]: a character of [k] differs
    from the character of [t] at its place. *)
Fixpoint mismatch (k t : str) : bool :=
  match k, t with
  | a :: k', c :: t' => if char_eq a c then mismatch k' t' else true
  | _, _ => false
  end.

(** [k] starts at no position of [a], whatever follows [a]. *)
Fixpoint starts_nowhere (k a : str) : bool :=
  match a with
  | [] => true
  | _ :: t => mismatch k a && starts_nowhere k t
  end.

(** No end of [k] starts [b], whatever follows [b]: an occurrence of [k]
    that starts before [b] does not end in it or after it. *)
Fixpoint ends_nowhere (k b : str) : bool :=
  match k with
  | [] => true
  | _ :: k' =>
      match k' with
      | [] => true
      | _ :: _ => mismatch k' b && ends_nowhere k' b
      end
  end.

Definition guidelines_heading : str :=
  u "### EXPERT TRADING PHILOSOPHY (AUTO-APPLY THESE):".

Definition gen_context_header : str :=
  u "### USER KNOWLEDGE BASE (PDF/CUSTOM CONTEXT)".

Definition refine_context_header : str :=
  u "### ORIGINAL KNOWLEDGE BASE (CONTEXT)".

Definition architecture_header : str := u "### ARCHITECTURE RULES".

(** [params.customContext] as a condition, and as a text. *)
Definition context_given (p : PineScriptParams) : bool :=
  match customContext p with Some c => truthy c | None => false end.

Definition context_text (p : PineScriptParams) : str :=
  match customContext p with Some c => c | None => [] end.

Definition standard_params : PineScriptParams :=
  {| prompt := u "Plot the close";
     scriptType := strategy;
     overlay := false;
     version := u "v5";
     model := u "gemini-3-flash-preview";
     customContext := Some (u "Use a 50 period EMA.") |}.

(** The properties of an object after the fallback validation. *)
Definition validated (ps : list (str * value)) : list (str * value) :=
  let ps1 := if falsy (lookup k_scriptType ps)
             then update k_scriptType (VString (u "indicator")) ps else ps in
  let ps2 := if not_boolean (lookup k_overlay ps1)
             then update k_overlay (VBool true) ps1 else ps1 in
  if falsy (lookup k_generatedPrompt ps2)
  then update k_generatedPrompt (VString missing_prompt_notice) ps2 else ps2.

(** The conversation of a session: nothing, or the initial analysis of the
    model followed by turns of a user message and a model message. *)
Fixpoint turns_ok (l : list ChatMessage) : bool :=
  match l with
  | [] => true
  | a :: b :: r =>
      match msg_role a, msg_role b with
      | role_user, role_model => turns_ok r
      | _, _ => false
      end
  | _ => false
  end.

Definition chat_shape (l : list ChatMessage) : bool :=
  match l with
  | [] => true
  | a :: r =>
      match msg_role a with
      | role_model => turns_ok r
      | role_user => false
      end
  end.

(** The file kept as selected, if any, is a PDF. *)
Definition pdf_selected (st : AppState) : Prop :=
  forall f, selectedFile st = Some f -> file_type f = u "application/pdf".

(** What holds of the state whenever no handler is running. *)
Definition at_rest (st : AppState) : Prop :=
  isEnhancing st = false
  /\ isGenerating st = false
  /\ loadingState st <> REFINING
  /\ (loadingState st = SUCCESS <-> result st <> None)
  /\ (result st = None <-> chatMessages st = [])
  /\ chat_shape (chatMessages st) = true
  /\ (forall r, result st = Some r ->
        starts_with version_marker (code r) = true).

(* ================================================================== *)
(** * Properties *)

(** ** Prefixes and occurrences *)

Lemma strip_prefix_app (p r : str) : strip_prefix char_eq p (p ++ r) = Some r.
Proof.
  induction p as [|a p IH]; simpl; [reflexivity|].
  unfold char_eq at 1. now rewrite N.eqb_refl.
Qed.

Lemma strip_prefix_sound (p s r : str) :
  strip_prefix char_eq p s = Some r -> s = p ++ r.
Proof.
  revert s; induction p as [|a p IH]; intros s H; simpl in *.
  - now inversion H.
  - destruct s as [|c s]; [discriminate|].
    unfold char_eq in H at 1. destruct (N.eqb_spec a c); [|discriminate].
    subst. f_equal. now apply IH.
Qed.

Lemma starts_with_app (p r : str) : starts_with p (p ++ r) = true.
Proof. unfold starts_with. now rewrite strip_prefix_app. Qed.

Lemma indexOf_split (pat s : str) (k : nat) :
  indexOf pat s = Some k ->
  starts_with pat (skipn k s) = true /\
  forall j, (j < k)%nat -> starts_with pat (skipn j s) = false.
Proof.
  revert k; induction s as [|c t IH]; intros k H; simpl in H.
  - destruct (strip_prefix char_eq pat []) eqn:E; [|discriminate].
    inversion H; subst. split; [|intros j Hj; lia].
    unfold starts_with. simpl. now rewrite E.
  - destruct (strip_prefix char_eq pat (c :: t)) eqn:E.
    + inversion H; subst. split; [|intros j Hj; lia].
      unfold starts_with. simpl skipn. now rewrite E.
    + destruct (indexOf pat t) as [k'|] eqn:Ei; [|discriminate].
      inversion H; subst. destruct (IH k' eq_refl) as [H1 H2].
      split; [exact H1|].
      intros [|j] Hj.
      * unfold starts_with. simpl skipn. now rewrite E.
      * simpl. apply H2. lia.
Qed.

Lemma indexOf_none (pat s : str) :
  indexOf pat s = None ->
  forall a b, s = a ++ b -> strip_prefix char_eq pat b = None.
Proof.
  induction s as [|c t IH]; intros H a b Hs; simpl in H.
  - destruct a; [|discriminate]. simpl in Hs; subst b.
    destruct (strip_prefix char_eq pat []); [discriminate|reflexivity].
  - destruct (strip_prefix char_eq pat (c :: t)) eqn:E; [discriminate|].
    destruct (indexOf pat t) eqn:Ei; [discriminate|].
    destruct a as [|a0 a]; simpl in Hs.
    + now subst b.
    + inversion Hs; subst. now apply (IH eq_refl a b).
Qed.

(* ================================================================== *)
(** ** The parse step without a fenced block *)

(** C7.  A response without a fenced block whose first version marker is
    at offset [k]: the code is the text from [k] on, the explanation is the
    text before [k]; [k] is the first position where the marker starts. *)
Theorem extract_generated_fallback (t : str) (k : nat) :
  match_codeBlock t = None ->
  indexOf version_marker t = Some k ->
  extract_generated t = (substring_from k t, substring_to k t)
  /\ t = substring_to k t ++ substring_from k t
  /\ starts_with version_marker (substring_from k t) = true
  /\ (forall j, (j < k)%nat ->
        starts_with version_marker (substring_from j t) = false).
Proof.
  intros Hf Hi. unfold extract_generated. rewrite Hf, Hi.
  destruct (indexOf_split _ _ _ Hi) as [H1 H2].
  unfold substring_from, substring_to.
  repeat split; auto. symmetry. apply firstn_skipn.
Qed.

Lemma extract_generated_fallback_witness :
  extract_generated (u "Sure. //@version=5 plot(close)")
  = (u "//@version=5 plot(close)", u "Sure. ").
Proof.
  destruct (extract_generated_fallback
              (u "Sure. //@version=5 plot(close)") 6) as [H _].
  - reflexivity.
  - reflexivity.
  - exact H.
Defined.

(** C8.  A response with neither a fenced block nor a version marker: the
    code handed on is the failure sentinel, which is not empty, and the
    explanation is the whole response; the run returns exactly these, the
    code post-processed. *)
Theorem extract_generated_sentinel (t : str) :
  match_codeBlock t = None ->
  indexOf version_marker t = None ->
  extract_generated t = (parse_failure_sentinel, t)
  /\ parse_failure_sentinel <> []
  /\ forall p ai resp,
       ai (generate_request p) = inr resp ->
       text_or resp [] = t ->
       generatePineScript p None ai
       = ([GenerateContent (generate_request p)],
          inr {| code := postProcessCode parse_failure_sentinel (version p);
                 explanation := t |}).
Proof.
  intros Hf Hi.
  assert (E : extract_generated t = (parse_failure_sentinel, t)).
  { unfold extract_generated. now rewrite Hf, Hi. }
  split; [exact E|]. split; [discriminate|].
  intros p ai resp Hai Ht.
  unfold generatePineScript, notify, generateContent, bind, try_catch, ret.
  rewrite Hai, Ht, E. reflexivity.
Qed.

Lemma extract_generated_sentinel_witness :
  extract_generated (u "I cannot help with that.")
  = (parse_failure_sentinel, u "I cannot help with that.")
  /\ forall p : PineScriptParams,
       generatePineScript p None
         (fun _ => inr {| text := Some (u "I cannot help with that.") |})
       = ([GenerateContent (generate_request p)],
          inr {| code := postProcessCode parse_failure_sentinel (version p);
                 explanation := u "I cannot help with that." |}).
Proof.
  destruct (extract_generated_sentinel (u "I cannot help with that."))
    as [H [_ Hrun]].
  - reflexivity.
  - reflexivity.
  - split; [exact H|]. intros p.
    apply (Hrun p _ {| text := Some (u "I cannot help with that.") |});
      reflexivity.
Defined.

(* ================================================================== *)
(** ** enhancePrompt *)

(** C10.  The model selector handed to [enhancePrompt] has no influence:
    the run (the request it issues and what it returns for any given
    behaviour of the service) is the same for any two selectors, and the
    request always names the fixed model. *)
Theorem enhancePrompt_ignores_model (inputText m1 m2 : str) (ai : service) :
  enhancePrompt inputText m1 ai = enhancePrompt inputText m2 ai
  /\ fst (enhancePrompt inputText m1 ai) = [GenerateContent (enhance_request inputText)]
  /\ req_model (enhance_request inputText) = u "gemini-3-pro-preview".
Proof.
  split; [reflexivity|]. split; [|reflexivity].
  unfold enhancePrompt, generateContent, bind, try_catch, ret.
  destruct (ai (enhance_request inputText)); reflexivity.
Qed.

(** The enhancement never rejects: a failure of the service gives the input
    back. *)
Lemma enhancePrompt_total (inputText m : str) (ai : service) :
  exists out, snd (enhancePrompt inputText m ai) = inr out.
Proof.
  unfold enhancePrompt, generateContent, bind, try_catch, ret.
  destruct (ai (enhance_request inputText)); simpl; eauto.
Qed.

(* ================================================================== *)
(** ** The progress callback *)

(** C4, as stated, fails: the service has answered, the callback throws at
    the last notification, and the run rejects with the pipeline error
    instead of returning what it returns with a callback that does not
    throw. *)
Lemma callback_throw_aborts :
  snd (generatePineScript example_params (Some quiet_callback) ai_fenced)
  = inr {| code := u "//@version=6
plot(close)"; explanation := [] |}
  /\ snd (generatePineScript example_params (Some late_throw) ai_fenced)
     = inl pipeline_error
  /\ snd (generatePineScript example_params (Some late_throw) ai_fenced)
     <> snd (generatePineScript example_params (Some quiet_callback) ai_fenced).
Proof.
  assert (A : snd (generatePineScript example_params (Some quiet_callback) ai_fenced)
              = inr {| code := u "//@version=6
plot(close)"; explanation := [] |}) by (vm_compute; reflexivity).
  assert (B : snd (generatePineScript example_params (Some late_throw) ai_fenced)
              = inl pipeline_error) by (vm_compute; reflexivity).
  split; [exact A|]. split; [exact B|].
  rewrite A, B. discriminate.
Qed.

(** C4, amended.  A callback that returns normally at every notification
    leaves the result as it is without a callback.  A callback that throws
    at any of the four notifications makes the run reject; a throw at the
    first notification reaches the caller unchanged, before any request to
    the service; and when the first notification returns, a throw at a
    later one is caught and the run rejects with the fixed pipeline error,
    whatever the callback threw and whatever the service answered. *)
Theorem generate_callback_outcome (p : PineScriptParams) (ai : service)
  (cb : callback) :
  ((forall s, In s stages -> cb s = inr tt) ->
   snd (generatePineScript p (Some cb) ai) = snd (generatePineScript p None ai))
  /\ (forall s e, In s stages -> cb s = inl e ->
      exists e', snd (generatePineScript p (Some cb) ai) = inl e')
  /\ (forall e, cb (u "NORMALIZING_REQUEST") = inl e ->
      generatePineScript p (Some cb) ai
      = ([StatusUpdate (u "NORMALIZING_REQUEST")], inl e))
  /\ (forall s e, cb (u "NORMALIZING_REQUEST") = inr tt ->
      In s stages -> cb s = inl e ->
      snd (generatePineScript p (Some cb) ai) = inl pipeline_error).
Proof.
  unfold generatePineScript, notify, generateContent, bind, try_catch, ret, throw.
  split; [|split; [|split]].
  - intros H.
    rewrite (H (u "NORMALIZING_REQUEST")), (H (u "OPTIMIZING_LOGIC")),
      (H (u "GENERATING_CODE")), (H (u "VALIDATING_OUTPUT"))
      by (unfold stages; simpl; auto).
    destruct (ai (generate_request p)) as [e|resp]; [reflexivity|].
    destruct (extract_generated (text_or resp [])); reflexivity.
  - intros s e Hs He.
    destruct (cb (u "NORMALIZING_REQUEST")) as [e0|[]] eqn:E0; [simpl; eauto|].
    destruct (cb (u "OPTIMIZING_LOGIC")) as [e1|[]] eqn:E1; [simpl; eauto|].
    destruct (cb (u "GENERATING_CODE")) as [e2|[]] eqn:E2; [simpl; eauto|].
    destruct (ai (generate_request p)) as [e3|resp]; [simpl; eauto|].
    destruct (cb (u "VALIDATING_OUTPUT")) as [e4|[]] eqn:E4; [simpl; eauto|].
    exfalso. unfold stages in Hs. simpl in Hs.
    destruct Hs as [<-|[<-|[<-|[<-|[]]]]]; congruence.
  - intros e He. rewrite He. reflexivity.
  - intros s e H0 Hs He. rewrite H0.
    destruct (cb (u "OPTIMIZING_LOGIC")) as [e1|[]] eqn:E1; [reflexivity|].
    destruct (cb (u "GENERATING_CODE")) as [e2|[]] eqn:E2; [reflexivity|].
    destruct (ai (generate_request p)) as [e3|resp]; [reflexivity|].
    destruct (cb (u "VALIDATING_OUTPUT")) as [e4|[]] eqn:E4; [reflexivity|].
    exfalso. unfold stages in Hs. simpl in Hs.
    destruct Hs as [<-|[<-|[<-|[<-|[]]]]]; congruence.
Qed.

Lemma generate_callback_outcome_witness :
  snd (generatePineScript example_params (Some quiet_callback) ai_fenced)
  = snd (generatePineScript example_params None ai_fenced)
  /\ (exists e',
        snd (generatePineScript example_params (Some late_throw) ai_fenced)
        = inl e')
  /\ generatePineScript example_params (Some early_throw) ai_fenced
     = ([StatusUpdate (u "NORMALIZING_REQUEST")],
        inl (Thrown (u "callback failed")))
  /\ snd (generatePineScript example_params (Some late_throw) ai_fenced)
     = inl pipeline_error.
Proof.
  split; [|split; [|split]].
  - destruct (generate_callback_outcome example_params ai_fenced quiet_callback)
      as [H _].
    apply H. reflexivity.
  - destruct (generate_callback_outcome example_params ai_fenced late_throw)
      as [_ [H _]].
    apply (H (u "VALIDATING_OUTPUT") (Thrown (u "callback failed"))).
    + unfold stages. simpl. auto.
    + reflexivity.
  - destruct (generate_callback_outcome example_params ai_fenced early_throw)
      as [_ [_ [H _]]].
    apply H. reflexivity.
  - destruct (generate_callback_outcome example_params ai_fenced late_throw)
      as [_ [_ [_ H]]].
    apply (H (u "VALIDATING_OUTPUT") (Thrown (u "callback failed"))).
    + reflexivity.
    + unfold stages. simpl. auto.
    + reflexivity.
Defined.

(* ================================================================== *)
(** ** The document analysis *)

(** C9 at a response with a mistyped field: the number in [scriptType] is
    truthy, passes the fallback validation and is returned as it is; the
    default [indicator] is not substituted. *)
Theorem pdf_mistyped_scriptType_kept :
  extractStrategyFromPdf parse_mistyped (u "JVBERi0=") (u "rsi.pdf")
    (fun _ => inr {| text := Some mistyped_response |})
  = ([GenerateContent (pdf_request (u "JVBERi0="))], inr mistyped_object)
  /\ get_prop mistyped_object k_scriptType = inr (VNumber (42 # 1)).
Proof. split; vm_compute; reflexivity. Qed.

(** The analysis rejects only when the service does: whatever the response
    text and whatever [JSON.parse] makes of it, a value is returned. *)
Lemma pdf_parse_never_throws (JSON_parse : str -> option value)
  (pdf name : str) (ai : service) (resp : response) :
  ai (pdf_request pdf) = inr resp ->
  exists v, snd (extractStrategyFromPdf JSON_parse pdf name ai) = inr v.
Proof.
  intros Hai.
  unfold extractStrategyFromPdf, generateContent, bind at 1, try_catch at 1.
  rewrite Hai.
  destruct (try_catch _ _) as [l [e|v]] eqn:E.
  - exfalso. revert E. unfold try_catch, ret.
    destruct (_ <- parse_json JSON_parse _ ;; _) as [l0 [e0|v0]]; discriminate.
  - simpl. eauto.
Qed.

(** Text that is not JSON gives the three defaults of the [catch] branch. *)
Lemma pdf_invalid_json (JSON_parse : str -> option value)
  (pdf name : str) (ai : service) (resp : response) :
  ai (pdf_request pdf) = inr resp ->
  JSON_parse (text_or resp (u "{}")) = None ->
  snd (extractStrategyFromPdf JSON_parse pdf name ai) = inr invalid_json_result.
Proof.
  intros Hai Hp.
  unfold extractStrategyFromPdf, generateContent, parse_json, bind, try_catch,
    throw, ret.
  rewrite Hai, Hp. reflexivity.
Qed.

(** An object without the three fields gets the three field defaults. *)
Lemma pdf_missing_fields (JSON_parse : str -> option value)
  (pdf name : str) (ai : service) (resp : response) :
  ai (pdf_request pdf) = inr resp ->
  JSON_parse (text_or resp (u "{}")) = Some (VObject []) ->
  snd (extractStrategyFromPdf JSON_parse pdf name ai)
  = inr (VObject [ (k_scriptType, VString (u "indicator"));
                   (k_overlay, VBool true);
                   (k_generatedPrompt, VString missing_prompt_notice) ]).
Proof.
  intros Hai Hp.
  unfold extractStrategyFromPdf, generateContent, parse_json, bind at 1,
    try_catch at 1.
  rewrite Hai, Hp. reflexivity.
Qed.

(* ================================================================== *)
(** ** The patterns, in closed form *)

Lemma take_drop_while (p : char -> bool) (s : str) :
  s = take_while p s ++ drop_while p s.
Proof.
  induction s as [|c t IH]; simpl; [reflexivity|].
  destruct (p c); simpl; congruence.
Qed.

Lemma take_while_all (p : char -> bool) (s : str) :
  Forall (fun c => p c = true) (take_while p s).
Proof.
  induction s as [|c t IH]; simpl; [constructor|].
  destruct (p c) eqn:E; constructor; assumption.
Qed.

Lemma drop_while_head (p : char -> bool) (s : str) :
  not_headed p (drop_while p s).
Proof.
  induction s as [|c t IH]; simpl; [exact I|].
  destruct (p c) eqn:E; simpl; assumption.
Qed.

Lemma drop_while_not_headed (p : char -> bool) (s : str) :
  not_headed p s -> drop_while p s = s.
Proof. destruct s as [|c t]; simpl; [reflexivity|]. now intros ->. Qed.

Lemma drop_while_app_all (p : char -> bool) (a z : str) :
  Forall (fun c => p c = true) a -> drop_while p (a ++ z) = drop_while p z.
Proof.
  induction 1 as [|c a Hc _ IH]; simpl; [reflexivity|]. now rewrite Hc.
Qed.

Lemma trimStart_drop (s : str) : trimStart s = drop_while is_space s.
Proof.
  induction s as [|c t IH]; simpl; [reflexivity|].
  destruct (is_space c); [exact IH|reflexivity].
Qed.

Lemma drop_while_length (p : char -> bool) (s : str) :
  (length (drop_while p s) <= length s)%nat.
Proof.
  induction s as [|c t IH]; simpl; [lia|].
  destruct (p c); simpl; lia.
Qed.

Section StarLemmas.
Variable R : Type.

Lemma star_ext (p : char -> bool) (s : str) (k k' : cont R) :
  (forall x, k x = k' x) -> star p s k = star p s k'.
Proof.
  intros H. induction s as [|c t IH]; simpl; [apply H|].
  destruct (p c); [|apply H]. rewrite IH, H. reflexivity.
Qed.

(** A greedy star before a continuation that cannot fail takes the whole
    run. *)
Lemma star_total (p : char -> bool) (s : str) (g : str -> R) :
  star p s (fun rest => Some (g rest)) = Some (g (drop_while p s)).
Proof.
  induction s as [|c t IH]; simpl; [reflexivity|].
  destruct (p c); [|reflexivity]. now rewrite IH.
Qed.
End StarLemmas.

(** The version declaration pattern at a position: the marker, the digits
    and all the white space after them. *)
Lemma versionTag_len (s : str) :
  match_len re_versionTag s =
  match strip_prefix char_eq version_marker s with
  | Some (c :: t) =>
      if is_digit c
      then Some (length s - length (trimStart (drop_while is_digit t)))%nat
      else None
  | _ => None
  end.
Proof.
  unfold match_len, re_versionTag, seq, lit.
  destruct (strip_prefix char_eq version_marker s) as [[|c t]|]; try reflexivity.
  simpl at_least. destruct (is_digit c); [|reflexivity].
  rewrite (star_ext _ is_digit t _
             (fun s' => Some (length s - length (drop_while is_space s'))%nat)).
  - rewrite star_total. now rewrite trimStart_drop.
  - intros x. apply star_total.
Qed.

Lemma versionTag_none (s : str) :
  starts_tag s = false -> match_len re_versionTag s = None.
Proof.
  rewrite versionTag_len. unfold starts_tag.
  destruct (strip_prefix char_eq version_marker s) as [[|c t]|]; try reflexivity.
  now intros ->.
Qed.

Lemma versionTag_some (s : str) :
  starts_tag s = true -> exists n, match_len re_versionTag s = Some n.
Proof.
  rewrite versionTag_len. unfold starts_tag.
  destruct (strip_prefix char_eq version_marker s) as [[|c t]|]; try discriminate.
  intros ->. eauto.
Qed.

(** The blank-run pattern at a position: three newlines and all the
    newlines after them. *)
Lemma blankRun_len (s : str) :
  match_len re_blankRun s =
  match s with
  | c1 :: c2 :: c3 :: t =>
      if is_nl c1 && is_nl c2 && is_nl c3
      then Some (length s - length (drop_while is_nl t))%nat
      else None
  | _ => None
  end.
Proof.
  unfold match_len, re_blankRun.
  destruct s as [|c1 [|c2 [|c3 t]]]; simpl at_least;
    try reflexivity.
  - now destruct (is_nl c1).
  - destruct (is_nl c1); [|reflexivity]. now destruct (is_nl c2).
  - destruct (is_nl c1); [|reflexivity]. destruct (is_nl c2); [|reflexivity].
    destruct (is_nl c3); [|reflexivity]. simpl andb. apply star_total.
Qed.

(* ================================================================== *)
(** ** The replace scan *)

Lemma replace_scan_skip (m : str -> option nat) (rep pre r : str) :
  replace_scan m rep (length pre) (pre ++ r) = replace_scan m rep 0 r.
Proof. induction pre as [|c pre IH]; simpl; [reflexivity|exact IH]. Qed.

Lemma replace_scan_match (m : str -> option nat) (rep pre r : str) :
  pre <> [] ->
  m (pre ++ r) = Some (length pre) ->
  replace_scan m rep 0 (pre ++ r) = rep ++ replace_scan m rep 0 r.
Proof.
  destruct pre as [|c pre]; [congruence|]. intros _ H.
  simpl app in *. simpl length in H. simpl replace_scan. rewrite H.
  now rewrite replace_scan_skip.
Qed.

Lemma replace_scan_id (m : str -> option nat) (rep s : str) :
  matches_somewhere m s = false -> replace_scan m rep 0 s = s.
Proof.
  induction s as [|c t IH]; simpl; intros H.
  - now destruct (m []).
  - destruct (m (c :: t)); [discriminate|]. now rewrite IH.
Qed.

Lemma matches_nowhere (m : str -> option nat) (s : str) :
  matches_somewhere m s = false ->
  forall a b, s = a ++ b -> m b = None.
Proof.
  induction s as [|c t IH]; simpl; intros H a b Hs.
  - destruct a; [|discriminate]. simpl in Hs; subst.
    now destruct (m []).
  - destruct (m (c :: t)) eqn:E; [discriminate|].
    destruct a as [|a0 a]; simpl in Hs; [now subst|].
    inversion Hs; subst. now apply (IH H a b).
Qed.

Lemma matches_nowhere_intro (m : str -> option nat) (s : str) :
  (forall a b, s = a ++ b -> m b = None) ->
  matches_somewhere m s = false.
Proof.
  induction s as [|c t IH]; simpl; intros H.
  - now rewrite (H [] [] eq_refl).
  - rewrite (H [] (c :: t) eq_refl). apply IH.
    intros a b ->. apply (H (c :: a) b). reflexivity.
Qed.

(* ================================================================== *)
(** ** Blank runs, as a left-to-right scan

    [collapse_run n s] copies [s] and lets through at most two newlines in
    a row; [n] is the number of newlines that end the output so far.  It
    is what the global replace of [/\n{3,}/] computes. *)

Lemma collapse_run_restart (n : nat) (s : str) :
  not_headed is_nl s -> collapse_run n s = collapse_run 0 s.
Proof. destruct s as [|c t]; simpl; [reflexivity|]. now intros ->. Qed.

Lemma collapse_run_drop (run rest : str) (n : nat) :
  (2 <= n)%nat ->
  Forall (fun c => is_nl c = true) run ->
  collapse_run n (run ++ rest) = collapse_run n rest.
Proof.
  intros Hn. induction 1 as [|c run Hc _ IH]; simpl; [reflexivity|].
  rewrite Hc. destruct (Nat.ltb_spec n 2); [lia|exact IH].
Qed.

Lemma collapse_blankRuns_spec (s : str) :
  collapse_blankRuns s = collapse_run 0 s.
Proof.
  unfold collapse_blankRuns, replace_all.
  remember (length s) as n eqn:Hn.
  assert (Hle : (length s <= n)%nat) by lia. clear Hn.
  revert s Hle. induction n as [|n IH]; intros s Hle.
  - destruct s; [reflexivity|simpl in Hle; lia].
  - destruct s as [|c1 t1]; [reflexivity|].
    simpl in Hle.
    simpl replace_scan. rewrite blankRun_len.
    destruct t1 as [|c2 t2].
    { simpl. now destruct (is_nl c1). }
    destruct t2 as [|c3 t3].
    { rewrite (IH [c2]) by (simpl in *; lia). simpl.
      destruct (is_nl c1), (is_nl c2); reflexivity. }
    destruct (is_nl c1) eqn:E1; simpl andb.
    2:{ rewrite IH by (simpl in *; lia). simpl. now rewrite E1. }
    destruct (is_nl c2) eqn:E2; simpl andb.
    2:{ rewrite IH by (simpl in *; lia). simpl. now rewrite E1, E2. }
    destruct (is_nl c3) eqn:E3.
    2:{ rewrite IH by (simpl in *; lia). simpl. now rewrite E1, E2, E3. }
    (* three newlines: the match takes the whole run *)
    pose proof (take_drop_while is_nl t3) as Ht.
    pose proof (take_while_all is_nl t3) as Hall.
    pose proof (drop_while_head is_nl t3) as Hhd.
    pose proof (drop_while_length is_nl t3) as Hlen.
    remember (take_while is_nl t3) as run eqn:Hrun.
    remember (drop_while is_nl t3) as rest eqn:Hrest.
    clear Hrun Hrest.
    assert (Hl : (length (c1 :: c2 :: c3 :: t3) - length rest
                  = S (length (c2 :: c3 :: run)))%nat).
    { rewrite Ht at 1. simpl length. rewrite length_app. lia. }
    rewrite Hl.
    replace (c2 :: c3 :: t3) with ((c2 :: c3 :: run) ++ rest)
      by (simpl; now rewrite <- Ht).
    rewrite replace_scan_skip.
    rewrite IH by (simpl in *; lia).
    simpl collapse_run. rewrite E1, E2, E3. simpl.
    rewrite collapse_run_drop by (auto; lia).
    apply N.eqb_eq in E1, E2. unfold nl in *. subst.
    f_equal. f_equal. symmetry. now apply collapse_run_restart.
Qed.

Lemma collapse_run_idem (n : nat) (s : str) :
  collapse_run n (collapse_run n s) = collapse_run n s.
Proof.
  revert n. induction s as [|c t IH]; intros n; simpl; [reflexivity|].
  destruct (is_nl c) eqn:E.
  - destruct (Nat.ltb_spec n 2) as [H|H].
    + simpl. rewrite E. destruct (Nat.ltb_spec n 2); [|lia]. now rewrite IH.
    + apply IH.
  - simpl. rewrite E. now rewrite IH.
Qed.

(** A text without newlines in front goes through unchanged and leaves the
    scan with no pending newline. *)
Lemma collapse_run_prefix (n : nat) (p z : str) :
  no_nl p -> p <> [] ->
  collapse_run n (p ++ z) = p ++ collapse_run 0 z.
Proof.
  intros Hp. revert n. induction Hp as [|c p Hc Hp IH]; intros n Hne.
  - congruence.
  - simpl. rewrite Hc. f_equal.
    destruct p as [|d p]; [reflexivity|]. apply IH. discriminate.
Qed.

Lemma collapse_run_no_nl (n : nat) (z : str) :
  no_nl z -> collapse_run n z = z.
Proof.
  intros H. revert n. induction H as [|c z Hc _ IH]; intros n; simpl;
    [reflexivity|].
  rewrite Hc. now rewrite IH.
Qed.

Lemma collapse_run_app (n : nat) (a b : str) :
  collapse_run n (a ++ b) = collapse_run n a ++ collapse_run (nl_state n a) b.
Proof.
  revert n. induction a as [|c a IH]; intros n; simpl; [reflexivity|].
  destruct (is_nl c).
  - destruct (n <? 2)%nat; simpl; now rewrite IH.
  - simpl. now rewrite IH.
Qed.

Lemma collapse_run_all_nl (n : nat) (w : str) :
  Forall (fun c => is_nl c = true) w ->
  Forall (fun c => is_nl c = true) (collapse_run n w).
Proof.
  intros H. revert n. induction H as [|c w Hc _ IH]; intros n; simpl;
    [constructor|].
  rewrite Hc. destruct (n <? 2)%nat; [constructor|]; auto.
Qed.

(** *** Occurrences survive the scan backwards

    The scan only removes newlines, so a text without newlines that occurs
    in the output occurs in the input. *)

Lemma occurs_cons (p s : str) (c : char) : occurs p s -> occurs p (c :: s).
Proof. intros (a & b & ->). now exists (c :: a), b. Qed.

Lemma collapse_run_starts (p : str) :
  no_nl p ->
  forall s r, collapse_run 0 s = p ++ r -> exists r', s = p ++ r'.
Proof.
  induction 1 as [|a p Ha _ IH]; intros s r H.
  - now exists s.
  - destruct s as [|c t]; simpl in H; [discriminate|].
    destruct (is_nl c) eqn:E.
    + simpl in H. inversion H; subst. congruence.
    + inversion H; subst. destruct (IH t r H2) as [r' ->].
      now exists r'.
Qed.

Lemma occurs_collapse_run (p : str) :
  no_nl p -> p <> [] ->
  forall s n, occurs p (collapse_run n s) -> occurs p s.
Proof.
  intros Hp Hne. induction s as [|c t IH]; intros n (a & b & H).
  - simpl in H. destruct a, p; try discriminate. congruence.
  - simpl in H. destruct (is_nl c) eqn:E.
    + destruct (n <? 2)%nat.
      * destruct a as [|a0 a]; simpl in H.
        -- destruct p as [|p0 p]; [congruence|]. inversion H; subst.
           inversion Hp; subst. congruence.
        -- inversion H; subst. apply occurs_cons. apply (IH (S n)).
           now exists a, b.
      * apply occurs_cons. apply (IH n). now exists a, b.
    + destruct a as [|a0 a]; simpl in H.
      * assert (H' : collapse_run 0 (c :: t) = p ++ b)
          by (simpl; now rewrite E).
        destruct (collapse_run_starts p Hp _ _ H') as [r' ->].
        now exists [], r'.
      * inversion H; subst. apply occurs_cons. apply (IH 0%nat).
        now exists a, b.
Qed.

(** An occurrence cannot start in a text that has none of its first
    character. *)
Lemma occurs_skip (c0 : char) (p pre r : str) :
  Forall (fun c => c <> c0) pre ->
  occurs (c0 :: p) (pre ++ r) -> occurs (c0 :: p) r.
Proof.
  induction 1 as [|c pre Hc _ IH]; [auto|].
  intros (a & b & H). destruct a as [|a0 a]; simpl in H.
  - inversion H; subst. congruence.
  - inversion H; subst. apply IH. now exists a, b.
Qed.

Lemma indexOf_none_occurs (p s : str) :
  indexOf p s = None <-> ~ occurs p s.
Proof.
  split.
  - intros H (a & b & Hs).
    pose proof (indexOf_none _ _ H a (p ++ b) Hs) as Hn.
    rewrite strip_prefix_app in Hn. discriminate.
  - intros H. destruct (indexOf p s) as [k|] eqn:E; [|reflexivity].
    exfalso. apply H. destruct (indexOf_split _ _ _ E) as [Hs _].
    unfold starts_with in Hs.
    destruct (strip_prefix char_eq p (skipn k s)) as [r|] eqn:Er; [|discriminate].
    apply strip_prefix_sound in Er.
    exists (firstn k s), r. rewrite <- Er. symmetry. apply firstn_skipn.
Qed.

Lemma includes_false_occurs (p s : str) :
  includes p s = false <-> ~ occurs p s.
Proof.
  rewrite <- indexOf_none_occurs. unfold includes.
  destruct (indexOf p s); split; congruence.
Qed.

(* ================================================================== *)
(** ** The version line *)

Lemma nondigit_len (c : char) (t : str) :
  match_len re_nondigit (c :: t) = if is_digit c then None else Some 1%nat.
Proof.
  unfold match_len, re_nondigit. destruct (is_digit c); [reflexivity|].
  f_equal. simpl length. lia.
Qed.

Lemma digits_of_filter (v : str) : digits_of v = filter is_digit v.
Proof.
  unfold digits_of, replace_all.
  induction v as [|c t IH]; [reflexivity|].
  simpl replace_scan. rewrite nondigit_len. simpl filter.
  destruct (is_digit c); simpl; now rewrite IH.
Qed.

Lemma digits_of_all (v : str) :
  Forall (fun c => is_digit c = true) (digits_of v).
Proof.
  rewrite digits_of_filter. apply Forall_forall. intros c Hc.
  now apply filter_In in Hc.
Qed.

Ltac compare_chars :=
  repeat match goal with
  | |- context [N.eqb ?a ?b] => destruct (N.eqb_spec a b); try lia
  | |- context [N.leb ?a ?b] => destruct (N.leb_spec a b); try lia
  end; simpl; try reflexivity; try lia.

Lemma digit_bounds (c : char) : is_digit c = true -> 48 <= c <= 57.
Proof.
  unfold is_digit. intros H. apply andb_true_iff in H as [H1 H2].
  apply N.leb_le in H1, H2. lia.
Qed.

Lemma digit_not_space (c : char) : is_digit c = true -> is_space c = false.
Proof. intros H%digit_bounds. unfold is_space. compare_chars. Qed.

Lemma digit_not_nl (c : char) : is_digit c = true -> is_nl c = false.
Proof. intros H%digit_bounds. unfold is_nl, nl. compare_chars. Qed.

Lemma digit_not_backtick (c : char) : is_digit c = true -> c <> backtick.
Proof. intros H%digit_bounds. unfold backtick. lia. Qed.

Lemma nl_is_space (c : char) : is_nl c = true -> is_space c = true.
Proof. unfold is_nl, nl. intros H%N.eqb_eq. now subst. Qed.

Lemma not_space_not_nl (s : str) : not_headed is_space s -> not_headed is_nl s.
Proof.
  destruct s as [|c t]; simpl; [auto|]. intros H.
  destruct (is_nl c) eqn:E; [|reflexivity].
  apply nl_is_space in E. congruence.
Qed.

Lemma trimStart_fix (s : str) : trimStart s = s <-> not_headed is_space s.
Proof.
  rewrite trimStart_drop. split.
  - intros <-. apply drop_while_head.
  - apply drop_while_not_headed.
Qed.

Lemma versionTag_no_nl (v : str) : no_nl (versionTag v).
Proof.
  unfold versionTag, no_nl. apply Forall_app. split.
  - unfold version_marker. repeat constructor.
  - eapply Forall_impl; [|apply digits_of_all]. apply digit_not_nl.
Qed.

Lemma versionTag_no_backtick (v : str) :
  Forall (fun c => c <> backtick) (versionTag v ++ [nl]).
Proof.
  unfold versionTag. rewrite !Forall_app. repeat split.
  - unfold version_marker. repeat constructor; discriminate.
  - eapply Forall_impl; [|apply digits_of_all]. apply digit_not_backtick.
  - repeat constructor. discriminate.
Qed.

Lemma versionTag_nonempty (v : str) : versionTag v <> [].
Proof. unfold versionTag. discriminate. Qed.

(** The output of [postProcessCode] always starts with the version line
    built from the digits of the version; the rest is the stripped text with
    its blank runs collapsed. *)
Lemma postProcessCode_shape (x v : str) :
  postProcessCode x v
  = versionTag v ++ nl :: collapse_run 1 (strip_versionTags (extract_block x)).
Proof.
  unfold postProcessCode. rewrite collapse_blankRuns_spec.
  fold (versionTag v).
  rewrite collapse_run_prefix
    by (apply versionTag_no_nl || apply versionTag_nonempty).
  reflexivity.
Qed.

Lemma starts_tag_iff (b : str) :
  starts_tag b = true <->
  exists d r, is_digit d = true /\ b = version_marker ++ d :: r.
Proof.
  unfold starts_tag. split.
  - destruct (strip_prefix char_eq version_marker b) as [[|c t]|] eqn:E;
      try discriminate.
    intros H. apply strip_prefix_sound in E. now exists c, t.
  - intros (d & r & Hd & ->). now rewrite strip_prefix_app.
Qed.

Lemma test_versionTag_false (s : str) :
  test re_versionTag s = false <->
  forall d, is_digit d = true -> ~ occurs (version_marker ++ [d]) s.
Proof.
  unfold test. split.
  - intros H d Hd (a & b & Hs).
    pose proof (matches_nowhere _ _ H a ((version_marker ++ [d]) ++ b) Hs) as Hn.
    destruct (versionTag_some ((version_marker ++ [d]) ++ b)) as [n Hn'].
    + apply starts_tag_iff. exists d, b. split; [exact Hd|].
      now rewrite <- app_assoc.
    + congruence.
  - intros H. apply matches_nowhere_intro. intros a b Hs.
    apply versionTag_none. destruct (starts_tag b) eqn:E; [|reflexivity].
    exfalso. apply starts_tag_iff in E as (d & r & Hd & ->).
    apply (H d Hd). exists a, r. now rewrite <- app_assoc.
Qed.

Lemma test_versionTag_collapse (s : str) (n : nat) :
  test re_versionTag s = false ->
  test re_versionTag (collapse_run n s) = false.
Proof.
  rewrite !test_versionTag_false. intros H d Hd Ho.
  apply (H d Hd). revert Ho. apply occurs_collapse_run.
  - apply Forall_app. split.
    + unfold version_marker. repeat constructor.
    + repeat constructor. now apply digit_not_nl.
  - unfold version_marker. discriminate.
Qed.

Lemma collapse_run_head (s : str) :
  not_headed is_space s -> not_headed is_space (collapse_run 0 s).
Proof.
  intros H. pose proof (not_space_not_nl _ H) as H'.
  destruct s as [|c t]; simpl in *; [exact I|]. now rewrite H'.
Qed.

Lemma codeBlock_here_none (s : str) :
  strip_prefix char_eq fence s = None -> codeBlock_here s = None.
Proof. intros H. unfold codeBlock_here, lit. now rewrite H. Qed.

(** The version line in front of a text that neither starts with white
    space nor holds a declaration is removed with its newline, and nothing
    else is. *)
Lemma strip_versionTags_line (v r : str) :
  digits_of v <> [] ->
  not_headed is_space r ->
  test re_versionTag r = false ->
  strip_versionTags (versionTag v ++ nl :: r) = r.
Proof.
  intros Hd Hr Ht. unfold strip_versionTags, replace_all.
  replace (versionTag v ++ nl :: r) with ((versionTag v ++ [nl]) ++ r)
    by (now rewrite <- app_assoc).
  rewrite replace_scan_match.
  - simpl. now apply replace_scan_id.
  - destruct (versionTag v); discriminate.
  - rewrite versionTag_len. unfold versionTag.
    rewrite <- !app_assoc. rewrite strip_prefix_app.
    pose proof (digits_of_all v) as Hall.
    destruct (digits_of v) as [|d ds]; [congruence|].
    inversion Hall as [|? ? Hd1 Hds]; subst.
    cbn [app]. rewrite Hd1.
    rewrite drop_while_app_all by exact Hds.
    change (drop_while is_digit (nl :: r)) with (nl :: r).
    change (trimStart (nl :: r)) with (trimStart r).
    rewrite (proj2 (trimStart_fix r) Hr).
    f_equal. rewrite !length_app. simpl length. rewrite !length_app.
    simpl length. lia.
Qed.

(* ================================================================== *)
(** ** Fenced blocks, as occurrences

    The code-block pattern matches somewhere in a text exactly when the
    text holds two triple backticks that do not overlap. *)

Lemma star_some {R} (p : char -> bool) (s : str) (K : cont R) (x : R) :
  star p s K = Some x -> exists a r, s = a ++ r /\ K r = Some x.
Proof.
  induction s as [|c t IH]; simpl; intros H.
  - now exists [], [].
  - destruct (p c); [|now exists [], (c :: t)].
    destruct (star p t K) as [y|] eqn:E; [|now exists [], (c :: t)].
    injection H as ->. destruct (IH eq_refl) as (a & r & -> & Hr).
    now exists (c :: a), r.
Qed.

Lemma any_lazy_some {R} (s : str) (K : cont R) (x : R) :
  any_lazy s K = Some x -> exists a r, s = a ++ r /\ K r = Some x.
Proof.
  induction s as [|c t IH]; simpl; intros H.
  - destruct (K []) eqn:E; [|discriminate].
    exists [], []. split; [reflexivity|congruence].
  - destruct (K (c :: t)) eqn:E.
    + exists [], (c :: t). split; [reflexivity|congruence].
    + destruct (IH H) as (a & r & -> & Hr). now exists (c :: a), r.
Qed.

Lemma lit_some {R} (eq : char -> char -> bool) (p s : str) (K : cont R) (x : R) :
  match strip_prefix eq p s with Some r => K r | None => None end = Some x ->
  exists a r, s = a ++ r /\ length a = length p /\ K r = Some x.
Proof.
  revert s. induction p as [|c p IH]; intros s H; simpl in H.
  - now exists [], s.
  - destruct s as [|d s]; [discriminate|].
    destruct (eq c d); [|discriminate].
    destruct (IH _ H) as (a & r & -> & Hl & Hr).
    exists (d :: a), r. simpl. auto.
Qed.

Lemma star_reach {R} (p : char -> bool) (s : str) (K : cont R) :
  K s <> None -> star p s K <> None.
Proof.
  intros H. destruct s as [|c t]; simpl; [exact H|].
  destruct (p c); [|exact H].
  destruct (star p t K); [discriminate|exact H].
Qed.

Lemma any_lazy_reach {R} (a r : str) (K : cont R) :
  K r <> None -> any_lazy (a ++ r) K <> None.
Proof.
  intros H. induction a as [|c a IH]; simpl.
  - destruct r as [|d r]; simpl; destruct (K _); congruence.
  - destruct (K (c :: a ++ r)); [discriminate|exact IH].
Qed.

Lemma codeBlock_here_some (s g rest : str) :
  codeBlock_here s = Some (g, rest) ->
  exists b, s = fence ++ b ++ fence ++ rest.
Proof.
  unfold codeBlock_here, lit. intros H.
  destruct (strip_prefix char_eq fence s) as [s1|] eqn:E1; [|discriminate].
  apply strip_prefix_sound in E1. subst s.
  assert (H2 : exists a2 s2, s1 = a2 ++ s2 /\
            star is_space s2 (fun s3 =>
              any_lazy s3 (fun s4 =>
                star is_space s4 (fun s5 =>
                  match strip_prefix char_eq fence s5 with
                  | Some s6 => Some (firstn (length s3 - length s4) s3, s6)
                  | None => None
                  end))) = Some (g, rest)).
  { unfold alt, lit_ci, eps in H.
    match type of H with
    | match ?A with Some _ => _ | None => _ end = _ =>
        destruct A as [y|] eqn:EA
    end.
    - injection H as ->. apply lit_some in EA.
      destruct EA as (a & r & -> & _ & Hr). now exists a, r.
    - match type of H with
      | match ?B with Some _ => _ | None => _ end = _ =>
          destruct B as [y|] eqn:EB
      end.
      + injection H as ->. apply lit_some in EB.
        destruct EB as (a & r & -> & _ & Hr). now exists a, r.
      + now exists [], s1. }
  clear H. destruct H2 as (a2 & s2 & -> & H).
  apply star_some in H. destruct H as (a3 & s3 & -> & H).
  apply any_lazy_some in H. destruct H as (a4 & s4 & -> & H).
  apply star_some in H. destruct H as (a5 & s5 & -> & H).
  destruct (strip_prefix char_eq fence s5) as [s6|] eqn:E6; [|discriminate].
  apply strip_prefix_sound in E6. subst s5. injection H as _ ->.
  exists (a2 ++ a3 ++ a4 ++ a5). now rewrite <- !app_assoc.
Qed.

Lemma codeBlock_here_fence (b c : str) :
  codeBlock_here (fence ++ b ++ fence ++ c) <> None.
Proof.
  unfold codeBlock_here, lit. rewrite strip_prefix_app.
  assert (H : star is_space (b ++ fence ++ c) (fun s3 =>
              any_lazy s3 (fun s4 =>
                star is_space s4 (fun s5 =>
                  match strip_prefix char_eq fence s5 with
                  | Some s6 => Some (firstn (length s3 - length s4) s3, s6)
                  | None => None
                  end))) <> None).
  { apply star_reach. apply any_lazy_reach.
    change (fence ++ c) with (backtick :: backtick :: backtick :: c).
    cbn [star]. change (is_space backtick) with false. cbv iota.
    change (backtick :: backtick :: backtick :: c) with (fence ++ c).
    rewrite strip_prefix_app. discriminate. }
  unfold alt, eps.
  match goal with
  | |- match ?A with Some _ => _ | None => _ end <> None =>
      destruct A; [discriminate|]
  end.
  match goal with
  | |- match ?A with Some _ => _ | None => _ end <> None =>
      destruct A; [discriminate|]
  end.
  exact H.
Qed.

Lemma codeBlock_from_eq (i : nat) (s : str) :
  codeBlock_from i s =
  match codeBlock_here s with
  | Some (g, rest) =>
      Some {| m_index := i;
              m_whole := firstn (length s - length rest) s;
              m_group1 := g |}
  | None =>
      match s with
      | [] => None
      | _ :: t => codeBlock_from (S i) t
      end
  end.
Proof. destruct s; reflexivity. Qed.

Lemma codeBlock_from_none (s : str) :
  forall i,
  codeBlock_from i s = None <->
  (forall a t, s = a ++ t -> codeBlock_here t = None).
Proof.
  induction s as [|c s IH]; intros i; rewrite codeBlock_from_eq.
  - split.
    + intros H a t E. destruct a; [|discriminate]. simpl in E. subst t.
      destruct (codeBlock_here []) as [[g r]|]; [discriminate|reflexivity].
    + intros H. now rewrite (H [] [] eq_refl).
  - split.
    + intros H a t E.
      destruct (codeBlock_here (c :: s)) as [[g r]|] eqn:E0; [discriminate|].
      destruct a as [|d a]; simpl in E.
      * now subst t.
      * injection E as _ E. apply (proj1 (IH (S i)) H a t E).
    + intros H. rewrite (H [] (c :: s) eq_refl).
      apply IH. intros a t E. apply (H (c :: a) t). now rewrite E.
Qed.

(** The pattern finds a block exactly in the fenced texts. *)
Lemma match_codeBlock_none (s : str) :
  match_codeBlock s = None <-> ~ fenced s.
Proof.
  unfold match_codeBlock. rewrite codeBlock_from_none. split.
  - intros H (a & b & c & E).
    apply (codeBlock_here_fence b c). apply (H a _ E).
  - intros H a t E.
    destruct (codeBlock_here t) as [[g r]|] eqn:E0; [|reflexivity].
    exfalso. apply H. apply codeBlock_here_some in E0.
    destruct E0 as [b ->]. now exists a, b, r.
Qed.

Lemma fenced_skip (pre r : str) :
  Forall (fun c => c <> backtick) pre -> fenced (pre ++ r) -> fenced r.
Proof.
  intros Hp. induction Hp as [|d pre Hd _ IH]; [auto|].
  intros (a & b & c & E). apply IH.
  destruct a as [|a0 a]; simpl in E.
  - injection E as -> _. congruence.
  - injection E as _ E. now exists a, b, c.
Qed.

Lemma split_at_fence (b : str) :
  Forall (fun c => c <> backtick) b ->
  forall x a r, a ++ b = x ++ fence ++ r ->
  exists r', a = x ++ fence ++ r' /\ r = r' ++ b.
Proof.
  intros Hb.
  assert (Hin : ~ In backtick b).
  { intros Hi. rewrite Forall_forall in Hb. now apply (Hb _ Hi). }
  induction x as [|x0 x IH]; intros a r E.
  - simpl in E. unfold fence in E.
    destruct a as [|c1 [|c2 [|c3 a]]]; simpl in E.
    + exfalso. apply Hin. rewrite E. now left.
    + injection E as _ E. exfalso. apply Hin. rewrite E. now left.
    + injection E as _ _ E. exfalso. apply Hin. rewrite E. now left.
    + injection E as -> -> -> E. exists a. split; [reflexivity|].
      symmetry. exact E.
  - destruct a as [|a0 a]; simpl in E.
    + exfalso. apply Hin. rewrite E. apply in_cons, in_or_app. right.
      now left.
    + injection E as -> E. destruct (IH _ _ E) as (r' & -> & ->).
      now exists r'.
Qed.

Lemma occurs_fence_clean (a b : str) :
  Forall (fun c => c <> backtick) b -> occurs fence (a ++ b) -> occurs fence a.
Proof.
  intros Hb (x & y & E).
  destruct (split_at_fence b Hb x a y E) as (r' & -> & _).
  now exists x, r'.
Qed.

Lemma fenced_app_clean (a b : str) :
  Forall (fun c => c <> backtick) b -> fenced (a ++ b) -> fenced a.
Proof.
  intros Hb (x & y & z & E).
  destruct (split_at_fence b Hb x a _ E) as (r' & -> & E').
  destruct (occurs_fence_clean r' b Hb) as (y' & z' & ->).
  - exists y, z. now rewrite E'.
  - now exists x, y', z'.
Qed.

Lemma collapse_run_fence_split (s : str) :
  forall n x r, collapse_run n s = x ++ fence ++ r ->
  exists x' r' n', s = x' ++ fence ++ r' /\ r = collapse_run n' r'.
Proof.
  induction s as [|c t IH]; intros n x r H; simpl in H.
  - destruct x; discriminate.
  - destruct (is_nl c) eqn:Ec.
    + destruct (n <? 2)%nat.
      * destruct x as [|x0 x]; simpl in H.
        -- injection H as -> _. discriminate.
        -- injection H as _ H. destruct (IH _ _ _ H) as (x' & r' & n' & -> & ->).
           now exists (c :: x'), r', n'.
      * destruct (IH _ _ _ H) as (x' & r' & n' & -> & ->).
        now exists (c :: x'), r', n'.
    + destruct x as [|x0 x]; simpl in H.
      * injection H as -> H.
        assert (Hp : no_nl [backtick; backtick]) by (repeat constructor).
        destruct (collapse_run_starts _ Hp _ _ H) as [r' ->].
        rewrite (collapse_run_prefix 0 _ r' Hp) in H by discriminate.
        simpl in H. injection H as H.
        exists [], r', 0%nat. split; [reflexivity|now symmetry].
      * injection H as _ H. destruct (IH _ _ _ H) as (x' & r' & n' & -> & ->).
        now exists (c :: x'), r', n'.
Qed.

Lemma fenced_collapse_run (s : str) (n : nat) :
  fenced (collapse_run n s) -> fenced s.
Proof.
  intros (a & b & c & E).
  destruct (collapse_run_fence_split s n a _ E) as (x' & r' & n' & -> & E').
  assert (Hf : no_nl fence) by (repeat constructor).
  destruct (occurs_collapse_run fence Hf ltac:(discriminate) r' n')
    as (b' & c' & ->).
  - exists b, c. now rewrite <- E'.
  - now exists x', b', c'.
Qed.

(* ================================================================== *)
(** ** Normalization twice *)

(** C1, as stated, fails on an irregular blank run at the start of the
    text: the first pass leaves a blank line after the version line, and
    the second pass removes it together with the version line it strips. *)
Lemma postProcessCode_not_idempotent :
  postProcessCode (u "


plot(close)") (u "v6") = u "//@version=6

plot(close)"
  /\ postProcessCode (postProcessCode (u "


plot(close)") (u "v6")) (u "v6") = u "//@version=6
plot(close)"
  /\ postProcessCode (postProcessCode (u "


plot(close)") (u "v6")) (u "v6")
     <> postProcessCode (u "


plot(close)") (u "v6").
Proof.
  split; [vm_compute; reflexivity|].
  split; [vm_compute; reflexivity|].
  vm_compute. discriminate.
Qed.

(** C1, amended.  Let [s] be the text left by the first two steps (fence
    extraction, removal of the version declarations).  When the version
    holds a digit and [s] does not start with white space, holds no version
    declaration and no fenced block (the code-block pattern finds nothing
    in it), normalizing the output again gives the same output.  Version
    lines and blank runs in the input are covered, and so is a triple
    backtick without a second one. *)
Theorem postProcessCode_idempotent (x v : str) :
  digits_of v <> [] ->
  trimStart (strip_versionTags (extract_block x))
    = strip_versionTags (extract_block x) ->
  test re_versionTag (strip_versionTags (extract_block x)) = false ->
  match_codeBlock (strip_versionTags (extract_block x)) = None ->
  postProcessCode (postProcessCode x v) v = postProcessCode x v.
Proof.
  intros Hd Hs Ht Hf.
  rewrite (postProcessCode_shape x v).
  remember (strip_versionTags (extract_block x)) as s eqn:Es. clear Es x.
  apply trimStart_fix in Hs.
  rewrite (collapse_run_restart 1 s) by now apply not_space_not_nl.
  pose proof (collapse_run_head s Hs) as Hr.
  pose proof (test_versionTag_collapse s 0 Ht) as Htr.
  assert (Hfr : ~ fenced (collapse_run 0 s)).
  { intros H. apply match_codeBlock_none in Hf. apply Hf.
    now apply (fenced_collapse_run s 0). }
  pose proof (collapse_run_idem 0 s) as Hidem.
  remember (collapse_run 0 s) as r eqn:Er. clear Er s Hs Ht Hf.
  rewrite postProcessCode_shape.
  assert (Hy : match_codeBlock (versionTag v ++ nl :: r) = None).
  { apply match_codeBlock_none. intros H. apply Hfr.
    apply (fenced_skip (versionTag v ++ [nl])).
    - apply versionTag_no_backtick.
    - now rewrite <- app_assoc. }
  unfold extract_block. rewrite Hy.
  rewrite strip_versionTags_line by assumption.
  rewrite (collapse_run_restart 1 r) by now apply not_space_not_nl.
  now rewrite Hidem.
Qed.

Lemma postProcessCode_idempotent_witness :
  postProcessCode
    (postProcessCode (u "//@version=5
//@version=4
plot(close)



plot(open) // ``` stray") (u "v6")) (u "v6")
  = postProcessCode (u "//@version=5
//@version=4
plot(close)



plot(open) // ``` stray") (u "v6").
Proof.
  apply postProcessCode_idempotent.
  - vm_compute. discriminate.
  - vm_compute. reflexivity.
  - vm_compute. reflexivity.
  - vm_compute. reflexivity.
Defined.

(* ================================================================== *)
(** ** One version line *)

Lemma count_scan_skip (m : str -> option nat) (pre r : str) :
  count_scan m (length pre) (pre ++ r) = count_scan m 0 r.
Proof. induction pre as [|c pre IH]; simpl; [reflexivity|exact IH]. Qed.

Lemma count_scan_none (m : str -> option nat) (s : str) :
  matches_somewhere m s = false -> count_scan m 0 s = 0%nat.
Proof.
  induction s as [|c t IH]; simpl; intros H.
  - now destruct (m []).
  - destruct (m (c :: t)); [discriminate|]. now apply IH.
Qed.

Lemma matches_somewhere_suffix (m : str -> option nat) (a b : str) :
  matches_somewhere m (a ++ b) = false -> matches_somewhere m b = false.
Proof.
  intros H. apply matches_nowhere_intro. intros a' b' ->.
  apply (matches_nowhere _ _ H (a ++ a') b'). now rewrite app_assoc.
Qed.

(** When the version holds a digit and the removal pass leaves no version
    declaration behind, the output holds exactly one: its first line. *)
Lemma postProcessCode_one_version_line (x v : str) :
  digits_of v <> [] ->
  test re_versionTag (strip_versionTags (extract_block x)) = false ->
  count_matches re_versionTag (postProcessCode x v) = 1%nat.
Proof.
  intros Hd Ht. rewrite postProcessCode_shape.
  pose proof (test_versionTag_collapse _ 1 Ht) as Hr.
  remember (collapse_run 1 (strip_versionTags (extract_block x))) as r eqn:Er.
  clear Er Ht x.
  pose proof (take_drop_while is_space r) as Hsplit.
  rewrite <- trimStart_drop in Hsplit.
  assert (Hrest : matches_somewhere (match_len re_versionTag) (trimStart r) = false).
  { unfold test in Hr. rewrite Hsplit in Hr.
    now apply matches_somewhere_suffix in Hr. }
  assert (Hm : match_len re_versionTag (versionTag v ++ nl :: r)
               = Some (length (versionTag v ++ nl :: take_while is_space r))).
  { rewrite versionTag_len. unfold versionTag.
    rewrite <- !app_assoc. rewrite strip_prefix_app.
    pose proof (digits_of_all v) as Hall.
    destruct (digits_of v) as [|d ds]; [congruence|].
    inversion Hall as [|? ? Hd1 Hds]; subst.
    cbn [app]. rewrite Hd1.
    rewrite drop_while_app_all by exact Hds.
    change (drop_while is_digit (nl :: r)) with (nl :: r).
    change (trimStart (nl :: r)) with (trimStart r).
    f_equal. rewrite Hsplit at 1.
    rewrite !length_app. simpl length. rewrite !length_app. simpl length.
    rewrite !length_app. lia. }
  unfold count_matches.
  assert (Hs : versionTag v ++ nl :: r
               = (versionTag v ++ nl :: take_while is_space r) ++ trimStart r).
  { rewrite <- app_assoc. simpl. now rewrite <- Hsplit. }
  rewrite Hs in Hm |- *.
  destruct (versionTag v ++ nl :: take_while is_space r) as [|c pre] eqn:Epre.
  { destruct (versionTag v); discriminate. }
  cbn [app count_scan] in Hm |- *. simpl length in Hm. rewrite Hm.
  rewrite count_scan_skip. now rewrite count_scan_none.
Qed.

(** C5 at a text in which a version declaration sits inside the pieces of
    another one: the single removal pass splices the pieces together, and
    the output holds two version lines. *)
Theorem postProcessCode_two_version_lines :
  postProcessCode (u "//@ver//@version=5sion=7") (u "v6")
  = u "//@version=6
//@version=7"
  /\ count_matches re_versionTag
       (postProcessCode (u "//@ver//@version=5sion=7") (u "v6")) = 2%nat.
Proof. split; vm_compute; reflexivity. Qed.

(* ================================================================== *)
(** ** A refinement turn that cannot be parsed *)

Lemma strip_prefix_app_some (eq : char -> char -> bool) (p a r x : str) :
  strip_prefix eq p a = Some r -> strip_prefix eq p (a ++ x) = Some (r ++ x).
Proof.
  revert a. induction p as [|c p IH]; intros a H; simpl in *.
  - now inversion H.
  - destruct a as [|d a]; [discriminate|]. simpl.
    destruct (eq c d); [now apply IH|discriminate].
Qed.

(** A prefix test that fails on [a] still fails on [a] followed by a
    character the pattern does not hold. *)
Lemma strip_prefix_app_none (eq : char -> char -> bool) (p a x : str) (c : char) :
  Forall (fun d => eq d c = false) p ->
  strip_prefix eq p a = None -> strip_prefix eq p (a ++ c :: x) = None.
Proof.
  intros Hp. revert a. induction Hp as [|d p Hd _ IH]; intros a H; simpl in *.
  - discriminate.
  - destruct a as [|e a]; simpl.
    + now rewrite Hd.
    + destruct (eq d e); [now apply IH|reflexivity].
Qed.

Lemma drop_while_app_stop (p : char -> bool) (t x : str) (c : char) :
  p c = false -> drop_while p (t ++ c :: x) = drop_while p t ++ c :: x.
Proof.
  intros Hc. induction t as [|d t IH]; simpl; [now rewrite Hc|].
  destruct (p d); [exact IH|reflexivity].
Qed.

Lemma trimStart_app (d z : str) :
  trimStart (d ++ z) =
  match trimStart d with
  | [] => trimStart z
  | _ :: _ => trimStart d ++ z
  end.
Proof.
  induction d as [|c d IH]; simpl; [reflexivity|].
  destruct (is_space c); [exact IH|reflexivity].
Qed.

Lemma trimStart_length (s : str) : (length (trimStart s) <= length s)%nat.
Proof. rewrite trimStart_drop. apply drop_while_length. Qed.

Lemma matches_somewhere_skip (m : str -> option nat) (c : char) (t : str) :
  m (c :: t) = None -> matches_somewhere m (c :: t) = matches_somewhere m t.
Proof. intros H. simpl. now rewrite H. Qed.

Section FailureMarker.
(** The comment [E] after two newlines; it starts with a slash and holds
    no version declaration. *)
Variable E : str.
Hypothesis E_head : not_headed is_space E.
Hypothesis E_clean : test re_versionTag E = false.

Let M : str := nl :: nl :: E.
Let m := match_len re_versionTag.

(** A declaration found in [a] is found in [a ++ M] at the same place; it
    is two characters longer when it reaches the end of [a], since its
    white space then takes the two newlines. *)
Lemma versionTag_len_app (a : str) :
  match m a with
  | None => m (a ++ M) = None
  | Some L =>
      ((L < length a)%nat /\ m (a ++ M) = Some L)
      \/ (L = length a /\ m (a ++ M) = Some (L + 2)%nat)
  end.
Proof.
  unfold m, M. rewrite !versionTag_len.
  destruct (strip_prefix char_eq version_marker a) as [r|] eqn:Ea.
  - rewrite (strip_prefix_app_some _ _ _ _ (nl :: nl :: E) Ea).
    pose proof (strip_prefix_sound _ _ _ Ea) as Ha.
    destruct r as [|c t]; [reflexivity|].
    cbn [app]. destruct (is_digit c) eqn:Ec; [|reflexivity].
    rewrite drop_while_app_stop by reflexivity.
    rewrite trimStart_app.
    pose proof (trimStart_length (drop_while is_digit t)) as H1.
    pose proof (drop_while_length is_digit t) as H2.
    assert (Hlen : (length t < length a)%nat).
    { rewrite Ha, length_app. simpl. lia. }
    rewrite length_app.
    destruct (trimStart (drop_while is_digit t)) as [|c0 T] eqn:ET.
    + right. split; [simpl; lia|]. f_equal.
      change (trimStart (nl :: nl :: E)) with (trimStart E).
      rewrite (proj2 (trimStart_fix E) E_head). simpl length. lia.
    + left. rewrite length_app. simpl length in *. split; [lia|].
      f_equal. lia.
  - rewrite strip_prefix_app_none; [reflexivity| |exact Ea].
    unfold version_marker. repeat constructor.
Qed.

Lemma scan_marker_only : replace_scan m [] 0 M = M.
Proof.
  apply replace_scan_id. unfold M.
  rewrite matches_somewhere_skip by (apply versionTag_none; reflexivity).
  rewrite matches_somewhere_skip by (apply versionTag_none; reflexivity).
  exact E_clean.
Qed.

Lemma scan_past (a : str) : replace_scan m [] (length a + 2) (a ++ M) = E.
Proof.
  replace (a ++ M) with ((a ++ [nl; nl]) ++ E)
    by (unfold M; now rewrite <- app_assoc).
  replace (length a + 2)%nat with (length (a ++ [nl; nl]))
    by (rewrite length_app; reflexivity).
  rewrite replace_scan_skip. now apply replace_scan_id.
Qed.

Lemma scan_to_end (a : str) : replace_scan m [] (length a) a = [].
Proof.
  rewrite <- (app_nil_r a) at 2. rewrite replace_scan_skip. reflexivity.
Qed.

Lemma scan_app_marker (a : str) :
  forall k, (k <= length a)%nat ->
  exists w, (w = [] \/ w = [nl; nl])
    /\ replace_scan m [] k (a ++ M) = replace_scan m [] k a ++ w ++ E.
Proof.
  induction a as [|c t IH]; intros k Hk.
  - simpl in Hk. assert (k = 0%nat) by lia. subst.
    exists [nl; nl]. split; [now right|].
    simpl app at 1. rewrite scan_marker_only. reflexivity.
  - destruct k as [|k].
    + pose proof (versionTag_len_app (c :: t)) as H.
      cbn [app replace_scan]. fold m.
      destruct (m (c :: t)) as [L|] eqn:EL.
      * destruct H as [[HL H]|[HL H]]; cbn [app] in H; rewrite H.
        -- destruct L as [|n].
           ++ destruct (IH 0%nat) as (w & Hw & ->); [lia|].
              exists w. split; [exact Hw|reflexivity].
           ++ destruct (IH n) as (w & Hw & ->); [simpl in HL; lia|].
              exists w. split; [exact Hw|reflexivity].
        -- subst L. simpl length.
           replace (S (length t) + 2)%nat with (S (length t + 2)) by lia.
           rewrite scan_past, scan_to_end.
           exists []. split; [now left|reflexivity].
      * cbn [app] in H. rewrite H.
        destruct (IH 0%nat) as (w & Hw & ->); [lia|].
        exists w. split; [exact Hw|reflexivity].
    + cbn [app replace_scan].
      destruct (IH k) as (w & Hw & ->); [simpl in Hk; lia|].
      exists w. split; [exact Hw|reflexivity].
Qed.
End FailureMarker.

Lemma forallb_Forall (p : char -> bool) (s : str) :
  forallb p s = true -> Forall (fun c => p c = true) s.
Proof. intros H. apply Forall_forall. now apply forallb_forall. Qed.

Lemma refine_failure_comment_no_nl : no_nl refine_failure_comment.
Proof.
  apply (Forall_impl _ (P := fun c => negb (is_nl c) = true)).
  - intros c. now destruct (is_nl c).
  - apply forallb_Forall. vm_compute. reflexivity.
Qed.

Lemma refine_failure_marker_no_backtick :
  Forall (fun c => c <> backtick) refine_failure_marker.
Proof.
  apply (Forall_impl _ (P := fun c => negb (c =? backtick) = true)).
  - intros c H ->. rewrite N.eqb_refl in H. discriminate.
  - apply forallb_Forall. vm_compute. reflexivity.
Qed.

(** After removing the version declarations the prior code is still there,
    followed by the comment; the two newlines in between are taken when a
    declaration ends the prior code. *)
Lemma strip_versionTags_marker (cur : str) :
  exists w, (w = [] \/ w = [nl; nl])
    /\ strip_versionTags (cur ++ refine_failure_marker)
       = strip_versionTags cur ++ w ++ refine_failure_comment.
Proof.
  unfold strip_versionTags, replace_all, refine_failure_marker.
  apply (scan_app_marker refine_failure_comment).
  - vm_compute. reflexivity.
  - vm_compute. reflexivity.
  - lia.
Qed.

Lemma postProcessCode_marker (cur v : str) :
  match_codeBlock cur = None ->
  exists x, Forall (fun c => is_nl c = true) x
    /\ postProcessCode (cur ++ refine_failure_marker) v
       = postProcessCode cur v ++ x ++ refine_failure_comment.
Proof.
  intros Hf.
  assert (Hf' : match_codeBlock (cur ++ refine_failure_marker) = None).
  { apply match_codeBlock_none. intros H.
    apply match_codeBlock_none in Hf. apply Hf.
    apply (fenced_app_clean _ _ refine_failure_marker_no_backtick H). }
  rewrite !postProcessCode_shape. unfold extract_block.
  rewrite Hf, Hf'.
  destruct (strip_versionTags_marker cur) as (w & Hw & ->).
  rewrite !collapse_run_app.
  rewrite (collapse_run_no_nl _ _ refine_failure_comment_no_nl).
  exists (collapse_run (nl_state 1 (strip_versionTags cur)) w). split.
  - apply collapse_run_all_nl.
    destruct Hw as [->| ->]; repeat constructor.
  - rewrite <- app_assoc. reflexivity.
Qed.

(** C2, as stated, fails: the prior code was generated for another
    version, the normalizer replaces its version line, and the returned
    code no longer holds the prior code as a substring. *)
Lemma refine_failure_rewrites_version :
  match_codeBlock (u "Sorry, I could not produce the script.") = None
  /\ indexOf version_marker (u "Sorry, I could not produce the script.") = None
  /\ snd (refinePineScript (u "//@version=5
plot(close)") (u "make it red") example_params ai_apology)
     = inr {| code := u "//@version=6
plot(close)

// ERROR: AI failed to generate the updated code block. Please try refining again.";
              explanation := refine_failure_explanation |}
  /\ includes (u "//@version=5
plot(close)") (u "//@version=6
plot(close)

// ERROR: AI failed to generate the updated code block. Please try refining again.")
     = false.
Proof. repeat split; vm_compute; reflexivity. Qed.

(** A prior code that holds a fenced block: the block is taken out of the
    prior code and the failure comment is lost. *)
Lemma refine_failure_fenced_prior_code :
  match_codeBlock (u "// a ```plot(close)``` b") <> None
  /\ snd (refinePineScript (u "// a ```plot(close)``` b") (u "make it red")
            example_params ai_apology)
     = inr {| code := u "//@version=6
plot(close)";
              explanation := refine_failure_explanation |}.
Proof. split; [vm_compute; discriminate|vm_compute; reflexivity]. Qed.

(** C2, amended.  When the response holds neither a fenced block nor a
    version marker, the turn makes its one request and returns the failure
    explanation, and its code is the normalization of the prior code
    followed by the failure marker.  When the prior code holds no fenced
    block, that code is the normalization of the prior code, newlines, and
    the failure comment; and when the prior code is already normalized for
    the version of the turn, it is itself the prefix. *)
Theorem refine_failure_keeps_code (currentCode instruction : str)
  (p : PineScriptParams) (ai : service) (resp : response) :
  ai (refine_request currentCode instruction p) = inr resp ->
  match_codeBlock (text_or resp []) = None ->
  indexOf version_marker (text_or resp []) = None ->
  exists r,
    refinePineScript currentCode instruction p ai
    = ([GenerateContent (refine_request currentCode instruction p)], inr r)
    /\ explanation r = refine_failure_explanation
    /\ code r = postProcessCode (currentCode ++ refine_failure_marker)
                  (version p)
    /\ (match_codeBlock currentCode = None ->
        exists x,
          Forall (fun c => is_nl c = true) x
          /\ code r = postProcessCode currentCode (version p)
                      ++ x ++ refine_failure_comment
          /\ (postProcessCode currentCode (version p) = currentCode ->
              code r = currentCode ++ x ++ refine_failure_comment)).
Proof.
  intros Hai Hm Hi.
  unfold refinePineScript, generateContent, bind, try_catch, ret.
  rewrite Hai. unfold extract_refined. rewrite Hm, Hi.
  eexists. split; [reflexivity|]. simpl code. simpl explanation.
  split; [reflexivity|]. split; [reflexivity|].
  intros Hf.
  destruct (postProcessCode_marker currentCode (version p) Hf) as (x & Hx & Hpp).
  exists x. split; [exact Hx|]. split; [exact Hpp|].
  intros Hfix. now rewrite Hpp, Hfix.
Qed.

Lemma refine_failure_keeps_code_witness :
  exists r,
    refinePineScript (u "//@version=6
plot(close) // ``` stray") (u "make it red") example_params ai_apology
    = ([GenerateContent (refine_request (u "//@version=6
plot(close) // ``` stray") (u "make it red") example_params)], inr r)
    /\ explanation r = refine_failure_explanation
    /\ exists x,
         Forall (fun c => is_nl c = true) x
         /\ code r = u "//@version=6
plot(close) // ``` stray" ++ x ++ refine_failure_comment.
Proof.
  destruct (refine_failure_keeps_code (u "//@version=6
plot(close) // ``` stray") (u "make it red") example_params ai_apology
              {| text := Some (u "Sorry, I could not produce the script.") |})
    as (r & Hrun & He & _ & H).
  - reflexivity.
  - vm_compute. reflexivity.
  - vm_compute. reflexivity.
  - destruct H as (x & Hx & _ & Hfix).
    + vm_compute. reflexivity.
    + exists r. split; [exact Hrun|]. split; [exact He|].
      exists x. split; [exact Hx|]. apply Hfix. vm_compute. reflexivity.
Defined.

(* ================================================================== *)
(** ** The fenced block *)

Lemma space_not_backtick (c : char) : is_space c = true -> c <> backtick.
Proof. intros H ->. discriminate. Qed.

Lemma lit_fence_space {R} (c : char) (t : str) (K : cont R) :
  is_space c = true -> lit fence (c :: t) K = None.
Proof.
  intros H. unfold lit, fence. cbn [strip_prefix]. unfold char_eq.
  destruct (N.eqb_spec backtick c) as [<-|]; [discriminate|reflexivity].
Qed.

(** White space and then the closing fence: the fence has to follow the
    whole run of white space. *)
Lemma star_space_fence {R} (s : str) (K : cont R) :
  star is_space s (fun s5 => lit fence s5 K) = lit fence (trimStart s) K.
Proof.
  induction s as [|c t IH]; simpl; [reflexivity|].
  destruct (is_space c) eqn:E; [|reflexivity].
  rewrite IH. destruct (lit fence (trimStart t) K); [reflexivity|].
  now apply lit_fence_space.
Qed.

Lemma star_first {R} (p : char -> bool) (s : str) (K : cont R) (x : R) :
  K (drop_while p s) = Some x -> star p s K = Some x.
Proof.
  induction s as [|c t IH]; simpl; [auto|].
  destruct (p c); [|auto]. intros H. now rewrite (IH H).
Qed.

Lemma any_lazy_here {R} (s : str) (K : cont R) (x : R) :
  K s = Some x -> any_lazy s K = Some x.
Proof. intros H. destruct s; simpl; now rewrite H. Qed.

Lemma any_lazy_skip {R} (body rest : str) (K : cont R) :
  (forall a b, body = a ++ b -> b <> [] -> K (b ++ rest) = None) ->
  any_lazy (body ++ rest) K = any_lazy rest K.
Proof.
  induction body as [|c body IH]; intros H; [reflexivity|].
  pose proof (H [] (c :: body) eq_refl ltac:(discriminate)) as H0.
  simpl in H0 |- *. rewrite H0.
  apply IH. intros a b -> Hb. now apply (H (c :: a) b).
Qed.

Lemma firstn_length_app (a b : str) :
  firstn (length (a ++ b) - length b) (a ++ b) = a.
Proof.
  rewrite length_app. replace (length a + length b - length b)%nat
    with (length a + 0)%nat by lia.
  rewrite firstn_app_2. simpl. apply app_nil_r.
Qed.

Lemma strip_prefix_longer (eq : char -> char -> bool) (p1 p2 s : str) :
  strip_prefix eq p1 s = None -> strip_prefix eq (p1 ++ p2) s = None.
Proof.
  revert s. induction p1 as [|a p1 IH]; intros s H; simpl in *; [discriminate|].
  destruct s as [|c s]; [reflexivity|].
  destruct (eq a c); [now apply IH|reflexivity].
Qed.

Lemma strip_prefix_cat (eq : char -> char -> bool) (p1 p2 h s : str) :
  strip_prefix eq p1 h = Some [] ->
  strip_prefix eq (p1 ++ p2) (h ++ s) = strip_prefix eq p2 s.
Proof.
  revert h. induction p1 as [|a p1 IH]; intros h H; simpl in *.
  - inversion H. reflexivity.
  - destruct h as [|c h]; [discriminate|]. simpl.
    destruct (eq a c); [now apply IH|discriminate].
Qed.

(** No fence starts inside [x] when [x] is followed by a fence. *)
Lemma fence_free_inside (x : str) :
  includes fence (x ++ [backtick; backtick]) = false ->
  forall a b r, x = a ++ b -> b <> [] ->
  strip_prefix char_eq fence (b ++ fence ++ r) = None.
Proof.
  unfold includes.
  destruct (indexOf fence (x ++ [backtick; backtick])) eqn:E; [discriminate|].
  intros _ a b r -> Hb.
  pose proof (indexOf_none _ _ E a (b ++ [backtick; backtick])) as H.
  rewrite <- app_assoc in H. specialize (H eq_refl).
  destruct b as [|b1 [|b2 [|b3 b]]]; [congruence| | |];
    unfold fence in *; cbn [strip_prefix app] in *;
    change (char_eq backtick backtick) with true in *; cbv iota in *;
    repeat match goal with
    | |- context [char_eq backtick ?b] => destruct (char_eq backtick b)
    end; congruence.
Qed.

(** The split of a text at the white space that ends it. *)
Lemma trimEnd_split (b : str) :
  exists trail,
    b = trimEnd b ++ trail
    /\ Forall (fun c => is_space c = true) trail
    /\ not_headed is_space (rev (trimEnd b)).
Proof.
  exists (rev (take_while is_space (rev b))). unfold trimEnd.
  rewrite trimStart_drop. repeat split.
  - rewrite <- rev_app_distr, <- take_drop_while. symmetry. apply rev_involutive.
  - apply Forall_rev. apply take_while_all.
  - rewrite rev_involutive. apply drop_while_head.
Qed.

(** Every non-empty end of a text that ends in a character other than
    white space keeps a character after [trimStart]. *)
Lemma trimStart_suffix (body a b : str) :
  not_headed is_space (rev body) ->
  body = a ++ b -> b <> [] ->
  exists w tb, b = w ++ tb /\ tb <> [] /\ forall z, trimStart (b ++ z) = tb ++ z.
Proof.
  intros Hb -> Hne.
  exists (take_while is_space b), (trimStart b).
  assert (Hnz : trimStart b <> []).
  { destruct (exists_last Hne) as (b' & c & ->).
    rewrite rev_app_distr, rev_app_distr in Hb. simpl in Hb.
    rewrite trimStart_app. simpl. rewrite Hb.
    destruct (trimStart b'); discriminate. }
  repeat split.
  - rewrite trimStart_drop. apply take_drop_while.
  - exact Hnz.
  - intros z. rewrite trimStart_app.
    destruct (trimStart b); [congruence|reflexivity].
Qed.

Lemma letters_script :
  Forall (fun d => char_eq_ci d backtick = false) (u "script").
Proof. repeat constructor. Qed.

Lemma letters_pine :
  Forall (fun d => char_eq_ci d backtick = false) (u "pine").
Proof. repeat constructor. Qed.

Lemma hint_alternatives {R} (C h rest : str) (K : cont R) (x : R) :
  language_hint C h ->
  K (C ++ backtick :: rest) = Some x ->
  alt (lit_ci (u "pinescript")) (alt (lit_ci (u "pine")) eps)
    (h ++ C ++ backtick :: rest) K = Some x.
Proof.
  intros Hh HK. unfold alt, lit_ci, eps.
  destruct Hh as [h H1|h H1 H2|H1].
  - rewrite (strip_prefix_app_some _ _ _ _ (C ++ backtick :: rest) H1).
    simpl app. now rewrite HK.
  - change (u "pinescript") with (u "pine" ++ u "script").
    rewrite (strip_prefix_cat _ _ _ _ _ H1).
    rewrite (strip_prefix_app_none _ _ _ rest _ letters_script H2).
    rewrite (strip_prefix_app_some _ _ _ _ (C ++ backtick :: rest) H1).
    simpl app. now rewrite HK.
  - simpl app.
    pose proof (strip_prefix_app_none _ _ _ rest _ letters_pine H1) as H.
    change (u "pinescript") with (u "pine" ++ u "script").
    rewrite (strip_prefix_longer _ _ _ _ H), H. exact HK.
Qed.

(** The pattern at the opening fence of a block ["```" h C "```"]: the
    capture is the interior without the white space around it, and the
    match ends with the closing fence. *)
Lemma codeBlock_here_fenced (h C E2 : str) :
  language_hint C h ->
  includes fence (C ++ [backtick; backtick]) = false ->
  codeBlock_here (fence ++ h ++ C ++ fence ++ E2) = Some (trim C, E2).
Proof.
  intros Hh HC. unfold codeBlock_here. unfold lit at 1.
  rewrite strip_prefix_app.
  change (fence ++ E2) with (backtick :: [backtick; backtick] ++ E2).
  apply hint_alternatives; [exact Hh|].
  change (backtick :: [backtick; backtick] ++ E2) with (fence ++ E2).
  apply star_first. rewrite <- trimStart_drop.
  assert (Hts : trimStart (C ++ fence ++ E2) = trimStart C ++ fence ++ E2).
  { rewrite trimStart_app. now destruct (trimStart C). }
  rewrite Hts.
  (* the interior after its leading white space *)
  pose proof (take_drop_while is_space C) as HCsplit.
  rewrite <- trimStart_drop in HCsplit.
  destruct (trimEnd_split (trimStart C)) as (trail & HB & Htrail & Hlast).
  fold (trim C) in HB, Hlast.
  rewrite HB at 1. rewrite <- app_assoc.
  rewrite any_lazy_skip.
  - apply any_lazy_here. rewrite star_space_fence.
    assert (Htr : trimStart (trail ++ fence ++ E2) = fence ++ E2).
    { rewrite trimStart_drop. now rewrite drop_while_app_all. }
    rewrite Htr. unfold lit. rewrite strip_prefix_app.
    f_equal. f_equal. rewrite HB at 1 2. rewrite <- !app_assoc.
    apply (firstn_length_app (trim C) (trail ++ fence ++ E2)).
  - intros a b Hab Hb. rewrite star_space_fence.
    destruct (trimStart_suffix _ _ _ Hlast Hab Hb) as (w & tb & Hw & Htb & Hz).
    rewrite Hz. unfold lit.
    rewrite (app_assoc tb trail).
    rewrite (fence_free_inside C HC
               (take_while is_space C ++ a ++ w) (tb ++ trail) E2); [reflexivity| |].
    + rewrite HCsplit at 1. rewrite HB at 1. rewrite Hab, Hw.
      now rewrite <- !app_assoc.
    + destruct tb; [congruence|discriminate].
Qed.

Lemma codeBlock_from_skip (E1 F : str) (i : nat) :
  (forall a b, E1 = a ++ b -> b <> [] -> codeBlock_here (b ++ F) = None) ->
  codeBlock_from i (E1 ++ F) = codeBlock_from (i + length E1) F.
Proof.
  revert i. induction E1 as [|c E1 IH]; intros i H.
  - simpl. now rewrite Nat.add_0_r.
  - pose proof (H [] (c :: E1) eq_refl ltac:(discriminate)) as H0.
    cbn [app codeBlock_from] in H0 |- *. rewrite H0.
    rewrite IH.
    + f_equal. simpl. lia.
    + intros a b -> Hb. now apply (H (c :: a) b).
Qed.

Lemma replace_first_at (W E1 E2 : str) :
  (forall a b, E1 = a ++ b -> b <> [] ->
     strip_prefix char_eq W (b ++ W ++ E2) = None) ->
  replace_first W [] (E1 ++ W ++ E2) = E1 ++ E2.
Proof.
  induction E1 as [|c E1 IH]; intros H.
  - simpl app. destruct (W ++ E2) eqn:E; simpl.
    + rewrite <- E, strip_prefix_app. reflexivity.
    + rewrite <- E, strip_prefix_app. reflexivity.
  - pose proof (H [] (c :: E1) eq_refl ltac:(discriminate)) as H0.
    cbn [app replace_first] in H0 |- *. rewrite H0. f_equal.
    apply IH. intros a b -> Hb. now apply (H (c :: a) b).
Qed.

(** The leftmost match in a response [E1 "```" h C "```" E2] whose first
    triple backtick is the opening fence and whose interior holds none. *)
Lemma match_codeBlock_fenced (E1 h C E2 : str) :
  includes fence (E1 ++ [backtick; backtick]) = false ->
  language_hint C h ->
  includes fence (C ++ [backtick; backtick]) = false ->
  match_codeBlock (E1 ++ fence ++ h ++ C ++ fence ++ E2)
  = Some {| m_index := length E1;
            m_whole := fence ++ h ++ C ++ fence;
            m_group1 := trim C |}.
Proof.
  intros HE Hh HC. unfold match_codeBlock.
  rewrite codeBlock_from_skip.
  - pose proof (codeBlock_here_fenced h C E2 Hh HC) as Hm.
    destruct (fence ++ h ++ C ++ fence ++ E2) as [|c0 F] eqn:EF;
      [discriminate|].
    cbn [codeBlock_from]. rewrite Hm. f_equal. f_equal.
    rewrite <- EF.
    replace (fence ++ h ++ C ++ fence ++ E2)
      with ((fence ++ h ++ C ++ fence) ++ E2)
      by (now rewrite <- !app_assoc).
    apply firstn_length_app.
  - intros a b Hab Hb. apply codeBlock_here_none.
    apply (fence_free_inside E1 HE a b (h ++ C ++ fence ++ E2) Hab Hb).
Qed.

(** *** The explanation: trimming before the markers are removed changes
    nothing *)

Lemma sectionMarker_len (s : str) :
  sm s =
  match strip_prefix char_eq (u "[ANALYSIS]") s with
  | Some r => Some (length s - length r)%nat
  | None =>
      match strip_prefix char_eq (u "[CODE]") s with
      | Some r => Some (length s - length r)%nat
      | None => None
      end
  end.
Proof.
  unfold sm, match_len, re_sectionMarker, alt, lit.
  destruct (strip_prefix char_eq (u "[ANALYSIS]") s); [reflexivity|].
  destruct (strip_prefix char_eq (u "[CODE]") s); reflexivity.
Qed.

Lemma letters_not_space (p : str) (c : char) :
  forallb (fun d => negb (is_space d)) p = true ->
  is_space c = true ->
  Forall (fun d => char_eq d c = false) p.
Proof.
  intros Hp Hc. apply Forall_forall. intros d Hd.
  rewrite forallb_forall in Hp. specialize (Hp d Hd).
  unfold char_eq. destruct (N.eqb_spec d c) as [->|]; [|reflexivity].
  rewrite Hc in Hp. discriminate.
Qed.

Lemma strip_prefix_space (p t : str) (c : char) :
  p <> [] ->
  forallb (fun d => negb (is_space d)) p = true ->
  is_space c = true ->
  strip_prefix char_eq p (c :: t) = None.
Proof.
  intros Hne Hp Hc.
  pose proof (letters_not_space p c Hp Hc) as H.
  destruct p as [|a p]; [congruence|].
  inversion H; subst. cbn [strip_prefix]. now rewrite H2.
Qed.

Lemma sectionMarker_space (c : char) (t : str) :
  is_space c = true -> sm (c :: t) = None.
Proof.
  intros Hc. rewrite sectionMarker_len.
  rewrite !strip_prefix_space; try reflexivity; try exact Hc; discriminate.
Qed.

Lemma strip_prefix_pad (p a r : str) :
  forallb (fun d => negb (is_space d)) p = true ->
  Forall (fun c => is_space c = true) r ->
  match strip_prefix char_eq p a with
  | Some x => strip_prefix char_eq p (a ++ r) = Some (x ++ r)
  | None => strip_prefix char_eq p (a ++ r) = None
  end.
Proof.
  intros Hp Hr.
  destruct (strip_prefix char_eq p a) as [x|] eqn:E.
  - now apply strip_prefix_app_some.
  - destruct Hr as [|c r Hc _]; [now rewrite app_nil_r|].
    apply strip_prefix_app_none; [|exact E].
    now apply letters_not_space.
Qed.

Lemma sectionMarker_pad (a r : str) :
  Forall (fun c => is_space c = true) r -> sm (a ++ r) = sm a.
Proof.
  intros Hr. rewrite !sectionMarker_len.
  pose proof (strip_prefix_pad (u "[ANALYSIS]") a r eq_refl Hr) as H1.
  pose proof (strip_prefix_pad (u "[CODE]") a r eq_refl Hr) as H2.
  destruct (strip_prefix char_eq (u "[ANALYSIS]") a) as [x|].
  - rewrite H1. f_equal. rewrite !length_app. lia.
  - rewrite H1. destruct (strip_prefix char_eq (u "[CODE]") a) as [x|].
    + rewrite H2. f_equal. rewrite !length_app. lia.
    + now rewrite H2.
Qed.

Lemma sectionMarker_bound (a : str) (L : nat) :
  sm a = Some L -> (L <= length a)%nat.
Proof.
  rewrite sectionMarker_len.
  destruct (strip_prefix char_eq (u "[ANALYSIS]") a);
    [|destruct (strip_prefix char_eq (u "[CODE]") a)];
    intros H; inversion H; lia.
Qed.

Lemma scan_space_prefix (l x : str) :
  Forall (fun c => is_space c = true) l ->
  replace_scan sm [] 0 (l ++ x) = l ++ replace_scan sm [] 0 x.
Proof.
  induction 1 as [|c l Hc _ IH]; [reflexivity|].
  cbn [app replace_scan]. rewrite (sectionMarker_space c _ Hc).
  now rewrite IH.
Qed.

Lemma scan_space_suffix (r : str) :
  Forall (fun c => is_space c = true) r ->
  forall a k, (k <= length a)%nat ->
  replace_scan sm [] k (a ++ r) = replace_scan sm [] k a ++ r.
Proof.
  intros Hr. induction a as [|c t IH]; intros k Hk.
  - simpl in Hk. assert (k = 0%nat) by lia. subst.
    change (replace_scan sm [] 0 []) with (@nil char).
    cbn [app]. rewrite <- (app_nil_r r) at 1.
    rewrite (scan_space_prefix r [] Hr).
    change (replace_scan sm [] 0 []) with (@nil char).
    now rewrite app_nil_r.
  - destruct k as [|k].
    + cbn [replace_scan].
      change ((c :: t) ++ r) with (c :: t ++ r).
      cbn [replace_scan].
      change (c :: t ++ r) with ((c :: t) ++ r).
      rewrite (sectionMarker_pad (c :: t) r Hr).
      destruct (sm (c :: t)) as [[|n]|] eqn:E.
      * rewrite IH by lia. reflexivity.
      * apply sectionMarker_bound in E. simpl in E.
        rewrite IH by lia. reflexivity.
      * rewrite IH by lia. reflexivity.
    + cbn [app replace_scan]. apply IH. simpl in Hk. lia.
Qed.

Lemma trimStart_all_space (r : str) :
  Forall (fun c => is_space c = true) r -> trimStart r = [].
Proof.
  intros H. rewrite trimStart_drop, <- (app_nil_r r).
  now rewrite drop_while_app_all.
Qed.

Lemma trimEnd_pad (t r : str) :
  Forall (fun c => is_space c = true) r -> trimEnd (t ++ r) = trimEnd t.
Proof.
  intros H. unfold trimEnd. rewrite rev_app_distr.
  rewrite !trimStart_drop, drop_while_app_all; [reflexivity|].
  now apply Forall_rev.
Qed.

Lemma trim_pad (l x r : str) :
  Forall (fun c => is_space c = true) l ->
  Forall (fun c => is_space c = true) r ->
  trim (l ++ x ++ r) = trim x.
Proof.
  intros Hl Hr. unfold trim.
  rewrite (trimStart_drop (l ++ x ++ r)), drop_while_app_all by exact Hl.
  rewrite <- trimStart_drop, trimStart_app.
  destruct (trimStart x) as [|c t] eqn:E.
  - now rewrite (trimStart_all_space r Hr).
  - now apply trimEnd_pad.
Qed.

Lemma trim_split (z : str) :
  exists l r, z = l ++ trim z ++ r
    /\ Forall (fun c => is_space c = true) l
    /\ Forall (fun c => is_space c = true) r.
Proof.
  destruct (trimEnd_split (trimStart z)) as (r & Hr & Hall & _).
  exists (take_while is_space z), r. repeat split.
  - unfold trim. rewrite <- Hr. rewrite trimStart_drop. apply take_drop_while.
  - apply take_while_all.
  - exact Hall.
Qed.

(** The markers hold no white space, so they can be removed before or
    after the first trim. *)
Lemma explanation_trim_once (z : str) :
  trim (strip_sectionMarkers (trim z)) = trim (strip_sectionMarkers z).
Proof.
  destruct (trim_split z) as (l & r & Hz & Hl & Hr).
  rewrite Hz at 2. unfold strip_sectionMarkers, replace_all. fold sm.
  rewrite (scan_space_prefix l _ Hl).
  rewrite (scan_space_suffix r Hr) by lia.
  now rewrite trim_pad.
Qed.

(** C6.  A response made of a text [E1], a fenced block with language hint
    [h] and interior [C], and a text [E2], where the opening fence is the
    first triple backtick of the response and the closing fence the first
    one after the hint: the code is the interior without the white space
    around it, and the explanation is the response without the whole
    block and without the section markers, trimmed. *)
Theorem extract_generated_fenced (E1 h C E2 : str) :
  includes fence (E1 ++ [backtick; backtick]) = false ->
  language_hint C h ->
  includes fence (C ++ [backtick; backtick]) = false ->
  extract_generated (E1 ++ fence ++ h ++ C ++ fence ++ E2)
  = (trim C, trim (strip_sectionMarkers (E1 ++ E2))).
Proof.
  intros HE Hh HC. unfold extract_generated.
  rewrite (match_codeBlock_fenced E1 h C E2 HE Hh HC).
  unfold fenced_result. cbn [m_group1 m_whole].
  rewrite explanation_trim_once. f_equal. f_equal. f_equal.
  replace (E1 ++ fence ++ h ++ C ++ fence ++ E2)
    with (E1 ++ (fence ++ h ++ C ++ fence) ++ E2)
    by (now rewrite <- !app_assoc).
  apply replace_first_at. intros a b Hab Hb.
  rewrite <- !app_assoc. apply strip_prefix_longer.
  apply (fence_free_inside E1 HE a b (h ++ C ++ fence ++ E2) Hab Hb).
Qed.

Lemma extract_generated_fenced_witness :
  extract_generated (u "[ANALYSIS] Plots the close.
[CODE]
```pine
//@version=5
indicator(X)
```
Done.")
  = (u "//@version=5
indicator(X)", u "Plots the close.


Done.").
Proof.
  change (extract_generated
            (u "[ANALYSIS] Plots the close.
[CODE]
" ++ fence ++ u "pine" ++ u "
//@version=5
indicator(X)
" ++ fence ++ u "
Done.")
          = (trim (u "
//@version=5
indicator(X)
"),
             trim (strip_sectionMarkers (u "[ANALYSIS] Plots the close.
[CODE]
" ++ u "
Done.")))).
  apply extract_generated_fenced.
  - vm_compute. reflexivity.
  - apply hint_pine; vm_compute; reflexivity.
  - vm_compute. reflexivity.
Defined.

(** The example of the specification: the fenced script for version 5 is
    extracted and normalized for version 6. *)
Example spec_example :
  let response :=
    concat [ u "blah ```pine
//@version=5
indicator("; dq; u "X"; dq; u ")
```" ] in
  extract_generated response
  = (concat [ u "//@version=5
indicator("; dq; u "X"; dq; u ")" ], u "blah")
  /\ postProcessCode (fst (extract_generated response)) (u "v6")
     = concat [ u "//@version=6
indicator("; dq; u "X"; dq; u ")" ].
Proof. split; vm_compute; reflexivity. Qed.

(* ================================================================== *)
(** ** The order of the policy fragments *)

Lemma in_order_skip (fs : list str) (x b : str) :
  in_order fs b -> in_order fs (x ++ b).
Proof.
  destruct fs as [|f fs]; [auto|].
  intros (a & b' & -> & H). exists (x ++ a), b'.
  split; [now rewrite <- app_assoc|exact H].
Qed.

Lemma in_order_here (f : str) (fs : list str) (b : str) :
  in_order fs b -> in_order (f :: fs) (f ++ b).
Proof. intros H. now exists [], b. Qed.

Lemma after_first_complete (f a b : str) :
  exists x, after_first f (a ++ f ++ b) = Some (x ++ b).
Proof.
  induction a as [|c a IH].
  - exists []. simpl app. destruct (f ++ b) eqn:E; simpl;
      rewrite <- E, strip_prefix_app; reflexivity.
  - cbn [app after_first].
    destruct (strip_prefix char_eq f (c :: a ++ f ++ b)) as [r|] eqn:E;
      [|exact IH].
    apply strip_prefix_sound in E.
    exists (skipn (length f) ((c :: a) ++ f)). f_equal.
    assert (Hr : skipn (length f) (f ++ r) = r).
    { rewrite skipn_app, skipn_all, Nat.sub_diag. reflexivity. }
    rewrite <- Hr, <- E.
    change (c :: a ++ f ++ b) with ((c :: a) ++ f ++ b).
    rewrite (app_assoc (c :: a) f b), skipn_app. f_equal.
    replace (length f - length ((c :: a) ++ f))%nat with 0%nat
      by (rewrite length_app; lia).
    reflexivity.
Qed.

Lemma in_orderb_complete (fs : list str) :
  forall s, in_order fs s -> in_orderb fs s = true.
Proof.
  induction fs as [|f fs IH]; intros s H; [reflexivity|].
  destruct H as (a & b & -> & Hb). simpl.
  destruct (after_first_complete f a b) as [x ->].
  apply IH. now apply in_order_skip.
Qed.

Ltac walk_fragments :=
  repeat match goal with
  | |- in_order [] _ => exact I
  | |- in_order (?f :: _) (?f ++ _) => apply in_order_here
  | |- in_order _ (_ ++ _) => apply in_order_skip
  end.

(** *** Where a heading cannot occur

    The templates interpolate texts given by the user.  A heading occurs in
    a prompt only where the walk below cannot exclude it: in a fixed text
    that holds it, or in a given text. *)

Lemma mismatch_strip (k t : str) :
  mismatch k t = true -> forall y, strip_prefix char_eq k (t ++ y) = None.
Proof.
  revert t. induction k as [|a k IH]; intros t H y; [discriminate|].
  destruct t as [|c t]; [discriminate|]. simpl in *.
  destruct (char_eq a c); [now apply IH|reflexivity].
Qed.

Lemma occurs_nil (k : str) : occurs k [] -> k = [].
Proof.
  intros (a & b & E). destruct a; [|discriminate].
  destruct k; [reflexivity|discriminate].
Qed.

Lemma occurs_uncons (k s : str) (c : char) :
  occurs k (c :: s) ->
  (exists r, c :: s = k ++ r) \/ occurs k s.
Proof.
  intros (a & b & E). destruct a as [|a0 a]; simpl in E.
  - left. now exists b.
  - right. injection E as _ ->. now exists a, b.
Qed.

(** A fixed text in which [k] starts nowhere can be skipped. *)
Lemma peel_fixed (k a y : str) :
  starts_nowhere k a = true -> occurs k (a ++ y) -> occurs k y.
Proof.
  induction a as [|c a IH]; intros H Ho; [exact Ho|].
  simpl in H. apply andb_true_iff in H as [Hm Hs].
  apply IH; [exact Hs|].
  destruct (occurs_uncons _ _ _ Ho) as [[r E]|Ho']; [|exact Ho'].
  pose proof (mismatch_strip _ _ Hm y) as Hn.
  assert (E' : (c :: a) ++ y = k ++ r) by exact E.
  rewrite E', strip_prefix_app in Hn. discriminate.
Qed.

Lemma ends_nowhere_spec (k b : str) :
  ends_nowhere k b = true ->
  forall k1 k2, k = k1 ++ k2 -> k1 <> [] -> k2 <> [] -> mismatch k2 b = true.
Proof.
  induction k as [|a k IH]; intros H k1 k2 E H1 H2.
  - destruct k1; [congruence|discriminate].
  - destruct k1 as [|a1 k1]; [congruence|]. injection E as _ E.
    simpl in H. destruct k as [|a' k'].
    + destruct k1; [|discriminate]. simpl in E. congruence.
    + apply andb_true_iff in H as [Hm Hs].
      destruct k1 as [|a2 k1].
      * simpl in E. now subst k2.
      * apply (IH Hs (a2 :: k1) k2 E); [discriminate|exact H2].
Qed.

(** A text given by the user that does not hold [k] can be skipped when no
    end of [k] starts the fixed text after it. *)
Lemma peel_given (k v b y : str) :
  ~ occurs k v -> ends_nowhere k b = true ->
  occurs k (v ++ b ++ y) -> occurs k (b ++ y).
Proof.
  intros Hv Hb. induction v as [|c v IH]; intros Ho; [exact Ho|].
  assert (Hv' : ~ occurs k v).
  { intros H. apply Hv. now apply occurs_cons. }
  apply (IH Hv').
  destruct (occurs_uncons _ _ _ Ho) as [[r E]|Ho']; [|exact Ho'].
  exfalso. assert (E' : k ++ r = (c :: v) ++ b ++ y) by (symmetry; exact E).
  clear E. rename E' into E. apply app_eq_app in E. destruct E as [l [[E1 E2]|[E1 E2]]].
  - destruct l as [|l0 l].
    + rewrite app_nil_r in E1. subst k. apply Hv. exists [], [].
      now rewrite app_nil_r.
    + pose proof (ends_nowhere_spec _ _ Hb (c :: v) (l0 :: l) E1
                    ltac:(discriminate) ltac:(discriminate)) as Hm.
      pose proof (mismatch_strip _ _ Hm y) as Hn.
      rewrite E2, strip_prefix_app in Hn. discriminate.
  - apply Hv. exists [], l. exact E1.
Qed.

Lemma occurs_Forall (P : char -> Prop) (k s : str) :
  occurs k s -> Forall P s -> Forall P k.
Proof.
  intros (a & b & ->) H. apply Forall_app in H as [_ H].
  now apply Forall_app in H as [H _].
Qed.

Lemma occurs_digits (k v : str) :
  forallb is_digit k = false -> ~ occurs k (digits_of v).
Proof.
  intros Hk Ho.
  pose proof (occurs_Forall _ _ _ Ho (digits_of_all v)) as H.
  rewrite Forall_forall in H.
  assert (forallb is_digit k = true); [|congruence].
  apply forallb_forall. exact H.
Qed.

Ltac given_clean :=
  first [ assumption
        | apply occurs_digits; vm_compute; reflexivity ].

(** Walk the template from left to right; [H] says that the key occurs in
    what is left of it. *)
Ltac peel H :=
  repeat first
    [ apply peel_fixed in H; [|vm_compute; reflexivity]
    | apply peel_given in H; [|solve [given_clean]|vm_compute; reflexivity] ];
  apply occurs_nil in H; discriminate H.


Lemma occurs_trans (k f s : str) : occurs k f -> occurs f s -> occurs k s.
Proof.
  intros (a & b & ->) (x & y & ->). exists (x ++ a), (b ++ y).
  now rewrite <- !app_assoc.
Qed.

Lemma includes_true_occurs (k s : str) : includes k s = true -> occurs k s.
Proof.
  unfold includes. destruct (indexOf k s) as [n|] eqn:E; [|discriminate].
  intros _. destruct (indexOf_split _ _ _ E) as [H _].
  unfold starts_with in H.
  destruct (strip_prefix char_eq k (skipn n s)) as [r|] eqn:Er; [|discriminate].
  apply strip_prefix_sound in Er. exists (firstn n s), r.
  now rewrite <- Er, firstn_skipn.
Qed.

Lemma occurs_app_l (k a b : str) : occurs k a -> occurs k (a ++ b).
Proof.
  intros (x & y & ->). exists x, (y ++ b). now rewrite <- !app_assoc.
Qed.

(** Each heading stands in its fragment. *)
Lemma fragment_headings :
  occurs guidelines_heading INSTITUTIONAL_GUIDELINES
  /\ (forall c, occurs gen_context_header (gen_contextBlock c))
  /\ (forall c, occurs refine_context_header (refine_contextBlock c))
  /\ (forall p, occurs architecture_header (gen_architectureRules p)).
Proof.
  split; [|split; [|split]].
  - apply includes_true_occurs. vm_compute. reflexivity.
  - intros c. unfold gen_contextBlock. cbn [concat].
    apply occurs_app_l, includes_true_occurs. vm_compute. reflexivity.
  - intros c. unfold refine_contextBlock. cbn [concat].
    apply occurs_app_l, includes_true_occurs. vm_compute. reflexivity.
  - intros p. unfold gen_architectureRules. cbn [concat].
    apply occurs_app_l, includes_true_occurs. vm_compute. reflexivity.
Qed.

(** Open the template at given parameters and walk it. *)
Ltac walk_template p :=
  destruct p as [pr st ov ver mo ctx];
  cbn [version scriptType overlay customContext];
  destruct st, ov; destruct ctx as [c|];
  cbn [context_or_empty context_given context_text customContext];
  try destruct (truthy c);
  unfold gen_contextBlock, refine_contextBlock;
  cbn [concat]; rewrite <- ?app_assoc;
  intros; try discriminate;
  match goal with H : occurs _ _ |- _ => peel H end.

Lemma generate_prompt_guidelines_gated (p : PineScriptParams) :
  expert_mode p = false ->
  ~ occurs guidelines_heading (version p) ->
  ~ occurs guidelines_heading (context_text p) ->
  ~ occurs guidelines_heading (generate_systemPrompt p).
Proof.
  unfold generate_systemPrompt, gen_systemPrompt, not.
  intros He. rewrite He. clear He. walk_template p.
Qed.

Lemma refine_prompt_guidelines_gated (p : PineScriptParams) :
  expert_mode p = false ->
  ~ occurs guidelines_heading (context_text p) ->
  ~ occurs guidelines_heading (refine_systemPrompt_for p).
Proof.
  unfold refine_systemPrompt_for, refine_systemPrompt, not.
  intros He. rewrite He. clear He. walk_template p.
Qed.

Lemma generate_prompt_context_gated (p : PineScriptParams) :
  context_given p = false ->
  ~ occurs gen_context_header (version p) ->
  ~ occurs gen_context_header (generate_systemPrompt p).
Proof.
  unfold generate_systemPrompt, gen_systemPrompt, not.
  destruct (expert_mode p); walk_template p.
Qed.

Lemma refine_prompt_context_gated (p : PineScriptParams) :
  context_given p = false ->
  ~ occurs refine_context_header (refine_systemPrompt_for p).
Proof.
  unfold refine_systemPrompt_for, refine_systemPrompt, not.
  destruct (expert_mode p); walk_template p.
Qed.

Lemma refine_prompt_no_architecture (p : PineScriptParams) :
  ~ occurs architecture_header (context_text p) ->
  ~ occurs architecture_header (refine_systemPrompt_for p).
Proof.
  unfold refine_systemPrompt_for, refine_systemPrompt, not.
  destruct (expert_mode p); walk_template p.
Qed.

(** C3, as stated, fails for the refinement prompt: in expert mode the
    domain guidelines do not come before the quality checklist, and the
    prompt has no architecture rules. *)
Lemma refine_prompt_order_differs :
  expert_mode example_params = true
  /\ ~ in_order [INSTITUTIONAL_GUIDELINES; QUALITY_CHECKS]
         (refine_systemPrompt_for example_params)
  /\ includes (u "### ARCHITECTURE RULES")
       (refine_systemPrompt_for example_params) = false.
Proof.
  split; [vm_compute; reflexivity|]. split; [|vm_compute; reflexivity].
  intros H. apply in_orderb_complete in H. vm_compute in H. discriminate.
Qed.

Lemma prompt_fragments_in_order (p : PineScriptParams) :
  in_order (generate_fragments p) (generate_systemPrompt p)
  /\ in_order (refine_fragments p) (refine_systemPrompt_for p).
Proof.
  unfold generate_fragments, generate_systemPrompt, gen_systemPrompt,
    refine_fragments, refine_systemPrompt_for, refine_systemPrompt,
    supplemental, context_or_empty.
  cbn [concat].
  destruct (expert_mode p); destruct (customContext p) as [c|];
    try destruct (truthy c); cbn [app]; split; walk_fragments.
Qed.

(** C3, amended.  The generation prompt holds, in this order, the domain
    guidelines (in expert mode), the quality checklist, the syntax-safety
    rules, the architecture rules and the supplemental-context block (when
    a context was given).  The refinement prompt holds, in this order, the
    quality checklist, the domain guidelines (in expert mode), the
    syntax-safety rules, the supplemental-context block (when a context was
    given) and the rules of refinement.  The two conditions are gates:
    outside expert mode the heading of the guidelines occurs in neither
    prompt, and without a context the heading of the context block occurs
    in neither prompt; and the heading of the architecture rules never
    occurs in the refinement prompt.  Each of these holds as long as the
    texts the user gives (the version string, which the generation prompt
    quotes, and the context) do not hold the heading themselves. *)
Theorem prompt_fragment_order (p : PineScriptParams) :
  in_order (generate_fragments p) (generate_systemPrompt p)
  /\ in_order (refine_fragments p) (refine_systemPrompt_for p)
  /\ (expert_mode p = false ->
      ~ occurs guidelines_heading (context_text p) ->
      ~ occurs guidelines_heading (refine_systemPrompt_for p)
      /\ (~ occurs guidelines_heading (version p) ->
          ~ occurs guidelines_heading (generate_systemPrompt p)))
  /\ (context_given p = false ->
      ~ occurs refine_context_header (refine_systemPrompt_for p)
      /\ (~ occurs gen_context_header (version p) ->
          ~ occurs gen_context_header (generate_systemPrompt p)))
  /\ (~ occurs architecture_header (context_text p) ->
      ~ occurs architecture_header (refine_systemPrompt_for p))
  /\ (occurs guidelines_heading INSTITUTIONAL_GUIDELINES
      /\ (forall c, occurs gen_context_header (gen_contextBlock c))
      /\ (forall c, occurs refine_context_header (refine_contextBlock c))
      /\ (forall q, occurs architecture_header (gen_architectureRules q))).
Proof.
  destruct (prompt_fragments_in_order p) as [Hg Hr].
  split; [exact Hg|]. split; [exact Hr|].
  split; [|split; [|split]].
  - intros He Hc. split.
    + now apply refine_prompt_guidelines_gated.
    + intros Hv. now apply generate_prompt_guidelines_gated.
  - intros Hc. split.
    + now apply refine_prompt_context_gated.
    + intros Hv. now apply generate_prompt_context_gated.
  - apply refine_prompt_no_architecture.
  - exact fragment_headings.
Qed.

Lemma prompt_fragment_order_witness :
  ~ occurs guidelines_heading (refine_systemPrompt_for standard_params)
  /\ ~ occurs guidelines_heading (generate_systemPrompt standard_params)
  /\ ~ occurs architecture_header (refine_systemPrompt_for standard_params)
  /\ ~ occurs refine_context_header (refine_systemPrompt_for example_params)
  /\ ~ occurs gen_context_header (generate_systemPrompt example_params).
Proof.
  destruct (prompt_fragment_order standard_params)
    as (_ & _ & HG & _ & HA & _).
  destruct (prompt_fragment_order example_params)
    as (_ & _ & _ & HC & _).
  destruct HG as [HG1 HG2];
    [reflexivity|apply includes_false_occurs; vm_compute; reflexivity|].
  destruct HC as [HC1 HC2]; [reflexivity|].
  split; [exact HG1|]. split.
  { apply HG2. apply includes_false_occurs. vm_compute. reflexivity. }
  split.
  { apply HA. apply includes_false_occurs. vm_compute. reflexivity. }
  split; [exact HC1|].
  apply HC2. apply includes_false_occurs. vm_compute. reflexivity.
Defined.

(* ================================================================== *)
(** * Further properties of the service *)

(** ** The normalizer *)

Lemma postProcessCode_head (x v : str) :
  exists rest,
    postProcessCode x v = version_marker ++ digits_of v ++ nl :: rest.
Proof.
  exists (collapse_run 1 (strip_versionTags (extract_block x))).
  rewrite postProcessCode_shape. unfold versionTag.
  now rewrite <- app_assoc.
Qed.

(** X1.  Whatever the text and the version, the normalized code is the
    version marker, the decimal digits of the version, a newline and a
    rest: it is never empty and its first line is the version line. *)
Theorem postProcessCode_first_line (x v : str) :
  postProcessCode x v <> []
  /\ exists rest,
       postProcessCode x v = version_marker ++ digits_of v ++ nl :: rest.
Proof.
  destruct (postProcessCode_head x v) as [rest H].
  split; [rewrite H; discriminate|now exists rest].
Qed.

Lemma collapse_run_lead (s : str) :
  forall n, (n <= 2)%nat ->
  (length (take_while is_nl (collapse_run n s)) + n <= 2)%nat.
Proof.
  induction s as [|c t IH]; intros n Hn; simpl; [lia|].
  destruct (is_nl c) eqn:E.
  - destruct (Nat.ltb_spec n 2) as [H|H].
    + simpl. rewrite E. simpl. specialize (IH (S n)). lia.
    + now apply IH.
  - simpl. rewrite E. simpl. lia.
Qed.

Lemma collapse_run_no_triple (s : str) :
  forall n, (n <= 2)%nat -> ~ occurs [nl; nl; nl] (collapse_run n s).
Proof.
  induction s as [|c t IH]; intros n Hn (a & b & H).
  - simpl in H. destruct a; discriminate.
  - simpl in H. destruct (is_nl c) eqn:E.
    + destruct (Nat.ltb_spec n 2) as [Hlt|Hge].
      * destruct a as [|a0 a]; simpl in H.
        -- inversion H as [[Hc Hrest]].
           pose proof (collapse_run_lead t (S n) ltac:(lia)) as Hl.
           rewrite Hrest in Hl. simpl in Hl. lia.
        -- inversion H; subst. apply (IH (S n)); [lia|]. now exists a, b.
      * apply (IH n Hn). now exists a, b.
    + destruct a as [|a0 a]; simpl in H.
      * inversion H; subst. discriminate.
      * inversion H; subst. apply (IH 0%nat); [lia|]. now exists a, b.
Qed.

(** X2.  The normalized code never holds three newlines in a row. *)
Theorem postProcessCode_no_blank_run (x v : str) :
  includes [nl; nl; nl] (postProcessCode x v) = false.
Proof.
  apply includes_false_occurs. unfold postProcessCode.
  rewrite collapse_blankRuns_spec. apply collapse_run_no_triple. lia.
Qed.

(** X3.  Collapsing the blank runs is idempotent, and it leaves a text
    without three newlines in a row as it is. *)
Theorem collapse_blankRuns_idempotent (s : str) :
  collapse_blankRuns (collapse_blankRuns s) = collapse_blankRuns s
  /\ (includes [nl; nl; nl] s = false -> collapse_blankRuns s = s).
Proof.
  split.
  - rewrite !collapse_blankRuns_spec. apply collapse_run_idem.
  - intros H. unfold collapse_blankRuns, replace_all.
    apply replace_scan_id. apply matches_nowhere_intro. intros a b ->.
    rewrite blankRun_len.
    destruct b as [|c1 [|c2 [|c3 b]]]; try reflexivity.
    destruct (is_nl c1) eqn:E1; [|reflexivity].
    destruct (is_nl c2) eqn:E2; [|reflexivity].
    destruct (is_nl c3) eqn:E3; [|reflexivity].
    exfalso. apply includes_false_occurs in H. apply H.
    apply N.eqb_eq in E1, E2, E3. subst. now exists a, b.
Qed.

Lemma collapse_blankRuns_idempotent_witness :
  collapse_blankRuns (u "a

b") = u "a

b".
Proof.
  destruct (collapse_blankRuns_idempotent (u "a

b")) as [_ H].
  apply H. vm_compute. reflexivity.
Defined.

(** X4.  When the version holds a digit and the removal pass leaves no
    version declaration in the text, the normalized code holds exactly one
    version declaration. *)
Theorem postProcessCode_single_declaration (x v : str) :
  digits_of v <> [] ->
  test re_versionTag (strip_versionTags (extract_block x)) = false ->
  count_matches re_versionTag (postProcessCode x v) = 1%nat.
Proof. apply postProcessCode_one_version_line. Qed.

Lemma postProcessCode_single_declaration_witness :
  count_matches re_versionTag
    (postProcessCode (u "//@version=4
//@version=5
plot(close)") (u "v6")) = 1%nat.
Proof.
  apply postProcessCode_single_declaration.
  - vm_compute. discriminate.
  - vm_compute. reflexivity.
Defined.

(** X5.  The version number put into the version line and into the prompts
    is the version string without everything that is not a decimal digit:
    the digits are kept in their order, and nothing else is. *)
Theorem digits_of_keeps_digits (v : str) :
  digits_of v = filter is_digit v
  /\ (forall c, In c (digits_of v) <-> In c v /\ is_digit c = true)
  /\ digits_of (digits_of v) = digits_of v.
Proof.
  split; [apply digits_of_filter|]. split.
  - intros c. rewrite digits_of_filter. apply filter_In.
  - rewrite !digits_of_filter. induction v as [|c t IH]; [reflexivity|].
    simpl. destruct (is_digit c) eqn:E; [|exact IH].
    simpl. rewrite E. now rewrite IH.
Qed.

(** The failure sentinel goes through the normalizer unchanged. *)
Lemma postProcessCode_sentinel (v : str) :
  postProcessCode parse_failure_sentinel v
  = version_marker ++ digits_of v ++ [nl] ++ parse_failure_sentinel.
Proof.
  rewrite postProcessCode_shape. unfold versionTag.
  rewrite <- app_assoc. do 2 f_equal.
Qed.

(** ** The runs of the entry points *)

(** X6.  With a callback that returns normally, a generation run notifies
    the four stages in their order, with the one request to the service
    between the third and the fourth; when the service fails, the fourth
    notification is not made and the run rejects with the pipeline error. *)
Theorem generate_stage_order (p : PineScriptParams) (cb : callback)
  (ai : service) :
  (forall s, In s stages -> cb s = inr tt) ->
  match ai (generate_request p) with
  | inr _ =>
      fst (generatePineScript p (Some cb) ai)
      = [ StatusUpdate (u "NORMALIZING_REQUEST");
          StatusUpdate (u "OPTIMIZING_LOGIC");
          StatusUpdate (u "GENERATING_CODE");
          GenerateContent (generate_request p);
          StatusUpdate (u "VALIDATING_OUTPUT") ]
      /\ exists r, snd (generatePineScript p (Some cb) ai) = inr r
  | inl _ =>
      generatePineScript p (Some cb) ai
      = ([ StatusUpdate (u "NORMALIZING_REQUEST");
           StatusUpdate (u "OPTIMIZING_LOGIC");
           StatusUpdate (u "GENERATING_CODE");
           GenerateContent (generate_request p) ],
         inl pipeline_error)
  end.
Proof.
  intros H.
  unfold generatePineScript, notify, generateContent, bind, try_catch, ret, throw.
  rewrite (H (u "NORMALIZING_REQUEST")), (H (u "OPTIMIZING_LOGIC")),
    (H (u "GENERATING_CODE")), (H (u "VALIDATING_OUTPUT"))
    by (unfold stages; simpl; auto).
  destruct (ai (generate_request p)) as [e|resp]; [reflexivity|].
  destruct (extract_generated (text_or resp [])). simpl. eauto.
Qed.

Lemma generate_stage_order_witness :
  fst (generatePineScript example_params (Some quiet_callback) ai_fenced)
  = [ StatusUpdate (u "NORMALIZING_REQUEST");
      StatusUpdate (u "OPTIMIZING_LOGIC");
      StatusUpdate (u "GENERATING_CODE");
      GenerateContent (generate_request example_params);
      StatusUpdate (u "VALIDATING_OUTPUT") ].
Proof.
  pose proof (generate_stage_order example_params quiet_callback ai_fenced
                (fun s _ => eq_refl)) as H.
  simpl in H. exact (proj1 H).
Defined.

Lemma generate_code_head (p : PineScriptParams)
  (cb : option callback) (ai : service) (log : list event)
  (r : GeneratedResult) :
  generatePineScript p cb ai = (log, inr r) ->
  exists rest,
    code r = version_marker ++ digits_of (version p) ++ nl :: rest.
Proof.
  unfold generatePineScript, notify, generateContent, bind, try_catch, ret, throw.
  intros H.
  assert (Hc : code r = postProcessCode (fst (extract_generated
                 (match ai (generate_request p) with
                  | inr resp => text_or resp []
                  | inl _ => []
                  end))) (version p)).
  { destruct cb as [f|].
    - destruct (f (u "NORMALIZING_REQUEST")) as [?|[]]; [discriminate|].
      destruct (f (u "OPTIMIZING_LOGIC")) as [?|[]]; [discriminate|].
      destruct (f (u "GENERATING_CODE")) as [?|[]]; [discriminate|].
      destruct (ai (generate_request p)) as [?|resp]; [discriminate|].
      destruct (f (u "VALIDATING_OUTPUT")) as [?|[]]; [discriminate|].
      destruct (extract_generated (text_or resp [])).
      simpl in H. inversion H. reflexivity.
    - destruct (ai (generate_request p)) as [?|resp]; [discriminate|].
      destruct (extract_generated (text_or resp [])).
      simpl in H. inversion H. reflexivity. }
  rewrite Hc. apply postProcessCode_head.
Qed.

(** X7.  Whatever the service answers and whatever the callback does, the
    code of a generation run that returns is never empty: it starts with
    the version line of the version in the parameters. *)
Theorem generate_code_versioned (p : PineScriptParams)
  (cb : option callback) (ai : service) (log : list event)
  (r : GeneratedResult) :
  generatePineScript p cb ai = (log, inr r) ->
  code r <> []
  /\ exists rest,
       code r = version_marker ++ digits_of (version p) ++ nl :: rest.
Proof.
  intros H. destruct (generate_code_head p cb ai log r H) as [rest Hr].
  split; [rewrite Hr; discriminate|now exists rest].
Qed.

Lemma generate_code_versioned_witness :
  u "//@version=6
plot(close)" <> []
  /\ exists rest,
    u "//@version=6
plot(close)" = version_marker ++ digits_of (u "v6") ++ nl :: rest.
Proof.
  apply (generate_code_versioned example_params (Some quiet_callback) ai_fenced
           (fst (generatePineScript example_params (Some quiet_callback) ai_fenced))
           {| code := u "//@version=6
plot(close)"; explanation := [] |}).
  vm_compute. reflexivity.
Defined.

(** X8.  A response without text, or with the empty string as text, is a
    response that cannot be parsed: the run returns the version line and
    the sentinel comment as code and the empty explanation. *)
Theorem generate_empty_response (p : PineScriptParams) (ai : service)
  (resp : response) :
  ai (generate_request p) = inr resp ->
  text resp = None \/ text resp = Some [] ->
  snd (generatePineScript p None ai)
  = inr {| code := version_marker ++ digits_of (version p) ++ [nl]
                   ++ parse_failure_sentinel;
           explanation := [] |}.
Proof.
  intros Hai Ht.
  assert (E : text_or resp [] = []).
  { unfold text_or. destruct Ht as [-> | ->]; reflexivity. }
  unfold generatePineScript, notify, generateContent, bind, try_catch, ret.
  rewrite Hai, E. simpl. now rewrite postProcessCode_sentinel.
Qed.

Lemma generate_empty_response_witness :
  snd (generatePineScript example_params None (fun _ => inr {| text := None |}))
  = inr {| code := version_marker ++ digits_of (u "v6") ++ [nl]
                   ++ parse_failure_sentinel;
           explanation := [] |}.
Proof.
  apply (generate_empty_response example_params _ {| text := None |}).
  - reflexivity.
  - now left.
Defined.

(** X9.  A refinement run makes exactly one request and no notification.
    When the service fails it rejects with its fixed error; when the
    service answers, whatever the answer, it returns a code that starts
    with the version line of the version in the parameters. *)
Theorem refine_run (currentCode instruction : str) (p : PineScriptParams)
  (ai : service) :
  fst (refinePineScript currentCode instruction p ai)
  = [GenerateContent (refine_request currentCode instruction p)]
  /\ match ai (refine_request currentCode instruction p) with
     | inl _ =>
         snd (refinePineScript currentCode instruction p ai)
         = inl (Thrown (u "Failed to refine script."))
     | inr _ =>
         exists r rest,
           snd (refinePineScript currentCode instruction p ai) = inr r
           /\ code r = version_marker ++ digits_of (version p) ++ nl :: rest
     end.
Proof.
  unfold refinePineScript, generateContent, bind, try_catch, ret, throw.
  destruct (ai (refine_request currentCode instruction p)) as [e|resp].
  - split; reflexivity.
  - destruct (extract_refined currentCode (text_or resp [])) as [c e] eqn:E.
    simpl. split; [reflexivity|].
    destruct (postProcessCode_head c (version p)) as [rest Hr].
    eexists. exists rest. split; [reflexivity|exact Hr].
Qed.

(** The parse step of a refinement is the parse step of a generation
    whenever the response holds a fenced block or a version marker; only
    without both do they differ, the refinement keeping the prior code in
    front of its failure marker where the generation puts the sentinel. *)
Lemma extract_refined_agrees (currentCode t : str) :
  (match_codeBlock t <> None \/ indexOf version_marker t <> None ->
   extract_refined currentCode t = extract_generated t)
  /\ (match_codeBlock t = None -> indexOf version_marker t = None ->
      extract_refined currentCode t
      = (currentCode ++ refine_failure_marker, refine_failure_explanation)
      /\ extract_generated t = (parse_failure_sentinel, t)).
Proof.
  unfold extract_refined, extract_generated. split.
  - intros H. destruct (match_codeBlock t); [reflexivity|].
    destruct (indexOf version_marker t); [reflexivity|].
    destruct H; congruence.
  - intros -> ->. split; reflexivity.
Qed.

Lemma extract_refined_agrees_witness :
  extract_refined (u "old code") (u "See //@version=5 plot(close)")
  = extract_generated (u "See //@version=5 plot(close)").
Proof.
  destruct (extract_refined_agrees (u "old code")
              (u "See //@version=5 plot(close)")) as [H _].
  apply H. right. vm_compute. discriminate.
Defined.

(** X10.  Expert mode follows from the model selector alone: it is on
    exactly when the selector, or the default selector when the given one
    is empty, holds [pro] as a substring.  So an empty selector means
    expert mode, and the reasoning budget is sent exactly in expert mode:
    2048 for a generation, 1024 for a refinement. *)
Theorem expert_mode_spec (p : PineScriptParams) :
  (expert_mode p = true <->
   occurs (u "pro") (if truthy (model p) then model p else default_model))
  /\ (model p = [] -> expert_mode p = true
                      /\ req_model (generate_request p) = default_model)
  /\ thinkingBudget (req_config (generate_request p))
     = (if expert_mode p then Some 2048 else None)
  /\ forall cur ins,
       thinkingBudget (req_config (refine_request cur ins p))
       = (if expert_mode p then Some 1024 else None)
       /\ req_model (refine_request cur ins p) = req_model (generate_request p).
Proof.
  split; [|split; [|split]].
  - unfold expert_mode, or_else.
    set (m := if truthy (model p) then model p else default_model).
    split.
    + intros H. destruct (includes (u "pro") m) eqn:E; [|discriminate].
      destruct (indexOf (u "pro") m) as [k|] eqn:Ei.
      * destruct (indexOf_split _ _ _ Ei) as [Hs _].
        unfold starts_with in Hs.
        destruct (strip_prefix char_eq (u "pro") (skipn k m)) as [r|] eqn:Er;
          [|discriminate].
        apply strip_prefix_sound in Er. exists (firstn k m), r.
        rewrite <- Er. symmetry. apply firstn_skipn.
      * unfold includes in E. rewrite Ei in E. discriminate.
    + intros H. destruct (includes (u "pro") m) eqn:E; [reflexivity|].
      apply includes_false_occurs in E. contradiction.
  - intros Hm. unfold expert_mode, generate_request, or_else.
    rewrite Hm. split; reflexivity.
  - reflexivity.
  - intros cur ins. split; reflexivity.
Qed.

Lemma expert_mode_spec_witness :
  expert_mode (with_prompt (u "x")
     {| prompt := []; scriptType := indicator; overlay := true;
        version := u "v6"; model := []; customContext := None |}) = true.
Proof.
  destruct (expert_mode_spec (with_prompt (u "x")
     {| prompt := []; scriptType := indicator; overlay := true;
        version := u "v6"; model := []; customContext := None |}))
    as [_ [H _]].
  apply H. reflexivity.
Defined.

(** ** The prompt enhancement *)

Lemma trimEnd_prefix_head (b : str) :
  not_headed is_space b -> not_headed is_space (trimEnd b).
Proof.
  intros H. destruct (trimEnd_split b) as (trail & Hb & _ & _).
  destruct (trimEnd b) as [|c t] eqn:E; [exact I|].
  rewrite Hb in H. exact H.
Qed.

Lemma trim_idem (z : str) : trim (trim z) = trim z.
Proof.
  unfold trim.
  pose proof (drop_while_head is_space z) as Hh.
  rewrite <- trimStart_drop in Hh.
  apply trimEnd_prefix_head in Hh.
  rewrite (proj2 (trimStart_fix _) Hh).
  destruct (trimEnd_split (trimStart z)) as (trail & _ & _ & Hl).
  unfold trimEnd at 1.
  rewrite (proj2 (trimStart_fix _) Hl). apply rev_involutive.
Qed.

(** X11.  The enhancement never rejects.  It returns the trimmed text of
    the response when that is not empty, and the input itself when the
    service fails, when the response has no text and when its text is only
    white space.  An input that is not blank is never turned into a blank
    text. *)
Theorem enhancePrompt_outcome (inputText m : str) (ai : service) :
  exists out,
    snd (enhancePrompt inputText m ai) = inr out
    /\ out = match ai (enhance_request inputText) with
             | inr resp =>
                 match text resp with
                 | Some t => if truthy (trim t) then trim t else inputText
                 | None => inputText
                 end
             | inl _ => inputText
             end
    /\ (truthy (trim inputText) = true -> truthy (trim out) = true).
Proof.
  unfold enhancePrompt, generateContent, bind, try_catch, ret.
  destruct (ai (enhance_request inputText)) as [e|[[t|]]]; simpl;
    eexists; (split; [reflexivity|]); (split; [try reflexivity|]); auto.
  unfold or_else. intros H.
  destruct (truthy (trim t)) eqn:E; [|exact H].
  now rewrite trim_idem.
Qed.

Lemma enhancePrompt_outcome_witness :
  exists out,
    snd (enhancePrompt (u "rsi cross") [] (fun _ => inl (Thrown (u "503"))))
    = inr out
    /\ truthy (trim out) = true.
Proof.
  destruct (enhancePrompt_outcome (u "rsi cross") []
              (fun _ => inl (Thrown (u "503")))) as (out & H1 & _ & H3).
  exists out. split; [exact H1|]. apply H3. reflexivity.
Defined.

(** ** The document analysis *)

Lemma str_eqb_refl (a : str) : str_eqb a a = true.
Proof. induction a as [|c a IH]; simpl; [reflexivity|]. now rewrite N.eqb_refl. Qed.

Lemma str_eqb_eq (a b : str) : str_eqb a b = true -> a = b.
Proof.
  revert b. induction a as [|c a IH]; intros [|d b] H; simpl in H;
    try discriminate; [reflexivity|].
  apply andb_true_iff in H as [H1 H2]. apply N.eqb_eq in H1.
  subst. f_equal. now apply IH.
Qed.

(** Reading a property after assigning it gives the value assigned. *)
Lemma lookup_update_same (k : str) (v : value) (ps : list (str * value)) :
  lookup k (update k v ps) = v.
Proof.
  induction ps as [|[k' v'] r IH]; simpl.
  - now rewrite str_eqb_refl.
  - destruct (str_eqb k k') eqn:E; simpl.
    + now rewrite str_eqb_refl.
    + now rewrite E.
Qed.

(** Assigning a property leaves the other properties as they are. *)
Lemma lookup_update_other (k1 k2 : str) (v : value) (ps : list (str * value)) :
  str_eqb k1 k2 = false -> lookup k1 (update k2 v ps) = lookup k1 ps.
Proof.
  intros H. induction ps as [|[k' v'] r IH]; simpl.
  - now rewrite H.
  - destruct (str_eqb k2 k') eqn:E; simpl.
    + apply str_eqb_eq in E. subst k'. now rewrite H.
    + now rewrite IH.
Qed.

Lemma validate_analysis_object (ps : list (str * value)) :
  validate_analysis (VObject ps) = ret (VObject (validated ps)).
Proof.
  unfold validate_analysis, validated, lift, bind, ret. simpl.
  destruct (falsy (lookup k_scriptType ps)); simpl;
    match goal with |- context [not_boolean ?x] => destruct (not_boolean x) end;
    simpl;
    match goal with |- context [falsy ?x] => destruct (falsy x) end;
    reflexivity.
Qed.

Lemma validate_analysis_array (elems : list value) (ps : list (str * value)) :
  validate_analysis (VArray elems ps) = ret (VArray elems (validated ps)).
Proof.
  unfold validate_analysis, validated, lift, bind, ret. simpl.
  destruct (falsy (lookup k_scriptType ps)); simpl;
    match goal with |- context [not_boolean ?x] => destruct (not_boolean x) end;
    simpl;
    match goal with |- context [falsy ?x] => destruct (falsy x) end;
    reflexivity.
Qed.

Lemma bind_inr {A B} (l : list event) (a : A) (f : A -> M B) :
  bind (l, inr a) f = let (l', r) := f a in (l ++ l', r).
Proof. reflexivity. Qed.

Lemma pdf_parse_block (JSON_parse : str -> option value) (t : str) :
  exists v,
    try_catch (result <- parse_json JSON_parse t ;; validate_analysis result)
      (fun _ => ret invalid_json_result)
    = ([], inr v).
Proof.
  unfold parse_json.
  destruct (JSON_parse t) as [v|]; [|eexists; reflexivity].
  destruct v as [| |b|q|s|elems named|props];
    try (eexists; reflexivity).
  - exists (VArray elems (validated named)).
    unfold ret at 1, bind at 1. rewrite validate_analysis_array. reflexivity.
  - exists (VObject (validated props)).
    unfold ret at 1, bind at 1. rewrite validate_analysis_object. reflexivity.
Qed.

(** X12.  The analysis rejects only when the service does, and then with
    its fixed error; in every other case, whatever the response text and
    whatever [JSON.parse] makes of it, a value is returned. *)
Theorem pdf_outcome (JSON_parse : str -> option value)
  (pdf name : str) (ai : service) :
  match ai (pdf_request pdf) with
  | inl _ =>
      extractStrategyFromPdf JSON_parse pdf name ai
      = ([GenerateContent (pdf_request pdf)],
         inl (Thrown (u "Failed to analyze PDF. Please ensure the file is valid.")))
  | inr _ =>
      exists v,
        extractStrategyFromPdf JSON_parse pdf name ai
        = ([GenerateContent (pdf_request pdf)], inr v)
  end.
Proof.
  unfold extractStrategyFromPdf, generateContent.
  destruct (ai (pdf_request pdf)) as [e|resp]; [reflexivity|].
  destruct (pdf_parse_block JSON_parse (text_or resp (u "{}"))) as [v Hv].
  exists v. rewrite bind_inr. cbv beta zeta. rewrite Hv. reflexivity.
Qed.

(** X13.  A response that is valid JSON but not an object, such as [null],
    a number, a string or a boolean, gets the defaults of the invalid-JSON
    branch: the failed property access or assignment is caught like a
    syntax error. *)
Theorem pdf_not_an_object (JSON_parse : str -> option value)
  (pdf name : str) (ai : service) (resp : response) (v : value) :
  ai (pdf_request pdf) = inr resp ->
  JSON_parse (text_or resp (u "{}")) = Some v ->
  match v with VObject _ | VArray _ _ => False | _ => True end ->
  snd (extractStrategyFromPdf JSON_parse pdf name ai) = inr invalid_json_result.
Proof.
  intros Hai Hp Hv.
  unfold extractStrategyFromPdf, generateContent, parse_json, bind at 1,
    try_catch at 1.
  rewrite Hai, Hp.
  destruct v; try contradiction; reflexivity.
Qed.

Lemma pdf_not_an_object_witness :
  snd (extractStrategyFromPdf (fun _ => Some VNull) (u "JVBERi0=") (u "a.pdf")
         (fun _ => inr {| text := Some (u "null") |}))
  = inr invalid_json_result.
Proof.
  apply (pdf_not_an_object _ _ _ _ {| text := Some (u "null") |} VNull);
    [reflexivity|reflexivity|exact I].
Defined.

(** X14.  For a response that parses to an object, the returned object has
    a [scriptType] and a [generatedPrompt] that are not falsy and a boolean
    [overlay].  A field that already is so keeps its value, every other
    property of the object is kept, and an object whose three fields pass
    is returned as it is. *)
Theorem pdf_object_validated (JSON_parse : str -> option value)
  (pdf name : str) (ai : service) (resp : response)
  (ps : list (str * value)) :
  ai (pdf_request pdf) = inr resp ->
  JSON_parse (text_or resp (u "{}")) = Some (VObject ps) ->
  exists ps',
    snd (extractStrategyFromPdf JSON_parse pdf name ai) = inr (VObject ps')
    /\ falsy (lookup k_scriptType ps') = false
    /\ not_boolean (lookup k_overlay ps') = false
    /\ falsy (lookup k_generatedPrompt ps') = false
    /\ (falsy (lookup k_scriptType ps) = false ->
        lookup k_scriptType ps' = lookup k_scriptType ps)
    /\ (not_boolean (lookup k_overlay ps) = false ->
        lookup k_overlay ps' = lookup k_overlay ps)
    /\ (falsy (lookup k_generatedPrompt ps) = false ->
        lookup k_generatedPrompt ps' = lookup k_generatedPrompt ps)
    /\ (forall k, str_eqb k k_scriptType = false ->
                  str_eqb k k_overlay = false ->
                  str_eqb k k_generatedPrompt = false ->
                  lookup k ps' = lookup k ps)
    /\ (falsy (lookup k_scriptType ps) = false ->
        not_boolean (lookup k_overlay ps) = false ->
        falsy (lookup k_generatedPrompt ps) = false ->
        ps' = ps).
Proof.
  intros Hai Hp. exists (validated ps). split.
  { unfold extractStrategyFromPdf, generateContent, parse_json, bind at 1,
      try_catch at 1.
    rewrite Hai, Hp. unfold ret at 1, bind at 1.
    rewrite validate_analysis_object. reflexivity. }
  assert (Hso : str_eqb k_scriptType k_overlay = false) by reflexivity.
  assert (Hsg : str_eqb k_scriptType k_generatedPrompt = false) by reflexivity.
  assert (Hos : str_eqb k_overlay k_scriptType = false) by reflexivity.
  assert (Hog : str_eqb k_overlay k_generatedPrompt = false) by reflexivity.
  assert (Hgs : str_eqb k_generatedPrompt k_scriptType = false) by reflexivity.
  assert (Hgo : str_eqb k_generatedPrompt k_overlay = false) by reflexivity.
  unfold validated.
  destruct (falsy (lookup k_scriptType ps)) eqn:E1;
    match goal with |- context [not_boolean ?x] =>
      destruct (not_boolean x) eqn:E2 end;
    match goal with |- context [falsy (lookup k_generatedPrompt ?x)] =>
      destruct (falsy (lookup k_generatedPrompt x)) eqn:E3 end;
    repeat (rewrite ?lookup_update_same, ?lookup_update_other in * by assumption);
    repeat split; intros;
    repeat (rewrite ?lookup_update_same, ?lookup_update_other in * by assumption);
    try reflexivity; try assumption; try congruence.
Qed.

Lemma pdf_object_validated_witness :
  exists ps',
    snd (extractStrategyFromPdf (fun _ => Some (VObject [])) (u "JVBERi0=")
           (u "a.pdf") (fun _ => inr {| text := None |}))
    = inr (VObject ps')
    /\ lookup k_scriptType ps' = VString (u "indicator")
    /\ lookup k_overlay ps' = VBool true
    /\ lookup k_generatedPrompt ps' = VString missing_prompt_notice.
Proof.
  destruct (pdf_object_validated (fun _ => Some (VObject [])) (u "JVBERi0=")
              (u "a.pdf") (fun _ => inr {| text := None |})
              {| text := None |} [] eq_refl eq_refl) as (ps' & H & _).
  exists ps'. split; [exact H|].
  vm_compute in H. inversion H. repeat split; reflexivity.
Defined.

(* ================================================================== *)
(** * Properties of the application *)

Lemma generate_with_updateStatus (p : PineScriptParams) (ai : service) :
  generatePineScript p (Some updateStatus) ai =
  match ai (generate_request p) with
  | inr resp =>
      ([ StatusUpdate (u "NORMALIZING_REQUEST");
         StatusUpdate (u "OPTIMIZING_LOGIC");
         StatusUpdate (u "GENERATING_CODE");
         GenerateContent (generate_request p);
         StatusUpdate (u "VALIDATING_OUTPUT") ],
       inr {| code := postProcessCode
                        (fst (extract_generated (text_or resp []))) (version p);
              explanation := snd (extract_generated (text_or resp [])) |})
  | inl _ =>
      ([ StatusUpdate (u "NORMALIZING_REQUEST");
         StatusUpdate (u "OPTIMIZING_LOGIC");
         StatusUpdate (u "GENERATING_CODE");
         GenerateContent (generate_request p) ],
       inl pipeline_error)
  end.
Proof.
  unfold generatePineScript, notify, generateContent, bind, try_catch, ret,
    throw, updateStatus.
  destruct (ai (generate_request p)) as [e|resp]; [reflexivity|].
  destruct (extract_generated (text_or resp [])); reflexivity.
Qed.

Lemma starts_with_marker (rest d : str) :
  starts_with version_marker (version_marker ++ d ++ nl :: rest) = true.
Proof. apply starts_with_app. Qed.

(** X15.  A generation started with a prompt that is not blank, and
    answered by the service, goes through the loading states Normalizing,
    Optimizing, Generating, Validating and Success, in this order and
    without another one; it ends with the result set, its explanation as
    the only chat message and no error message. *)
Theorem handleGenerate_success (ai : service) (st : AppState)
  (resp : response) :
  truthy (trim (prompt (params st))) = true ->
  ai (generate_request (params st)) = inr resp ->
  exists data,
    result (final (handleGenerate ai st)) = Some data
    /\ snd (generatePineScript (params st) (Some updateStatus) ai) = inr data
    /\ chatMessages (final (handleGenerate ai st))
       = [model_message (explanation data)]
    /\ loadingState (final (handleGenerate ai st)) = SUCCESS
    /\ errorMsg (final (handleGenerate ai st)) = None
    /\ params (final (handleGenerate ai st)) = params st
    /\ loading_trace (handleGenerate ai st)
       = [NORMALIZING; NORMALIZING; OPTIMIZING; GENERATING; VALIDATING; SUCCESS].
Proof.
  intros Hp Hai. unfold handleGenerate. rewrite Hp. simpl negb. cbv iota.
  rewrite generate_with_updateStatus, Hai.
  eexists. repeat split.
Qed.

Lemma handleGenerate_success_witness :
  loading_trace (handleGenerate ai_fenced
                   (setParams (with_prompt (u "Plot the close")) initialState))
  = [NORMALIZING; NORMALIZING; OPTIMIZING; GENERATING; VALIDATING; SUCCESS].
Proof.
  destruct (handleGenerate_success ai_fenced
              (setParams (with_prompt (u "Plot the close")) initialState)
              {| text := Some (u "[CODE]
```pinescript
plot(close)
```") |} eq_refl eq_refl) as (data & H).
  apply H.
Defined.

(** X16.  A generation started with a blank prompt does nothing: no state
    changes and no request is made.  A generation whose request fails ends
    in the error state, with the message of the pipeline error, no result
    and an empty chat; what was shown before is gone. *)
Theorem handleGenerate_failure (ai : service) (st : AppState) :
  (truthy (trim (prompt (params st))) = false ->
   handleGenerate ai st = unchanged st)
  /\ (forall e,
        truthy (trim (prompt (params st))) = true ->
        ai (generate_request (params st)) = inl e ->
        loadingState (final (handleGenerate ai st)) = ERROR
        /\ errorMsg (final (handleGenerate ai st))
           = Some (u "Pipeline Error: Failed to generate valid script.")
        /\ result (final (handleGenerate ai st)) = None
        /\ chatMessages (final (handleGenerate ai st)) = []
        /\ loading_trace (handleGenerate ai st)
           = [NORMALIZING; NORMALIZING; OPTIMIZING; GENERATING; ERROR]).
Proof.
  split.
  - intros H. unfold handleGenerate. now rewrite H.
  - intros e Hp Hai. unfold handleGenerate. rewrite Hp. simpl negb. cbv iota.
    rewrite generate_with_updateStatus, Hai. repeat split.
Qed.

Lemma handleGenerate_failure_witness :
  handleGenerate ai_fenced initialState = unchanged initialState
  /\ loadingState
       (final (handleGenerate (fun _ => inl (Thrown (u "503")))
                 (setParams (with_prompt (u "Plot the close")) initialState)))
     = ERROR.
Proof.
  split.
  - destruct (handleGenerate_failure ai_fenced initialState) as [H _].
    apply H. reflexivity.
  - destruct (handleGenerate_failure (fun _ => inl (Thrown (u "503")))
                (setParams (with_prompt (u "Plot the close")) initialState))
      as [_ H].
    apply (H (Thrown (u "503")) eq_refl eq_refl).
Defined.

(** X17.  A refinement turn only appends to the chat: the messages before
    it stay, in their order.  When it runs, it appends the message of the
    user and one message of the model, clears the chat input and ends in
    the success state; without a result, or with a blank chat input, it
    does nothing. *)
Theorem handleRefine_appends (ai : service) (st : AppState) :
  (result st = None \/ truthy (trim (chatInput st)) = false ->
   handleRefine ai st = unchanged st)
  /\ (result st <> None -> truthy (trim (chatInput st)) = true ->
      exists reply,
        chatMessages (final (handleRefine ai st))
        = chatMessages st
          ++ [user_message_of (chatInput st); model_message reply]
        /\ chatInput (final (handleRefine ai st)) = []
        /\ loadingState (final (handleRefine ai st)) = SUCCESS
        /\ result (final (handleRefine ai st)) <> None
        /\ params (final (handleRefine ai st)) = params st
        /\ loading_trace (handleRefine ai st) = [REFINING; SUCCESS]).
Proof.
  unfold handleRefine. split.
  - intros [H|H].
    + now rewrite H.
    + destruct (result st); [|reflexivity]. now rewrite H.
  - intros Hr Hc. destruct (result st) as [res|] eqn:Er; [|congruence].
    rewrite Hc. simpl negb. cbv iota.
    destruct (refinePineScript (code res) (chatInput st) (params st) ai)
      as [log [e|data]]; simpl; eexists;
      rewrite <- app_assoc; repeat split; try reflexivity; congruence.
Qed.

Lemma handleRefine_appends_witness :
  handleRefine ai_fenced initialState = unchanged initialState
  /\ exists reply,
       chatMessages (final (handleRefine ai_fenced refining_state))
       = chatMessages refining_state
         ++ [user_message_of (chatInput refining_state); model_message reply]
       /\ chatInput (final (handleRefine ai_fenced refining_state)) = []
       /\ loadingState (final (handleRefine ai_fenced refining_state)) = SUCCESS
       /\ result (final (handleRefine ai_fenced refining_state)) <> None
       /\ params (final (handleRefine ai_fenced refining_state))
          = params refining_state
       /\ loading_trace (handleRefine ai_fenced refining_state)
          = [REFINING; SUCCESS].
Proof.
  split.
  - destruct (handleRefine_appends ai_fenced initialState) as [H _].
    apply H. now left.
  - destruct (handleRefine_appends ai_fenced refining_state) as [_ H].
    apply H; [discriminate|reflexivity].
Defined.

(** X18.  A refinement turn whose request fails keeps the result as it
    was: the code shown is not touched, and the chat gets the message of
    the user and the fixed error message of the application. *)
Theorem handleRefine_failure (ai : service) (st : AppState)
  (res : GeneratedResult) (e : exn) :
  result st = Some res ->
  truthy (trim (chatInput st)) = true ->
  ai (refine_request (code res) (chatInput st) (params st)) = inl e ->
  result (final (handleRefine ai st)) = Some res
  /\ chatMessages (final (handleRefine ai st))
     = chatMessages st
       ++ [user_message_of (chatInput st); model_message refine_error_message]
  /\ loadingState (final (handleRefine ai st)) = SUCCESS.
Proof.
  intros Hr Hc Hai. unfold handleRefine. rewrite Hr, Hc. simpl negb. cbv iota.
  unfold refinePineScript, generateContent, bind, try_catch, throw.
  rewrite Hai. simpl. rewrite <- app_assoc. repeat split. exact Hr.
Qed.

Lemma handleRefine_failure_witness :
  result
    (final
       (handleRefine (fun _ => inl (Thrown (u "503")))
          (setChatInput (u "make it red")
             (setResult (Some {| code := u "//@version=6
plot(close)"; explanation := [] |}) initialState))))
  = Some {| code := u "//@version=6
plot(close)"; explanation := [] |}.
Proof.
  apply (handleRefine_failure (fun _ => inl (Thrown (u "503")))
           (setChatInput (u "make it red")
              (setResult (Some {| code := u "//@version=6
plot(close)"; explanation := [] |}) initialState))
           _ (Thrown (u "503")) eq_refl eq_refl eq_refl).
Defined.

Lemma enhancePrompt_value (inputText m : str) (ai : service) :
  exists log out,
    enhancePrompt inputText m ai = (log, inr out)
    /\ (truthy (trim inputText) = true -> truthy (trim out) = true).
Proof.
  unfold enhancePrompt, generateContent, bind, try_catch, ret.
  destruct (ai (enhance_request inputText)) as [e|[[t|]]]; simpl;
    do 2 eexists; (split; [reflexivity|]); auto.
  unfold or_else. intros H.
  destruct (truthy (trim t)) eqn:E; [|exact H].
  now rewrite trim_idem.
Qed.

(** X19.  Enhancing the prompt never leaves a blank prompt and never sets
    an error message: after the handler has run, the prompt is not blank,
    the error message is cleared, the enhancing flag is off again, and the
    result, the chat and the loading state are as before. *)
Theorem handleEnhanceMain_keeps_prompt (ai : service) (st : AppState) :
  truthy (trim (prompt (params st))) = true ->
  isEnhancing st = false ->
  truthy (trim (prompt (params (final (handleEnhanceMain ai st))))) = true
  /\ errorMsg (final (handleEnhanceMain ai st)) = None
  /\ isEnhancing (final (handleEnhanceMain ai st)) = false
  /\ result (final (handleEnhanceMain ai st)) = result st
  /\ chatMessages (final (handleEnhanceMain ai st)) = chatMessages st
  /\ loadingState (final (handleEnhanceMain ai st)) = loadingState st.
Proof.
  intros Hp He. unfold handleEnhanceMain. rewrite Hp, He. simpl orb. cbv iota.
  destruct (enhancePrompt_value (prompt (params st)) (model (params st)) ai)
    as (log & out & -> & H).
  simpl. repeat split. now apply H.
Qed.

Lemma handleEnhanceMain_keeps_prompt_witness :
  truthy (trim (prompt (params (final
    (handleEnhanceMain (fun _ => inr {| text := Some (u "   ") |})
       (setParams (with_prompt (u "rsi")) initialState)))))) = true.
Proof.
  apply (handleEnhanceMain_keeps_prompt
           (fun _ => inr {| text := Some (u "   ") |})
           (setParams (with_prompt (u "rsi")) initialState) eq_refl eq_refl).
Defined.

(** X20.  Clearing the session empties the prompt and the context, drops
    the result, the chat and the selected file and goes back to the idle
    state, keeping the other settings; after it, starting a generation or
    a refinement does nothing until a prompt is typed again. *)
Theorem handleClear_resets (ai : service) (st : AppState) :
  result (handleClear st) = None
  /\ chatMessages (handleClear st) = []
  /\ loadingState (handleClear st) = IDLE
  /\ selectedFile (handleClear st) = None
  /\ params (handleClear st) = with_cleared_texts (params st)
  /\ version (params (handleClear st)) = version (params st)
  /\ model (params (handleClear st)) = model (params st)
  /\ handleGenerate ai (handleClear st) = unchanged (handleClear st)
  /\ handleRefine ai (handleClear st) = unchanged (handleClear st)
  /\ handleClear (handleClear st) = handleClear st.
Proof. repeat split. Qed.

(** ** The session *)

Lemma refine_code_head (cur ins : str) (p : PineScriptParams) (ai : service)
  (log : list event) (r : GeneratedResult) :
  refinePineScript cur ins p ai = (log, inr r) ->
  starts_with version_marker (code r) = true.
Proof.
  unfold refinePineScript, generateContent, bind, try_catch, ret, throw.
  destruct (ai (refine_request cur ins p)) as [e|resp]; [discriminate|].
  destruct (extract_refined cur (text_or resp [])) as [c e].
  simpl. intros H. inversion H. simpl.
  destruct (postProcessCode_head c (version p)) as [rest ->].
  apply starts_with_marker.
Qed.

Lemma turns_ok_app (a b : ChatMessage) :
  msg_role a = role_user -> msg_role b = role_model ->
  forall n l, (length l <= n)%nat ->
  turns_ok l = true -> turns_ok (l ++ [a; b]) = true.
Proof.
  intros Ha Hb. induction n as [|n IH]; intros l Hl H.
  - destruct l; [|simpl in Hl; lia]. simpl. now rewrite Ha, Hb.
  - destruct l as [|x [|y l]]; simpl in *.
    + now rewrite Ha, Hb.
    + discriminate.
    + destruct (msg_role x); [|discriminate].
      destruct (msg_role y); [discriminate|].
      apply IH; [lia|exact H].
Qed.

Lemma chat_shape_turn (l : list ChatMessage) (t reply : str) :
  l <> [] -> chat_shape l = true ->
  chat_shape (l ++ [user_message_of t; model_message reply]) = true.
Proof.
  destruct l as [|a l]; [congruence|]. intros _. simpl.
  destruct (msg_role a); [discriminate|].
  intros H.
  apply (turns_ok_app (user_message_of t) (model_message reply)
           eq_refl eq_refl (length l) l (le_n _) H).
Qed.

(** The state a generation leaves, field by field. *)
Lemma handleGenerate_final (ai : service) (st : AppState) :
  final (handleGenerate ai st) =
  if negb (truthy (trim (prompt (params st)))) then st
  else
    match ai (generate_request (params st)) with
    | inr resp =>
        {| params := params st; loadingState := SUCCESS;
           result :=
             Some {| code := postProcessCode
                               (fst (extract_generated (text_or resp [])))
                               (version (params st));
                     explanation := snd (extract_generated (text_or resp [])) |};
           errorMsg := None;
           isEnhancing := isEnhancing st; selectedFile := selectedFile st;
           isAnalyzingPdf := isAnalyzingPdf st;
           chatMessages :=
             [model_message (snd (extract_generated (text_or resp [])))];
           chatInput := chatInput st |}
    | inl _ =>
        {| params := params st; loadingState := ERROR;
           result := None;
           errorMsg := Some (message pipeline_error);
           isEnhancing := isEnhancing st; selectedFile := selectedFile st;
           isAnalyzingPdf := isAnalyzingPdf st;
           chatMessages := [];
           chatInput := chatInput st |}
    end.
Proof.
  unfold handleGenerate.
  destruct (negb (truthy (trim (prompt (params st))))); [reflexivity|].
  rewrite generate_with_updateStatus.
  destruct (ai (generate_request (params st))); reflexivity.
Qed.

(** The state a refinement turn leaves, field by field. *)
Lemma handleRefine_final (ai : service) (st : AppState) :
  final (handleRefine ai st) =
  match result st with
  | None => st
  | Some res =>
      if negb (truthy (trim (chatInput st))) then st
      else
        match refinePineScript (code res) (chatInput st) (params st) ai with
        | (_, inr data) =>
            {| params := params st; loadingState := SUCCESS;
               result := Some data; errorMsg := errorMsg st;
               isEnhancing := isEnhancing st; selectedFile := selectedFile st;
               isAnalyzingPdf := isAnalyzingPdf st;
               chatMessages :=
                 chatMessages st
                 ++ [user_message_of (chatInput st);
                     model_message (explanation data)];
               chatInput := [] |}
        | (_, inl _) =>
            {| params := params st; loadingState := SUCCESS;
               result := result st; errorMsg := errorMsg st;
               isEnhancing := isEnhancing st; selectedFile := selectedFile st;
               isAnalyzingPdf := isAnalyzingPdf st;
               chatMessages :=
                 chatMessages st
                 ++ [user_message_of (chatInput st);
                     model_message refine_error_message];
               chatInput := [] |}
        end
  end.
Proof.
  unfold handleRefine.
  destruct (result st) as [res|] eqn:Er; [|reflexivity].
  destruct (negb (truthy (trim (chatInput st)))); [reflexivity|].
  destruct (refinePineScript (code res) (chatInput st) (params st) ai)
    as [log [e|data]]; cbn [final];
    unfold setLoadingState, setChatMessages, setResult, setChatInput;
    cbn [params loadingState result errorMsg isEnhancing selectedFile
         isAnalyzingPdf chatMessages chatInput];
    rewrite <- app_assoc, ?Er; reflexivity.
Qed.

Ltac rest_fields :=
  unfold at_rest, isGenerating;
  cbn [params loadingState result errorMsg isEnhancing selectedFile
       isAnalyzingPdf chatMessages chatInput].

Lemma step_at_rest (a : action) (st : AppState) :
  at_rest st -> at_rest (step a st).
Proof.
  intros H.
  pose proof H as (H1 & H2 & H3 & H4 & H5 & H6 & H7).
  destruct a as [ai|ai|ai|ai| |files| |tpl|p|t]; unfold step.
  - (* Generate *)
    rewrite handleGenerate_final.
    destruct (negb (truthy (trim (prompt (params st))))); [exact H|].
    destruct (ai (generate_request (params st))) as [e|resp]; rest_fields.
    + split; [exact H1|]. split; [reflexivity|]. split; [discriminate|].
      split; [split; [discriminate|intros Hn; now elim Hn]|].
      split; [split; reflexivity|]. split; [reflexivity|].
      intros r Hr. discriminate.
    + split; [exact H1|]. split; [reflexivity|]. split; [discriminate|].
      split; [split; [discriminate|reflexivity]|].
      split; [split; discriminate|]. split; [reflexivity|].
      intros r Hr. injection Hr as <-. cbn [code].
      destruct (postProcessCode_head
                  (fst (extract_generated (text_or resp [])))
                  (version (params st))) as [rest ->].
      apply starts_with_marker.
  - (* Refine *)
    rewrite handleRefine_final.
    destruct (result st) as [res|] eqn:Er; [|exact H].
    destruct (negb (truthy (trim (chatInput st)))); [exact H|].
    assert (Hne : chatMessages st <> []).
    { intros Hc. apply H5 in Hc. congruence. }
    destruct (refinePineScript (code res) (chatInput st) (params st) ai)
      as [log [e|data]] eqn:E; rest_fields.
    + split; [exact H1|]. split; [reflexivity|]. split; [discriminate|].
      split; [split; [congruence|reflexivity]|].
      split; [split; [congruence|]|].
      { intros Hc. destruct (chatMessages st); discriminate. }
      split; [now apply chat_shape_turn|].
      exact H7.
    + split; [exact H1|]. split; [reflexivity|]. split; [discriminate|].
      split; [split; [discriminate|reflexivity]|].
      split; [split; [discriminate|]|].
      { intros Hc. destruct (chatMessages st); discriminate. }
      split; [now apply chat_shape_turn|].
      intros r Hr. injection Hr as <-.
      apply (refine_code_head _ _ _ _ _ _ E).
  - (* EnhanceMain *)
    unfold handleEnhanceMain.
    destruct (negb (truthy (trim (prompt (params st)))) || isEnhancing st);
      [exact H|].
    destruct (enhancePrompt (prompt (params st)) (model (params st)) ai)
      as [log [e|out]];
      exact (conj eq_refl (conj H2 (conj H3 (conj H4 (conj H5 (conj H6 H7)))))).
  - (* EnhanceChat *)
    unfold handleEnhanceChat.
    destruct (negb (truthy (trim (chatInput st))) || isEnhancing st);
      [exact H|].
    destruct (enhancePrompt (chatInput st) (model (params st)) ai)
      as [log [e|out]];
      exact (conj eq_refl (conj H2 (conj H3 (conj H4 (conj H5 (conj H6 H7)))))).
  - (* Clear *)
    split; [exact H1|]. split; [reflexivity|]. split; [discriminate|].
    split; [split; [discriminate|intros Hn; now elim Hn]|].
    split; [split; reflexivity|]. split; [reflexivity|].
    intros r Hr. discriminate.
  - (* SelectFile *)
    unfold handleFileSelect. destruct files as [|f files]; [exact H|].
    destruct (negb (str_eqb (file_type f) (u "application/pdf"))); exact H.
  - exact H.
  - exact H.
  - exact H.
  - exact H.
Qed.

(** X21.  Whatever sequence of generations, refinements, enhancements,
    clearings, file selections, template loads and edits of the form the
    user makes from the first render on, with handlers run one after the
    other and whatever the service answers or fails to answer, the
    session is consistent between two handlers: the loading
    state is Idle, Success or Error, and it is Success exactly when there
    is a result; there is a result exactly when the chat is not empty; the
    chat is the initial analysis of the model followed by pairs of a user
    message and a model message; the enhancing flag is off; and the code
    shown starts with the version marker. *)
Theorem session_at_rest (actions : list action) :
  at_rest (run actions initialState).
Proof.
  unfold run.
  assert (H0 : at_rest initialState).
  { unfold at_rest, initialState. simpl.
    repeat split; try discriminate; try reflexivity; try (intros; congruence). }
  revert H0. generalize initialState.
  induction actions as [|a actions IH]; intros st H; simpl; [exact H|].
  apply IH. now apply step_at_rest.
Qed.

(** ** The selected file *)

Lemma step_pdf_selected (a : action) (st : AppState) :
  pdf_selected st -> pdf_selected (step a st).
Proof.
  intros H.
  destruct a as [ai|ai|ai|ai| |files| |tpl|p|t]; unfold step.
  - rewrite handleGenerate_final.
    destruct (negb (truthy (trim (prompt (params st))))); [exact H|].
    destruct (ai (generate_request (params st))); exact H.
  - rewrite handleRefine_final.
    destruct (result st) as [res|]; [|exact H].
    destruct (negb (truthy (trim (chatInput st)))); [exact H|].
    destruct (refinePineScript (code res) (chatInput st) (params st) ai)
      as [log [e|data]]; exact H.
  - unfold handleEnhanceMain.
    destruct (negb (truthy (trim (prompt (params st)))) || isEnhancing st);
      [exact H|].
    destruct (enhancePrompt (prompt (params st)) (model (params st)) ai)
      as [log [e|out]]; exact H.
  - unfold handleEnhanceChat.
    destruct (negb (truthy (trim (chatInput st))) || isEnhancing st);
      [exact H|].
    destruct (enhancePrompt (chatInput st) (model (params st)) ai)
      as [log [e|out]]; exact H.
  - intros f Hf. discriminate.
  - unfold handleFileSelect. destruct files as [|f files]; [exact H|].
    destruct (str_eqb (file_type f) (u "application/pdf")) eqn:E;
      cbn [negb]; [|exact H].
    intros g Hg. cbn in Hg. injection Hg as <-. now apply str_eqb_eq.
  - intros f Hf. discriminate.
  - exact H.
  - exact H.
  - exact H.
Qed.

(** X22.  The file kept as selected is always a PDF: after any sequence of
    actions from the first render on, a selected file has the type
    [application/pdf].  Choosing a file of another type sets the error
    message and keeps the selection as it was, and choosing nothing changes
    nothing. *)
Theorem session_selected_pdf (actions : list action) :
  pdf_selected (run actions initialState)
  /\ (forall st f files,
        file_type f <> u "application/pdf" ->
        selectedFile (handleFileSelect (f :: files) st) = selectedFile st
        /\ errorMsg (handleFileSelect (f :: files) st)
           = Some (u "Please select a valid PDF file."))
  /\ (forall st, handleFileSelect [] st = st).
Proof.
  split; [|split].
  - unfold run.
    assert (H0 : pdf_selected initialState) by (intros f Hf; discriminate).
    revert H0. generalize initialState.
    induction actions as [|a actions IH]; intros st H; simpl; [exact H|].
    apply IH. now apply step_pdf_selected.
  - intros st f files Hf. unfold handleFileSelect.
    destruct (str_eqb (file_type f) (u "application/pdf")) eqn:E.
    + apply str_eqb_eq in E. contradiction.
    + split; reflexivity.
  - reflexivity.
Qed.

Lemma session_selected_pdf_witness :
  selectedFile
    (handleFileSelect
       [{| file_name := u "notes.txt"; file_type := u "text/plain" |}]
       initialState)
  = None.
Proof.
  destruct (session_selected_pdf []) as (_ & H & _).
  destruct (H initialState
              {| file_name := u "notes.txt"; file_type := u "text/plain" |} [])
    as [H1 _]; [discriminate|].
  exact H1.
Defined.
